(** * Distributed Ford-Fulkerson max-flow (project.cpp): a shallow embedding

    The program runs on [mpi_size] MPI ranks, each with a router thread
    (thread 0) and worker threads sharing the globals of project.cpp.  The
    embedding keeps one record [process] with those globals, and writes every
    function of the source as a computation in a state-and-failure monad over
    it.  A failed computation ([None]) stands for an access outside a
    [std::vector], which the C++ code leaves undefined.  Messages handed to
    [MPI_Ssend] are appended to the [outbox] of the sending process; a received
    message is an argument of the handler that services it. *)

From stdpp Require Import base gmap list strings pretty.
From Stdlib Require Import ZArith Lia.

Local Open Scope Z_scope.

(** ** Machine integers *)

(** [int] is 32 bits wide and signed; arithmetic wraps around. *)
Definition INT_MAX : Z := 2147483647.
Definition INT_MIN : Z := -2147483648.

Definition wrap_int (z : Z) : Z := (z + 2 ^ 31) mod 2 ^ 32 - 2 ^ 31.

Definition int_add (a b : Z) : Z := wrap_int (a + b).
Definition int_sub (a b : Z) : Z := wrap_int (a - b).
Definition int_neg (a : Z) : Z := wrap_int (- a).
Definition int_abs (a : Z) : Z := wrap_int (Z.abs a).

Definition in_int_range (z : Z) : Prop := INT_MIN <= z <= INT_MAX.

(** ** Data structures *)

(** Modelled from the spec: [global_id] and [local_id] are declared in
    data-structures.h; the spec makes vertex ids 64-bit, and project.cpp
    compares local indices with [(local_id)-1], the largest unsigned value. *)
Abbreviation global_id := Z.
Abbreviation local_id := Z.
Definition NO_LOCAL_ID : local_id := 2 ^ 64 - 1.

(** Modelled from the spec: [struct out_edge] of data-structures.h, with the
    fields in the order of the initialiser in [read_file]. *)
Record out_edge : Type := mk_out_edge {
  dest_node_id : global_id;
  rank_location : Z;
  vert_index : local_id;
  capacity : Z;
  flow : Z
}.

(** Modelled from the spec: [struct in_edge] of data-structures.h; its three
    fields carry the same names as the first three of [out_edge] in C++. *)
Record in_edge : Type := mk_in_edge {
  in_dest_node_id : global_id;
  in_rank_location : Z;
  in_vert_index : local_id
}.

(** Modelled from the spec: [struct vertex] of data-structures.h. *)
Record vertex : Type := mk_vertex {
  id : global_id;
  out_edges : list out_edge;
  in_edges : list in_edge
}.

(** Modelled from the spec: [struct label] of data-structures.h. *)
Record label : Type := mk_label {
  value : Z;
  prev_node : global_id;
  prev_rank_loc : Z;
  prev_vert_index : local_id
}.

(** Modelled from the spec: [EMPTY_LABEL] of data-structures.h.  Its value is
    the empty value 0 that [set_label] compares against; the back-pointer
    fields are never read while the value is 0. *)
Definition EMPTY_LABEL : label := mk_label 0 0 0 0.

(** Modelled from the spec: [struct edge_entry] of data-structures.h. *)
Record edge_entry : Type := mk_edge_entry {
  vertex_index : local_id;
  is_outgoing : bool;
  edge_index : Z
}.

Record message_data : Type := mk_message_data {
  senders_node : global_id;
  receivers_node : global_id;
  msg_value : Z;
  msg_pass : Z
}.

Inductive message_tags : Type :=
| SET_TO_LABEL
| COMPUTE_FROM_LABEL
| SINK_FOUND
| UPDATE_FLOW
| SOURCE_FOUND
| TOTAL_FLOW
| TOKEN_WHITE
| TOKEN_RED
| CHECK_TERMINATION.

#[global] Instance message_tags_eq_dec : EqDecision message_tags.
Proof. solve_decision. Defined.

(** The enumeration starts at 1. *)
Definition int_of_tag (t : message_tags) : Z :=
  match t with
  | SET_TO_LABEL => 1
  | COMPUTE_FROM_LABEL => 2
  | SINK_FOUND => 3
  | UPDATE_FLOW => 4
  | SOURCE_FOUND => 5
  | TOTAL_FLOW => 6
  | TOKEN_WHITE => 7
  | TOKEN_RED => 8
  | CHECK_TERMINATION => 9
  end.

Definition tag_of_int (z : Z) : option message_tags :=
  if z =? 1 then Some SET_TO_LABEL
  else if z =? 2 then Some COMPUTE_FROM_LABEL
  else if z =? 3 then Some SINK_FOUND
  else if z =? 4 then Some UPDATE_FLOW
  else if z =? 5 then Some SOURCE_FOUND
  else if z =? 6 then Some TOTAL_FLOW
  else if z =? 7 then Some TOKEN_WHITE
  else if z =? 8 then Some TOKEN_RED
  else if z =? 9 then Some CHECK_TERMINATION
  else None.

Definition tag2str (tag : Z) : string :=
  match tag_of_int tag with
  | Some SET_TO_LABEL => "SET_TO_LABEL"
  | Some COMPUTE_FROM_LABEL => "COMPUTE_FROM_LABEL"
  | Some SINK_FOUND => "SINK_FOUND"
  | Some UPDATE_FLOW => "UPDATE_FLOW"
  | Some SOURCE_FOUND => "SOURCE_FOUND"
  | Some TOTAL_FLOW => "TOTAL_FLOW"
  | Some TOKEN_WHITE => "TOKEN_WHITE"
  | Some TOKEN_RED => "TOKEN_RED"
  | Some CHECK_TERMINATION => "CHECK_TERMINATION"
  | None => "INVALID_TAG"
  end.

(** What a call of [MPI_Ssend] hands to the transport: the buffer is a
    [message_data], a single [int] (TOTAL_FLOW) or empty (count 0). *)
Inductive payload : Type :=
| NoPayload
| MsgPayload (m : message_data)
| IntPayload (z : Z).

Record sent : Type := mk_sent {
  sent_dest : Z;
  sent_tag : message_tags;
  sent_payload : payload
}.

(** ** The globals of one process *)

Record process : Type := mk_process {
  mpi_rank : Z;
  mpi_size : Z;
  source_id : global_id;
  sink_id : global_id;
  working_threads : Z;
  my_color : message_tags;
  have_token : bool;
  token_color : message_tags;
  queue_is_empty : bool;
  vertices : list vertex;
  labels : list label;
  global_to_local : gmap Z Z;
  sink_found : bool;
  step_3_tid : Z;
  pass : Z;
  algorithm_complete : bool;
  edge_queue : list edge_entry;
  (** whether the build defines DEBUG_MODE, which turns the ERROR macro on *)
  debug_mode : bool;
  (** the environment: messages sent, lines on stderr and on stdout *)
  outbox : list sent;
  stderr : list string;
  stdout : list string
}.

Definition with_working_threads (f : Z -> Z) (p : process) : process :=
  mk_process (mpi_rank p) (mpi_size p) (source_id p) (sink_id p)
    (f (working_threads p)) (my_color p) (have_token p) (token_color p)
    (queue_is_empty p) (vertices p) (labels p) (global_to_local p)
    (sink_found p) (step_3_tid p) (pass p) (algorithm_complete p)
    (edge_queue p) (debug_mode p) (outbox p) (stderr p) (stdout p).

Definition with_my_color (c : message_tags) (p : process) : process :=
  mk_process (mpi_rank p) (mpi_size p) (source_id p) (sink_id p)
    (working_threads p) c (have_token p) (token_color p)
    (queue_is_empty p) (vertices p) (labels p) (global_to_local p)
    (sink_found p) (step_3_tid p) (pass p) (algorithm_complete p)
    (edge_queue p) (debug_mode p) (outbox p) (stderr p) (stdout p).

Definition with_have_token (b : bool) (p : process) : process :=
  mk_process (mpi_rank p) (mpi_size p) (source_id p) (sink_id p)
    (working_threads p) (my_color p) b (token_color p)
    (queue_is_empty p) (vertices p) (labels p) (global_to_local p)
    (sink_found p) (step_3_tid p) (pass p) (algorithm_complete p)
    (edge_queue p) (debug_mode p) (outbox p) (stderr p) (stdout p).

Definition with_token_color (c : message_tags) (p : process) : process :=
  mk_process (mpi_rank p) (mpi_size p) (source_id p) (sink_id p)
    (working_threads p) (my_color p) (have_token p) c
    (queue_is_empty p) (vertices p) (labels p) (global_to_local p)
    (sink_found p) (step_3_tid p) (pass p) (algorithm_complete p)
    (edge_queue p) (debug_mode p) (outbox p) (stderr p) (stdout p).

Definition with_queue_is_empty (b : bool) (p : process) : process :=
  mk_process (mpi_rank p) (mpi_size p) (source_id p) (sink_id p)
    (working_threads p) (my_color p) (have_token p) (token_color p)
    b (vertices p) (labels p) (global_to_local p)
    (sink_found p) (step_3_tid p) (pass p) (algorithm_complete p)
    (edge_queue p) (debug_mode p) (outbox p) (stderr p) (stdout p).

Definition with_vertices (f : list vertex -> list vertex) (p : process)
  : process :=
  mk_process (mpi_rank p) (mpi_size p) (source_id p) (sink_id p)
    (working_threads p) (my_color p) (have_token p) (token_color p)
    (queue_is_empty p) (f (vertices p)) (labels p) (global_to_local p)
    (sink_found p) (step_3_tid p) (pass p) (algorithm_complete p)
    (edge_queue p) (debug_mode p) (outbox p) (stderr p) (stdout p).

Definition with_labels (f : list label -> list label) (p : process)
  : process :=
  mk_process (mpi_rank p) (mpi_size p) (source_id p) (sink_id p)
    (working_threads p) (my_color p) (have_token p) (token_color p)
    (queue_is_empty p) (vertices p) (f (labels p)) (global_to_local p)
    (sink_found p) (step_3_tid p) (pass p) (algorithm_complete p)
    (edge_queue p) (debug_mode p) (outbox p) (stderr p) (stdout p).

Definition with_sink_found (b : bool) (p : process) : process :=
  mk_process (mpi_rank p) (mpi_size p) (source_id p) (sink_id p)
    (working_threads p) (my_color p) (have_token p) (token_color p)
    (queue_is_empty p) (vertices p) (labels p) (global_to_local p)
    b (step_3_tid p) (pass p) (algorithm_complete p)
    (edge_queue p) (debug_mode p) (outbox p) (stderr p) (stdout p).

Definition with_step_3_tid (t : Z) (p : process) : process :=
  mk_process (mpi_rank p) (mpi_size p) (source_id p) (sink_id p)
    (working_threads p) (my_color p) (have_token p) (token_color p)
    (queue_is_empty p) (vertices p) (labels p) (global_to_local p)
    (sink_found p) t (pass p) (algorithm_complete p)
    (edge_queue p) (debug_mode p) (outbox p) (stderr p) (stdout p).

Definition with_pass (f : Z -> Z) (p : process) : process :=
  mk_process (mpi_rank p) (mpi_size p) (source_id p) (sink_id p)
    (working_threads p) (my_color p) (have_token p) (token_color p)
    (queue_is_empty p) (vertices p) (labels p) (global_to_local p)
    (sink_found p) (step_3_tid p) (f (pass p)) (algorithm_complete p)
    (edge_queue p) (debug_mode p) (outbox p) (stderr p) (stdout p).

Definition with_algorithm_complete (b : bool) (p : process) : process :=
  mk_process (mpi_rank p) (mpi_size p) (source_id p) (sink_id p)
    (working_threads p) (my_color p) (have_token p) (token_color p)
    (queue_is_empty p) (vertices p) (labels p) (global_to_local p)
    (sink_found p) (step_3_tid p) (pass p) b
    (edge_queue p) (debug_mode p) (outbox p) (stderr p) (stdout p).

Definition with_edge_queue (f : list edge_entry -> list edge_entry)
  (p : process) : process :=
  mk_process (mpi_rank p) (mpi_size p) (source_id p) (sink_id p)
    (working_threads p) (my_color p) (have_token p) (token_color p)
    (queue_is_empty p) (vertices p) (labels p) (global_to_local p)
    (sink_found p) (step_3_tid p) (pass p) (algorithm_complete p)
    (f (edge_queue p)) (debug_mode p) (outbox p) (stderr p) (stdout p).

Definition with_outbox (f : list sent -> list sent) (p : process) : process :=
  mk_process (mpi_rank p) (mpi_size p) (source_id p) (sink_id p)
    (working_threads p) (my_color p) (have_token p) (token_color p)
    (queue_is_empty p) (vertices p) (labels p) (global_to_local p)
    (sink_found p) (step_3_tid p) (pass p) (algorithm_complete p)
    (edge_queue p) (debug_mode p) (f (outbox p)) (stderr p) (stdout p).

Definition with_stderr (f : list string -> list string) (p : process)
  : process :=
  mk_process (mpi_rank p) (mpi_size p) (source_id p) (sink_id p)
    (working_threads p) (my_color p) (have_token p) (token_color p)
    (queue_is_empty p) (vertices p) (labels p) (global_to_local p)
    (sink_found p) (step_3_tid p) (pass p) (algorithm_complete p)
    (edge_queue p) (debug_mode p) (outbox p) (f (stderr p)) (stdout p).

Definition with_stdout (f : list string -> list string) (p : process)
  : process :=
  mk_process (mpi_rank p) (mpi_size p) (source_id p) (sink_id p)
    (working_threads p) (my_color p) (have_token p) (token_color p)
    (queue_is_empty p) (vertices p) (labels p) (global_to_local p)
    (sink_found p) (step_3_tid p) (pass p) (algorithm_complete p)
    (edge_queue p) (debug_mode p) (outbox p) (stderr p) (f (stdout p)).

(** ** The monad of the embedding *)

Definition M (A : Type) : Type := process -> option (A * process).

Definition ret {A} (a : A) : M A := fun p => Some (a, p).

Definition bind {A B} (m : M A) (k : A -> M B) : M B :=
  fun p => match m p with
           | Some (a, p') => k a p'
           | None => None
           end.

Notation "x <- m ;; k" := (bind m (fun x => k))
  (at level 100, m at next level, right associativity).
Notation "m ;;; k" := (bind m (fun _ => k))
  (at level 100, right associativity).

Definition gets {A} (f : process -> A) : M A := fun p => Some (f p, p).
Definition modify (f : process -> process) : M unit :=
  fun p => Some (tt, f p).
Definition undefined {A} : M A := fun _ => None.
Definition lift_option {A} (o : option A) : M A :=
  match o with Some a => ret a | None => undefined end.

(** [v[i]] on a [std::vector]: defined inside the bounds only. *)
Definition vec_at {A} (v : list A) (i : Z) : option A :=
  if bool_decide (0 <= i < Z.of_nat (length v)) then v !! Z.to_nat i
  else None.

Definition vec_set {A} (v : list A) (i : Z) (x : A) : list A :=
  <[Z.to_nat i := x]> v.

Definition vertex_at (i : local_id) : M vertex :=
  vs <- gets vertices;; lift_option (vec_at vs i).

Definition label_at (i : local_id) : M label :=
  ls <- gets labels;; lift_option (vec_at ls i).

(** Assignment through the reference [labels[i]]. *)
Definition update_label (i : local_id) (f : label -> label) : M unit :=
  l <- label_at i;; modify (with_labels (fun ls => vec_set ls i (f l))).

(** Assignment through the reference [vertices[i]]. *)
Definition update_vertex (i : local_id) (f : vertex -> vertex) : M unit :=
  v <- vertex_at i;; modify (with_vertices (fun vs => vec_set vs i (f v))).

(** [MPI_Ssend(buf, count, MPI_MESSAGE_TYPE, dest, tag, MPI_COMM_WORLD)] *)
Definition MPI_Ssend (pl : payload) (dest : Z) (tag : message_tags) : M unit :=
  modify (with_outbox (fun o => o ++ [mk_sent dest tag pl])).

(** The ERROR macro prints to stderr when DEBUG_MODE is defined and expands
    to nothing otherwise. *)
Definition ERROR (text : string) : M unit :=
  modify (fun p => if debug_mode p
                   then with_stderr (fun e => e ++ [text]) p else p).

(** [__sync_fetch_and_add] and [__sync_fetch_and_sub] on [working_threads] *)
Definition working_threads_add (n : Z) : M unit :=
  modify (with_working_threads (fun w => int_add w n)).
Definition working_threads_sub (n : Z) : M unit :=
  modify (with_working_threads (fun w => int_sub w n)).

(** [lookup_global_id]: the local index of a global id, [(local_id)-1] when the
    map has no entry. *)
Definition lookup_global_id (gid : global_id) : M local_id :=
  g <- gets global_to_local;;
  ret (match g !! gid with Some i => i | None => NO_LOCAL_ID end).

(** ** The edge queue *)

(** Modelled from the spec: [EdgeQueue] of data-structures.h, a first-in
    first-out queue with [push], [pop] and a bulk [merge_into] that splices
    one queue at the tail of another. *)
Definition EdgeQueue : Type := list edge_entry.

Definition EdgeQueue_push (q : EdgeQueue) (e : edge_entry) : EdgeQueue :=
  q ++ [e].

Definition EdgeQueue_pop (q : EdgeQueue) : option (edge_entry * EdgeQueue) :=
  match q with
  | [] => None
  | e :: q' => Some (e, q')
  end.

Definition EdgeQueue_merge_into (fragment target : EdgeQueue) : EdgeQueue :=
  target ++ fragment.

(** ** Labelling: [insert_edges] and [set_label] *)

(** The first [continue] of both loops of [insert_edges]: the far end is on
    this rank and already labelled.  [labels[vidx]] is read only when the
    rank test passes. *)
Definition already_labelled (rank : Z) (vidx : local_id) : M bool :=
  r <- gets mpi_rank;;
  if rank =? r then l <- label_at vidx;; ret (negb (value l =? 0))
  else ret false.

(** The second [continue]: the far end is the node we came from. *)
Definition came_from (vert_idx : local_id) (dest : global_id) : M bool :=
  l <- label_at vert_idx;; ret (dest =? prev_node l).

(** The first loop of [insert_edges], from index [i] on. *)
Fixpoint insert_out_edges (vert_idx : local_id) (i : Z) (es : list out_edge)
  (fragment : EdgeQueue) : M EdgeQueue :=
  match es with
  | [] => ret fragment
  | edge :: es' =>
      skip1 <- already_labelled (rank_location edge) (vert_index edge);;
      if skip1 then insert_out_edges vert_idx (i + 1) es' fragment
      else
        skip2 <- came_from vert_idx (dest_node_id edge);;
        if skip2 then insert_out_edges vert_idx (i + 1) es' fragment
        else insert_out_edges vert_idx (i + 1) es'
               (EdgeQueue_push fragment (mk_edge_entry vert_idx true i))
  end.

(** The second loop of [insert_edges]. *)
Fixpoint insert_in_edges (vert_idx : local_id) (i : Z) (es : list in_edge)
  (fragment : EdgeQueue) : M EdgeQueue :=
  match es with
  | [] => ret fragment
  | edge :: es' =>
      skip1 <- already_labelled (in_rank_location edge) (in_vert_index edge);;
      if skip1 then insert_in_edges vert_idx (i + 1) es' fragment
      else
        skip2 <- came_from vert_idx (in_dest_node_id edge);;
        if skip2 then insert_in_edges vert_idx (i + 1) es' fragment
        else insert_in_edges vert_idx (i + 1) es'
               (EdgeQueue_push fragment (mk_edge_entry vert_idx false i))
  end.

Definition insert_edges (vert_idx : local_id) (tid : Z) : M unit :=
  v <- vertex_at vert_idx;;
  fragment <- insert_out_edges vert_idx 0 (out_edges v) [];;
  fragment <- insert_in_edges vert_idx 0 (in_edges v) fragment;;
  modify (with_edge_queue (EdgeQueue_merge_into fragment)).

(** [__sync_bool_compare_and_swap(&labels[curr_idx].value, 0, value)] *)
Definition cas_label_value (curr_idx : local_id) (new_value : Z) : M bool :=
  l <- label_at curr_idx;;
  if value l =? 0 then
    update_label curr_idx (fun l =>
      mk_label new_value (prev_node l) (prev_rank_loc l) (prev_vert_index l));;;
    ret true
  else ret false.

Definition set_label (prev : global_id) (prev_rank : Z)
  (prev_idx curr_idx : local_id) (new_value : Z) (tid : Z) : M bool :=
  won <- cas_label_value curr_idx new_value;;
  if won then
    update_label curr_idx (fun l =>
      mk_label (value l) prev (prev_rank_loc l) (prev_vert_index l));;;
    update_label curr_idx (fun l =>
      mk_label (value l) (prev_node l) prev_rank (prev_vert_index l));;;
    update_label curr_idx (fun l =>
      mk_label (value l) (prev_node l) (prev_rank_loc l) prev_idx);;;
    v <- vertex_at curr_idx;;
    sink <- gets sink_id;;
    if id v =? sink then ret true
    else insert_edges curr_idx tid;;; ret false
  else ret false.

(** ** Step 2, worker side: [handle_out_edge] and [handle_in_edge] *)

Definition handle_out_edge (entry : edge_entry) (tid : Z) : M local_id :=
  let from_id := vertex_index entry in
  v <- vertex_at from_id;;
  edge <- lift_option (vec_at (out_edges v) (edge_index entry));;
  (* always compute label locally *)
  let flow_diff := int_sub (capacity edge) (flow edge) in
  if flow_diff <=? 0 then ret NO_LOCAL_ID (* discard edge *)
  else
    l <- label_at from_id;;
    let label_val := Z.min (int_abs (value l)) flow_diff in
    r <- gets mpi_rank;;
    if rank_location edge =? r then
      found <- set_label (id v) r from_id (vert_index edge) label_val tid;;
      if found then ret (vert_index edge) else ret NO_LOCAL_ID
    else
      ps <- gets pass;;
      let msg := mk_message_data (id v) (dest_node_id edge) label_val ps in
      (if rank_location edge <? r then modify (with_my_color TOKEN_RED)
       else ret tt);;;
      MPI_Ssend (MsgPayload msg) (rank_location edge) SET_TO_LABEL;;;
      ret NO_LOCAL_ID.

(** The search loop of [handle_in_edge]: the flow of the first outgoing edge
    whose local index is [to_id]; [curr_flow] keeps its initial value when
    there is none. *)
Fixpoint flow_by_vert_index (es : list out_edge) (to_id : local_id)
  (curr_flow : Z) : Z :=
  match es with
  | [] => curr_flow
  | e :: es' =>
      if vert_index e =? to_id then flow e
      else flow_by_vert_index es' to_id curr_flow
  end.

(** The search loop of the COMPUTE_FROM_LABEL handler: the same by global
    id. *)
Fixpoint flow_by_dest_node_id (es : list out_edge) (dest : global_id)
  (curr_flow : Z) : Z :=
  match es with
  | [] => curr_flow
  | e :: es' =>
      if dest_node_id e =? dest then flow e
      else flow_by_dest_node_id es' dest curr_flow
  end.

Definition handle_in_edge (entry : edge_entry) (tid : Z) : M local_id :=
  let to_id := vertex_index entry in
  v <- vertex_at to_id;;
  rev_edge <- lift_option (vec_at (in_edges v) (edge_index entry));;
  r <- gets mpi_rank;;
  if in_rank_location rev_edge =? r then
    let from_id := in_vert_index rev_edge in
    u <- vertex_at from_id;;
    let curr_flow := flow_by_vert_index (out_edges u) to_id (-1) in
    if curr_flow <=? 0 then ret NO_LOCAL_ID (* discard edge *)
    else
      l <- label_at to_id;;
      let label_val := int_neg (Z.min (int_abs (value l)) curr_flow) in
      found <- set_label (id v) r to_id from_id label_val tid;;
      if found then ERROR "outgoing edge from sink!";;; ret from_id
      else ret NO_LOCAL_ID
  else
    l <- label_at to_id;;
    ps <- gets pass;;
    let msg :=
      mk_message_data (id v) (in_dest_node_id rev_edge) (value l) ps in
    (if in_rank_location rev_edge <? r then modify (with_my_color TOKEN_RED)
     else ret tt);;;
    MPI_Ssend (MsgPayload msg) (in_rank_location rev_edge)
      COMPUTE_FROM_LABEL;;;
    ret NO_LOCAL_ID.

(** ** Step 2, router side: one received message *)

Inductive loop_ctl : Type :=
| LoopAgain     (* back to the test of the enclosing [while] *)
| ThreadReturn. (* [return NULL] *)

(** [__sync_val_compare_and_swap(&step_3_tid, -1, tid)]; the old value is
    returned. *)
Definition cas_step_3_tid (tid : Z) : M Z :=
  old <- gets step_3_tid;;
  (if old =? -1 then modify (with_step_3_tid tid) else ret tt);;;
  ret old.

(** What the thread that labelled the sink through a message does. *)
Definition claim_step_3 (tid : Z) : M unit :=
  old_val <- cas_step_3_tid tid;;
  (if old_val =? -1 then ret tt
   else ERROR "Thread set step_3_tid, but we have bt_idx!");;;
  modify (with_sink_found true).

(** [MPI_Allreduce(&empty, &result, 1, MPI_INT, MPI_SUM, MPI_COMM_WORLD)]:
    [peers] are the contributions of the other ranks. *)
Definition MPI_Allreduce_sum (mine : Z) (peers : list Z) : Z :=
  foldl int_add mine peers.

(** The Allreduce over [queue_is_empty] and what follows it; shared by the
    TOKEN_WHITE case on rank 0 and by the CHECK_TERMINATION case. *)
Definition check_termination (peers : list Z) : M loop_ctl :=
  qe <- gets queue_is_empty;;
  let empty := if qe : bool then 0 else 1 in
  let result := MPI_Allreduce_sum empty peers in
  if result =? 0 then
    working_threads_sub 1;;;
    modify (with_algorithm_complete true);;;
    ret ThreadReturn
  else ret LoopAgain.

Fixpoint send_check_termination (ranks : list Z) : M unit :=
  match ranks with
  | [] => ret tt
  | i :: ranks' =>
      MPI_Ssend NoPayload i CHECK_TERMINATION;;;
      send_check_termination ranks'
  end.

(** The body of thread 0's [while (!sink_found)] loop once [MPI_Recv] has
    returned [msg] with status ([stat_source], [stat_tag]).  [bt_idx] is the
    thread's local variable; its new value is returned with the control
    outcome.  [peers] feeds the Allreduce if the message starts one. *)
Definition router_step (tid : Z) (bt_idx : local_id)
  (stat_source stat_tag : Z) (msg : message_data) (peers : list Z)
  : M (loop_ctl * local_id) :=
  working_threads_add 1;;;
  match tag_of_int stat_tag with
  | Some SET_TO_LABEL =>
      vert_idx <- lookup_global_id (receivers_node msg);;
      if vert_idx =? NO_LOCAL_ID then
        ERROR "SET_TO_LABEL sent to wrong rank";;;
        working_threads_sub 1;;; ret (LoopAgain, bt_idx)
      else
        ps <- gets pass;;
        if negb (msg_pass msg =? ps) then
          ERROR "***** Got old message! *****";;;
          working_threads_sub 1;;; ret (LoopAgain, bt_idx)
        else
          found <- set_label (senders_node msg) stat_source NO_LOCAL_ID
                     vert_idx (msg_value msg) tid;;
          if found then
            claim_step_3 tid;;;
            working_threads_sub 1;;; ret (LoopAgain, vert_idx)
          else working_threads_sub 1;;; ret (LoopAgain, bt_idx)
  | Some COMPUTE_FROM_LABEL =>
      vert_idx <- lookup_global_id (receivers_node msg);;
      if vert_idx =? NO_LOCAL_ID then
        ERROR "COMPUTE_FROM_LABEL sent to wrong rank";;;
        working_threads_sub 1;;; ret (LoopAgain, bt_idx)
      else
        ps <- gets pass;;
        if negb (msg_pass msg =? ps) then
          ERROR "***** Got old message! *****";;;
          working_threads_sub 1;;; ret (LoopAgain, bt_idx)
        else
          v <- vertex_at vert_idx;;
          let curr_flow :=
            flow_by_dest_node_id (out_edges v) (senders_node msg) 0 in
          if curr_flow <=? 0 then
            working_threads_sub 1;;; ret (LoopAgain, bt_idx) (* discard *)
          else
            found <- set_label (senders_node msg) stat_source NO_LOCAL_ID
                       vert_idx
                       (int_neg (Z.min (int_abs (msg_value msg)) curr_flow))
                       tid;;
            if found then
              ERROR "outgoing edge from sink!";;;
              claim_step_3 tid;;;
              working_threads_sub 1;;; ret (LoopAgain, vert_idx)
            else working_threads_sub 1;;; ret (LoopAgain, bt_idx)
  | Some SINK_FOUND =>
      sz <- gets mpi_size;;
      (if sz >? 1 then
         _ <- cas_step_3_tid tid;; modify (with_sink_found true)
       else
         (* one rank: pending white tokens from ourselves are received and
            thrown away; they live in the transport, not in the globals *)
         modify (with_sink_found true));;;
      working_threads_sub 1;;; ret (LoopAgain, bt_idx)
  | Some ((TOKEN_WHITE | TOKEN_RED) as received) =>
      modify (with_token_color received);;;
      r <- gets mpi_rank;;
      ctl <- (if r =? 0 then
                tc <- gets token_color;;
                match tc with
                | TOKEN_WHITE =>
                    sz <- gets mpi_size;;
                    send_check_termination (seqZ 1 (sz - 1));;;
                    check_termination peers
                | _ =>
                    (* reset token color *)
                    modify (with_token_color TOKEN_WHITE);;; ret LoopAgain
                end
              else ret LoopAgain);;
      match ctl with
      | ThreadReturn => ret (ThreadReturn, bt_idx)
      | LoopAgain =>
          modify (with_have_token true);;;
          working_threads_sub 1;;; ret (LoopAgain, bt_idx)
      end
  | Some CHECK_TERMINATION =>
      ctl <- check_termination peers;;
      match ctl with
      | ThreadReturn => ret (ThreadReturn, bt_idx)
      | LoopAgain => working_threads_sub 1;;; ret (LoopAgain, bt_idx)
      end
  | _ =>
      ERROR ("got invalid tag in step 2: " +:+ tag2str stat_tag);;;
      working_threads_sub 1;;; ret (LoopAgain, bt_idx)
  end.

(** ** Step 2, worker side: the loop of the other threads *)

(** The body of the inner [while] of a worker, run when [pop] found the queue
    empty and neither [sink_found] nor [algorithm_complete] is set: the
    process-wide flag is raised and the token, if held, is passed on. *)
Definition worker_idle : M unit :=
  modify (with_queue_is_empty true);;;
  ht <- gets have_token;;
  wt <- gets working_threads;;
  sf <- gets sink_found;;
  if ht && (wt =? 0) && negb sf then
    mc <- gets my_color;;
    (match mc with
     | TOKEN_RED => modify (with_token_color TOKEN_RED)
     | _ => ret tt
     end);;;
    modify (with_have_token false);;;
    tc <- gets token_color;;
    r <- gets mpi_rank;;
    sz <- gets mpi_size;;
    MPI_Ssend NoPayload (Z.rem (r + 1) sz) tc;;;
    modify (with_my_color TOKEN_WHITE)
  else ret tt.

Inductive worker_ctl : Type :=
| WorkerSpin    (* still inside the inner [while], queue empty *)
| WorkerAgain   (* next iteration of [while (!sink_found)] *)
| WorkerBreak   (* [break]: on to the barrier that ends step 2 *)
| WorkerReturn. (* [return NULL] *)

(** From the exit of the inner [while] to the end of the loop body, with
    [entry] the thread's entry variable. *)
Definition worker_process (tid : Z) (bt_idx : local_id) (entry : edge_entry)
  : M (worker_ctl * local_id) :=
  ac <- gets algorithm_complete;;
  if ac : bool then ret (WorkerReturn, bt_idx)
  else
    working_threads_add 1;;;
    modify (with_queue_is_empty false);;;
    sf <- gets sink_found;;
    if sf : bool then working_threads_sub 1;;; ret (WorkerBreak, bt_idx)
    else
      bt <- (if is_outgoing entry then handle_out_edge entry tid
             else handle_in_edge entry tid);;
      if negb (bt =? NO_LOCAL_ID) then
        old_val <- cas_step_3_tid tid;;
        (if old_val =? -1 then ret tt
         else ERROR "Thread set step_3_tid, but we have bt_idx!");;;
        r <- gets mpi_rank;;
        MPI_Ssend NoPayload r SINK_FOUND;;;
        modify (with_sink_found true);;;
        working_threads_sub 1;;;
        ret (WorkerBreak, bt)
      else working_threads_sub 1;;; ret (WorkerAgain, bt).

(** One evaluation of the inner loop condition and what it leads to. *)
Definition worker_step (tid : Z) (bt_idx : local_id) (entry : edge_entry)
  : M (worker_ctl * local_id * edge_entry) :=
  q <- gets edge_queue;;
  match EdgeQueue_pop q with
  | Some (e, q') =>
      modify (with_edge_queue (fun _ => q'));;;
      res <- worker_process tid bt_idx e;;
      ret (res, e)
  | None =>
      sf <- gets sink_found;;
      ac <- gets algorithm_complete;;
      if negb sf && negb ac then
        worker_idle;;; ret (WorkerSpin, bt_idx, entry)
      else
        res <- worker_process tid bt_idx entry;;
        ret (res, entry)
  end.

(** ** Step 1 *)

Definition step_1 (tid : Z) : M unit :=
  if tid =? 0 then
    (* wipe previous labels *)
    modify (with_labels (fun ls => map (fun _ => EMPTY_LABEL) ls));;;
    (* setup globals *)
    modify (with_working_threads (fun _ => 0));;;
    modify (with_my_color TOKEN_WHITE);;;
    r <- gets mpi_rank;;
    modify (with_have_token (r =? 0));;;
    modify (with_token_color TOKEN_WHITE);;;
    modify (with_queue_is_empty false);;;
    modify (with_sink_found false);;;
    modify (with_step_3_tid (-1));;;
    (* empty out edge queue *)
    modify (with_edge_queue (fun _ => []));;;
    (* find source node *)
    src <- gets source_id;;
    i <- lookup_global_id src;;
    if negb (i =? NO_LOCAL_ID) then
      _ <- set_label src r i i INT_MAX tid;; ret tt
    else ret tt
  else ret tt.

(** ** Step 3: backtracking *)

(** [it->flow += delta] on every edge of the list that leads to [dest]. *)
Definition add_flow_towards (dest : global_id) (delta : Z)
  (es : list out_edge) : list out_edge :=
  map (fun e =>
         if dest_node_id e =? dest then
           mk_out_edge (dest_node_id e) (rank_location e) (vert_index e)
             (capacity e) (int_add (flow e) delta)
         else e) es.

(** [it->flow -= delta] on every edge of the list that leads to [dest]. *)
Definition sub_flow_towards (dest : global_id) (delta : Z)
  (es : list out_edge) : list out_edge :=
  map (fun e =>
         if dest_node_id e =? dest then
           mk_out_edge (dest_node_id e) (rank_location e) (vert_index e)
             (capacity e) (int_sub (flow e) delta)
         else e) es.

Definition with_out_edges (f : list out_edge -> list out_edge) (v : vertex)
  : vertex :=
  mk_vertex (id v) (f (out_edges v)) (in_edges v).

(** The local variables of the thread that runs step 3. *)
Record step_3_locals : Type := mk_step_3_locals {
  bt_idx : local_id;
  sink_value : Z;
  wait_for_source_found : bool;
  step_3_done : bool
}.

(** The branch [bt_idx != (local_id)-1] of the backtracking loop. *)
Definition step_3_local (loc : step_3_locals) : M step_3_locals :=
  let b := bt_idx loc in
  l <- label_at b;;
  r <- gets mpi_rank;;
  (if (value l >? 0) && (prev_rank_loc l =? r) then
     (* let f(y, x) += sink_value *)
     vb <- vertex_at b;;
     update_vertex (prev_vert_index l)
       (with_out_edges (add_flow_towards (id vb) (sink_value loc)))
   else if value l <? 0 then
     (* let f(x, y) -= sink_value *)
     update_vertex b
       (with_out_edges (sub_flow_towards (prev_node l) (sink_value loc)))
   else ret tt);;;
  if negb (prev_rank_loc l =? r) then
    (* previous node is remote, send an UPDATE_FLOW message *)
    vb <- vertex_at b;;
    ps <- gets pass;;
    MPI_Ssend
      (MsgPayload (mk_message_data (id vb) (prev_node l) (sink_value loc) ps))
      (prev_rank_loc l) UPDATE_FLOW;;;
    ret (mk_step_3_locals NO_LOCAL_ID (sink_value loc)
           (wait_for_source_found loc) (step_3_done loc))
  else
    src <- gets source_id;;
    if (b =? prev_vert_index l) && (prev_node l =? src) then
      (* source node was already processed, exit the loop *)
      sz <- gets mpi_size;;
      ret (mk_step_3_locals b (sink_value loc) (sz >? 1) true)
    else
      (* otherwise, keep following back-pointers *)
      ret (mk_step_3_locals (prev_vert_index l) (sink_value loc)
             (wait_for_source_found loc) (step_3_done loc)).

(** The branch [bt_idx == (local_id)-1]: one message received in step 3. *)
Definition step_3_recv (loc : step_3_locals) (stat_tag : Z)
  (msg : message_data) : M step_3_locals :=
  match tag_of_int stat_tag with
  | Some SOURCE_FOUND =>
      ret (mk_step_3_locals (bt_idx loc) (sink_value loc) false true)
  | Some UPDATE_FLOW =>
      let sink_value' := msg_value msg in
      vert_idx <- lookup_global_id (receivers_node msg);;
      update_vertex vert_idx
        (with_out_edges (add_flow_towards (senders_node msg) sink_value'));;;
      ret (mk_step_3_locals vert_idx sink_value'
             (wait_for_source_found loc) (step_3_done loc))
  | Some SET_TO_LABEL | Some COMPUTE_FROM_LABEL
  | Some TOKEN_WHITE | Some TOKEN_RED =>
      ret loc (* only a DEBUG line *)
  | _ =>
      ERROR ("got invalid message during step 3 with tag "
             +:+ tag2str stat_tag);;;
      ret loc
  end.

(** ** After the threads have joined: [calc_max_flow] and [main] *)

(** The line end written by [endl] and by the newline escape in a literal. *)
Definition endl : string := String (Ascii.ascii_of_nat 10) EmptyString.

(** The loop [total_flow += vertices[src_idx].out_edges[i].flow]. *)
Definition sum_flows (es : list out_edge) : Z :=
  foldl (fun total e => int_add total (flow e)) 0 es.

(** The part of [calc_max_flow] after [pthread_join].  [incoming] holds the
    TOTAL_FLOW messages addressed to this rank in their order of arrival; the
    inner [None] is a receive that never returns. *)
Definition calc_max_flow_tail (incoming : list Z) : M (option Z) :=
  modify (with_stdout (fun o => o ++ ["Calculation complete!" +:+ endl]));;;
  src <- gets source_id;;
  src_idx <- lookup_global_id src;;
  total_flow <- (if negb (src_idx =? NO_LOCAL_ID) then
                   v <- vertex_at src_idx;; ret (sum_flows (out_edges v))
                 else ret (-1));;
  r <- gets mpi_rank;;
  if r =? 0 then
    if total_flow =? -1 then
      (* need to receive the total flow from another node *)
      ret (head incoming)
    else ret (Some total_flow)
  else
    if negb (total_flow =? -1) then
      MPI_Ssend (IntPayload total_flow) 0 TOTAL_FLOW;;;
      ret (Some (-1))
    else ret (Some total_flow).

(** The end of [main]: what is printed once [calc_max_flow] has returned
    [max_flow].  [runtime] is the text of the measured time. *)
Definition main_report (max_flow : Z) (runtime : string) : M unit :=
  r <- gets mpi_rank;;
  if r =? 0 then
    modify (with_stdout (fun o =>
      o ++ [endl +:+ "Max flow: " +:+ pretty max_flow +:+ endl;
            "Runtime: " +:+ runtime +:+ endl]))
  else ret tt.

(** ** Loading: from the adjacency lists to the local partition *)

(** The vertices [read_file] builds on rank 0 from the lines of the input
    file after the header: line [i] is the list of the [(dest, capacity)]
    pairs of vertex [i]. *)
Definition add_in_edge (src dest : global_id) (vs : list vertex)
  : list vertex :=
  match vec_at vs dest with
  | Some v =>
      vec_set vs dest
        (mk_vertex (id v) (out_edges v)
           (in_edges v ++ [mk_in_edge src 0 NO_LOCAL_ID]))
  | None => vs
  end.

Definition add_out_edge (src dest : global_id) (cap : Z) (vs : list vertex)
  : list vertex :=
  match vec_at vs src with
  | Some v =>
      vec_set vs src
        (mk_vertex (id v)
           (out_edges v ++ [mk_out_edge dest 0 NO_LOCAL_ID cap 0])
           (in_edges v))
  | None => vs
  end.

Fixpoint read_line (curr_index : global_id) (pairs : list (Z * Z))
  (vs : list vertex) : list vertex :=
  match pairs with
  | [] => vs
  | (connected_vertex, cap) :: pairs' =>
      read_line curr_index pairs'
        (add_in_edge curr_index connected_vertex
           (add_out_edge curr_index connected_vertex cap vs))
  end.

Fixpoint read_lines (curr_index : global_id) (lines : list (list (Z * Z)))
  (vs : list vertex) : list vertex :=
  match lines with
  | [] => vs
  | line :: lines' =>
      read_lines (curr_index + 1) lines' (read_line curr_index line vs)
  end.

Definition read_file (num_vertices : Z) (lines : list (list (Z * Z)))
  : list vertex :=
  read_lines 0 lines
    (map (fun i => mk_vertex i [] []) (seqZ 0 num_vertices)).

(** The loops of [main] that follow the partitioning: the map from global to
    local ids, then the rank and local index of the far end of every edge.
    [global_id_to_rank] is the table broadcast by rank 0. *)
Definition build_global_to_local (vs : list vertex) : gmap Z Z :=
  foldl (fun g iv => <[id (snd iv) := fst iv]> g) ∅
    (zip (seqZ 0 (Z.of_nat (length vs))) vs).

Definition rank_of (global_id_to_rank : list Z) (gid : global_id) : Z :=
  default 0 (vec_at global_id_to_rank gid).

Definition localize_out_edge (global_id_to_rank : list Z) (rank : Z)
  (g : gmap Z Z) (e : out_edge) : out_edge :=
  let loc := rank_of global_id_to_rank (dest_node_id e) in
  mk_out_edge (dest_node_id e) loc
    (if loc =? rank then default 0 (g !! dest_node_id e) else vert_index e)
    (capacity e) (flow e).

Definition localize_in_edge (global_id_to_rank : list Z) (rank : Z)
  (g : gmap Z Z) (e : in_edge) : in_edge :=
  let loc := rank_of global_id_to_rank (in_dest_node_id e) in
  mk_in_edge (in_dest_node_id e) loc
    (if loc =? rank then default 0 (g !! in_dest_node_id e)
     else in_vert_index e).

(** The globals of rank [rank] of [size] when the threads are spawned.  The
    vertices a rank keeps are those the table assigns to it, here in the order
    of their ids. *)
Definition initial_process (rank size : Z) (debug : bool)
  (global_id_to_rank : list Z) (num_vertices : Z)
  (lines : list (list (Z * Z))) : process :=
  let mine :=
    filter (fun v => rank_of global_id_to_rank (id v) = rank)
      (read_file num_vertices lines) in
  let g := build_global_to_local mine in
  let vs :=
    map (fun v =>
           mk_vertex (id v)
             (map (localize_out_edge global_id_to_rank rank g) (out_edges v))
             (map (localize_in_edge global_id_to_rank rank g) (in_edges v)))
      mine in
  mk_process rank size 0 (num_vertices - 1) 0 TOKEN_WHITE false TOKEN_WHITE
    false vs (map (fun _ => EMPTY_LABEL) vs) g false (-1) 1 false []
    debug [] [] [].

(** ** One rank, one worker: the whole run *)

(** With [mpi_size = 1] and two threads the run is sequential: the worker
    (thread 1) pops and processes entries, and every message it sends goes to
    its own rank, where thread 0 services it before the worker goes on.  The
    inner [None] of the results below means that the fuel ran out. *)

Definition self_messages (before : nat) : M (list sent) :=
  o <- gets outbox;;
  r <- gets mpi_rank;;
  ret (filter (fun m => sent_dest m = r) (drop before o)).

Fixpoint route_to_self (ms : list sent) : M loop_ctl :=
  match ms with
  | [] => ret LoopAgain
  | m :: ms' =>
      r <- gets mpi_rank;;
      res <- router_step 0 NO_LOCAL_ID r (int_of_tag (sent_tag m))
               (mk_message_data 0 0 0 0) [];;
      match fst res with
      | ThreadReturn => ret ThreadReturn
      | LoopAgain => route_to_self ms'
      end
  end.

Fixpoint step_2_single (fuel : nat) (tid : Z) (bt : local_id)
  (entry : edge_entry) : M (option (worker_ctl * local_id)) :=
  match fuel with
  | O => ret None
  | S fuel' =>
      before <- gets (fun p => length (outbox p));;
      res <- worker_step tid bt entry;;
      ms <- self_messages before;;
      routed <- route_to_self ms;;
      match res with
      | (WorkerAgain, bt', entry') => step_2_single fuel' tid bt' entry'
      | (WorkerSpin, bt', entry') =>
          match routed with
          | ThreadReturn => ret (Some (WorkerReturn, bt'))
          | LoopAgain => step_2_single fuel' tid bt' entry'
          end
      | (ctl, bt', _) => ret (Some (ctl, bt'))
      end
  end.

Fixpoint step_3_single (fuel : nat) (loc : step_3_locals)
  : M (option step_3_locals) :=
  match fuel with
  | O => ret None
  | S fuel' =>
      if step_3_done loc then ret (Some loc)
      else if bt_idx loc =? NO_LOCAL_ID then ret None (* blocked in MPI_Recv *)
      else loc' <- step_3_local loc;; step_3_single fuel' loc'
  end.

Inductive pass_result : Type :=
| PassAugmented
| PassComplete.

Definition single_pass (fuel : nat) : M (option pass_result) :=
  step_1 0;;;
  res <- step_2_single fuel 1 NO_LOCAL_ID (mk_edge_entry 0 false 0);;
  match res with
  | None => ret None
  | Some (WorkerReturn, _) => ret (Some PassComplete)
  | Some (_, bt) =>
      l <- label_at bt;;
      done <- step_3_single fuel (mk_step_3_locals bt (value l) false false);;
      match done with
      | None => ret None
      | Some _ =>
          modify (with_pass (fun n => int_add n 1));;;
          ret (Some PassAugmented)
      end
  end.

Fixpoint run_algorithm_single (passes fuel : nat) : M (option unit) :=
  match passes with
  | O => ret None
  | S passes' =>
      res <- single_pass fuel;;
      match res with
      | None => ret None
      | Some PassComplete => ret (Some tt)
      | Some PassAugmented => run_algorithm_single passes' fuel
      end
  end.

(** The whole program on one rank: the standard output it leaves. *)
Definition main_single (passes fuel : nat) (num_vertices : Z)
  (lines : list (list (Z * Z))) : option (list string) :=
  let p :=
    initial_process 0 1 false (map (fun _ => 0) (seqZ 0 num_vertices))
      num_vertices lines in
  match (ran <- run_algorithm_single passes fuel;;
         match ran with
         | None => ret None
         | Some _ =>
             total <- calc_max_flow_tail [];;
             match total with
             | None => ret None
             | Some max_flow =>
                 main_report max_flow "";;; ret (Some tt)
             end
         end) p with
  | Some (Some _, p') => Some (stdout p')
  | _ => None
  end.

(** ** Readings of the specification *)

(** The far end of an edge is a locally owned vertex that already carries a
    non-zero label. *)
Definition far_end_labelled (p : process) (rank : Z) (vidx : local_id)
  : bool :=
  (rank =? mpi_rank p)
  && match vec_at (labels p) vidx with
     | Some l => negb (value l =? 0)
     | None => false
     end.

(** An edge with far end ([dest], [rank], [vidx]) is enqueued for a vertex
    whose recorded predecessor is [prev]. *)
Definition enqueued (p : process) (prev dest : global_id) (rank : Z)
  (vidx : local_id) : bool :=
  negb (far_end_labelled p rank vidx) && negb (dest =? prev).

(** The elements of a vector paired with their indices, from [i] on. *)
Fixpoint indexed_from {A} (i : Z) (l : list A) : list (Z * A) :=
  match l with
  | [] => []
  | x :: l' => (i, x) :: indexed_from (i + 1) l'
  end.

(** What the specification has [insert_edges] append to the queue for the
    newly labelled vertex [v] at [vert_idx]: the kept outgoing edges, then the
    kept incoming ones, each list in the order of the edge table. *)
Definition insert_edges_spec (p : process) (vert_idx : local_id) (v : vertex)
  (prev : global_id) : EdgeQueue :=
  map (fun ie => mk_edge_entry vert_idx true (fst ie))
    (List.filter
       (fun ie => enqueued p prev (dest_node_id (snd ie))
                    (rank_location (snd ie)) (vert_index (snd ie)))
       (indexed_from 0 (out_edges v)))
  ++ map (fun ie => mk_edge_entry vert_idx false (fst ie))
       (List.filter
          (fun ie => enqueued p prev (in_dest_node_id (snd ie))
                       (in_rank_location (snd ie)) (in_vert_index (snd ie)))
          (indexed_from 0 (in_edges v))).

(** Every edge of [v] whose far end is on this rank points to a label slot. *)
Definition local_ends_in_range (p : process) (v : vertex) : Prop :=
  Forall (fun e => rank_location e = mpi_rank p ->
                   is_Some (vec_at (labels p) (vert_index e))) (out_edges v)
  /\ Forall (fun e => in_rank_location e = mpi_rank p ->
                      is_Some (vec_at (labels p) (in_vert_index e)))
       (in_edges v).

(** The state right after the winner of the compare-and-swap has filled the
    slot [curr_idx]. *)
Definition labelled_with (curr_idx : local_id) (l : label) (p : process)
  : process :=
  with_labels (fun ls => vec_set ls curr_idx l) p.

(** The globals as thread 0 leaves them in step 1, before it looks for the
    source. *)
Definition step_1_reset (p : process) : process :=
  with_edge_queue (fun _ => [])
    (with_step_3_tid (-1)
       (with_sink_found false
          (with_queue_is_empty false
             (with_token_color TOKEN_WHITE
                (with_have_token (mpi_rank p =? 0)
                   (with_my_color TOKEN_WHITE
                      (with_working_threads (fun _ => 0)
                         (with_labels (fun ls => map (fun _ => EMPTY_LABEL) ls)
                            p)))))))).

(** ** [set_label] called from several threads *)

(** The worker threads and the router call [set_label] concurrently; only the
    compare-and-swap is atomic.  A caller is described by its arguments and by
    the statement of [set_label] it has reached; a step of the pool is one
    statement of one caller.  [insert_edges] is taken as one step: its queue
    update happens under [t_lock]. *)
Record label_call : Type := mk_label_call {
  call_prev : global_id;
  call_prev_rank : Z;
  call_prev_idx : local_id;
  call_curr_idx : local_id;
  call_value : Z;
  call_tid : Z
}.

Inductive label_pc : Type :=
| AtCas          (* before the compare-and-swap *)
| AtPrevNode     (* before [labels[curr_idx].prev_node = prev_node] *)
| AtPrevRank     (* before [labels[curr_idx].prev_rank_loc = prev_rank] *)
| AtPrevIndex    (* before [labels[curr_idx].prev_vert_index = prev_idx] *)
| AtSinkTest     (* before [vertices[curr_idx].id == sink_id] *)
| AtInsertEdges  (* before [insert_edges(curr_idx, tid)] *)
| Returned (result : bool).

Inductive label_event : Type :=
| CasWon (idx : local_id)
| CasLost (idx : local_id)
| WroteBackPointer (idx : local_id)
| TestedSink (idx : local_id)
| Enqueued (idx : local_id).

Definition label_thread_step (c : label_call) (pc : label_pc)
  : M (label_pc * label_event) :=
  let idx := call_curr_idx c in
  match pc with
  | AtCas =>
      won <- cas_label_value idx (call_value c);;
      if won : bool then ret (AtPrevNode, CasWon idx)
      else ret (Returned false, CasLost idx)
  | AtPrevNode =>
      update_label idx (fun l =>
        mk_label (value l) (call_prev c) (prev_rank_loc l)
          (prev_vert_index l));;;
      ret (AtPrevRank, WroteBackPointer idx)
  | AtPrevRank =>
      update_label idx (fun l =>
        mk_label (value l) (prev_node l) (call_prev_rank c)
          (prev_vert_index l));;;
      ret (AtPrevIndex, WroteBackPointer idx)
  | AtPrevIndex =>
      update_label idx (fun l =>
        mk_label (value l) (prev_node l) (prev_rank_loc l)
          (call_prev_idx c));;;
      ret (AtSinkTest, WroteBackPointer idx)
  | AtSinkTest =>
      v <- vertex_at idx;;
      sink <- gets sink_id;;
      if id v =? sink then ret (Returned true, TestedSink idx)
      else ret (AtInsertEdges, TestedSink idx)
  | AtInsertEdges =>
      insert_edges idx (call_tid c);;;
      ret (Returned false, Enqueued idx)
  | Returned _ => undefined
  end.

(** One caller run alone from [pc] until it returns. *)
Fixpoint label_thread_run (fuel : nat) (c : label_call) (pc : label_pc)
  : M bool :=
  match pc, fuel with
  | Returned result, _ => ret result
  | _, O => undefined
  | _, S fuel' =>
      next <- label_thread_step c pc;;
      label_thread_run fuel' c (fst next)
  end.

Abbreviation label_pool := (list (label_call * label_pc)).

Inductive pool_step
  : process * label_pool -> nat * label_event -> process * label_pool -> Prop :=
| pool_step_thread (p p' : process) (pool : label_pool) (t : nat)
    (c : label_call) (pc pc' : label_pc) (ev : label_event) :
    pool !! t = Some (c, pc) ->
    label_thread_step c pc p = Some ((pc', ev), p') ->
    pool_step (p, pool) (t, ev) (p', <[t := (c, pc')]> pool).

(** Runs of the pool, with the events in the order they happen. *)
Inductive pool_run
  : process * label_pool -> list (nat * label_event) ->
    process * label_pool -> Prop :=
| pool_run_nil (s : process * label_pool) : pool_run s [] s
| pool_run_snoc (s s' s'' : process * label_pool)
    (tr : list (nat * label_event)) (ev : nat * label_event) :
    pool_run s tr s' -> pool_step s' ev s'' -> pool_run s (tr ++ [ev]) s''.

Definition start_pool (calls : list label_call) : label_pool :=
  (fun c => (c, AtCas)) <$> calls.

(** An event that writes a back-pointer of the slot or enqueues its edges. *)
Definition fills_slot (ev : label_event) (idx : local_id) : Prop :=
  ev = WroteBackPointer idx \/ ev = Enqueued idx.

Definition cas_wins (idx : local_id) (tr : list (nat * label_event)) : nat :=
  length (List.filter
            (fun e => match snd e with
                      | CasWon j => j =? idx
                      | _ => false
                      end) tr).

Definition slot_value (p : process) (idx : local_id) : option Z :=
  value <$> vec_at (labels p) idx.

(** The caller has won the compare-and-swap and not yet returned. *)
Definition past_cas (pc : label_pc) : bool :=
  match pc with
  | AtCas | Returned _ => false
  | _ => true
  end.

(** What holds of every run of a pool started before any compare-and-swap. *)
Record pool_invariant (calls : list label_call) (p0 : process)
  (tr : list (nat * label_event)) (p : process) (pool : label_pool)
  : Prop := mk_pool_invariant {
  inv_calls : fst <$> pool = calls;
  inv_wins : forall idx,
    (cas_wins idx tr <= 1)%nat
    /\ (cas_wins idx tr = 1%nat ->
        exists v, slot_value p idx = Some v /\ v <> 0);
  inv_set : forall idx v,
    slot_value p0 idx = Some v -> v <> 0 ->
    cas_wins idx tr = 0%nat /\ vec_at (labels p) idx = vec_at (labels p0) idx;
  inv_past_cas : forall t c pc,
    pool !! t = Some (c, pc) -> past_cas pc = true ->
    In (t, CasWon (call_curr_idx c)) tr;
  inv_at_cas : forall t c ev,
    pool !! t = Some (c, AtCas) -> ~ In (t, ev) tr;
  inv_lost : forall t idx,
    In (t, CasLost idx) tr -> exists c, pool !! t = Some (c, Returned false);
  inv_event_idx : forall t ev c pc,
    In (t, ev) tr -> pool !! t = Some (c, pc) ->
    match ev with
    | CasWon i | CasLost i | WroteBackPointer i | TestedSink i | Enqueued i =>
        i = call_curr_idx c
    end;
  inv_fills : forall tr1 t ev tr2 idx,
    tr = tr1 ++ (t, ev) :: tr2 -> fills_slot ev idx ->
    In (t, CasWon idx) tr1;
  inv_lost_alone : forall tr1 t idx tr2,
    tr = tr1 ++ (t, CasLost idx) :: tr2 ->
    forall ev, ~ In (t, ev) (tr1 ++ tr2)
}.

(** A run of the pool under a given schedule: the thread that takes each
    step. *)
Fixpoint pool_exec (schedule : list nat) (s : process * label_pool)
  (tr : list (nat * label_event))
  : option (list (nat * label_event) * (process * label_pool)) :=
  match schedule with
  | [] => Some (tr, s)
  | t :: schedule' =>
      match snd s !! t with
      | Some (c, pc) =>
          match label_thread_step c pc (fst s) with
          | Some ((pc', ev), p') =>
              pool_exec schedule' (p', <[t := (c, pc')]> (snd s))
                (tr ++ [(t, ev)])
          | None => None
          end
      | None => None
      end
  end.

(** The globals once a worker has counted itself in and lowered
    [queue_is_empty], right before it processes its entry. *)
Definition entered_work (p : process) : process :=
  with_queue_is_empty false
    (with_working_threads (fun w => int_add w 1) p).

(** The message [handle_out_edge] sends for a remote far end. *)
Definition set_to_label_message (p : process) (v : vertex) (edge : out_edge)
  (proposed : Z) : sent :=
  mk_sent (rank_location edge) SET_TO_LABEL
    (MsgPayload
       (mk_message_data (id v) (dest_node_id edge) proposed (pass p))).

(** The message [handle_in_edge] sends for a remote far end. *)
Definition compute_from_label_message (p : process) (v : vertex)
  (rev_edge : in_edge) (l : label) : sent :=
  mk_sent (in_rank_location rev_edge) COMPUTE_FROM_LABEL
    (MsgPayload
       (mk_message_data (id v) (in_dest_node_id rev_edge) (value l)
          (pass p))).

(** The colour update that precedes a send to [dest]. *)
Definition coloured_for (dest : Z) (p : process) : process :=
  if dest <? mpi_rank p then with_my_color TOKEN_RED p else p.

(** The globals while the router services a message: it has counted itself
    in. *)
Definition router_busy (p : process) : process :=
  with_working_threads (fun w => int_add w 1) p.

(** ... and once it has counted itself out again. *)
Definition router_idle (p : process) : process :=
  with_working_threads (fun w => int_sub w 1) p.

(** ** Sample states *)

(** Rank 0 of one, mid-pass: the edge 0 -> 1 carries 3 of 4 units, vertex 1
    is labelled 7 and vertex 0 is not labelled yet. *)
Definition sample_backflow : process :=
  mk_process 0 1 9 5 1 TOKEN_WHITE true TOKEN_WHITE false
    [mk_vertex 0 [mk_out_edge 1 0 1 4 3] [];
     mk_vertex 1 [] [mk_in_edge 0 0 0]]
    [EMPTY_LABEL; mk_label 7 8 0 2]
    (<[0 := 0]> (<[1 := 1]> ∅)) false (-1) 1 false [] false [] [] [].

(** The globals with the label table and the queue replaced. *)
Definition relabelled (ls : list label) (q : EdgeQueue) (p : process)
  : process :=
  with_edge_queue (fun _ => q) (with_labels (fun _ => ls) p).

(** The messages a computation has added to the outbox. *)
Definition newly_sent (p p' : process) : list sent :=
  drop (length (outbox p)) (outbox p').

(** The colour rule as the specification words it, for one computation run
    from [p]: if it ends having sent a message to a lower rank, the colour of
    the process is red. *)
Definition red_after_sending_down {A} (m : M A) (p : process) : Prop :=
  forall (a : A) (p' : process),
    m p = Some (a, p') ->
    (exists s : sent, In s (newly_sent p p') /\ sent_dest s < mpi_rank p) ->
    my_color p' = TOKEN_RED.

(** The last rank of two holds a red token, is red itself, and has run out
    of work. *)
Definition sample_last_rank : process :=
  mk_process 1 2 0 3 0 TOKEN_RED true TOKEN_RED false
    [mk_vertex 2 [mk_out_edge 3 1 1 3 0] [mk_in_edge 0 0 NO_LOCAL_ID];
     mk_vertex 3 [] [mk_in_edge 2 1 0]]
    [mk_label 2 0 0 NO_LOCAL_ID; EMPTY_LABEL]
    (<[2 := 0]> (<[3 := 1]> ∅)) false (-1) 1 false [] false [] [] [].

(** What a handler of the worker may have sent, and the colour it leaves. *)
Definition sent_at_most (tag : message_tags) (p p' : process) : Prop :=
  (newly_sent p p' = [] /\ my_color p' = my_color p)
  \/ exists s : sent,
       newly_sent p p' = [s] /\ sent_tag s = tag
       /\ sent_dest s <> mpi_rank p
       /\ my_color p' =
          if sent_dest s <? mpi_rank p then TOKEN_RED else my_color p.

(** ** Flows, edge by edge *)

Definition edge_in (vs : list vertex) (vi : local_id) (ei : nat)
  : option out_edge :=
  match vec_at vs vi with
  | Some v => out_edges v !! ei
  | None => None
  end.

Definition edge_at (p : process) (vi : local_id) (ei : nat)
  : option out_edge :=
  edge_in (vertices p) vi ei.

Definition flow_at (p : process) (vi : local_id) (ei : nat) : option Z :=
  flow <$> edge_at p vi ei.

Definition with_flow (f : Z) (e : out_edge) : out_edge :=
  mk_out_edge (dest_node_id e) (rank_location e) (vert_index e) (capacity e)
    f.

(** The step of the specification: exactly one edge has a new flow. *)
Definition exactly_one_flow_update (p p' : process) : Prop :=
  exists (vi : local_id) (ei : nat),
    flow_at p' vi ei <> flow_at p vi ei
    /\ forall (vj : local_id) (ej : nat),
         flow_at p' vj ej <> flow_at p vj ej -> vj = vi /\ ej = ei.

(** The edge tables after the visit of [b], whose label is [l] and whose
    vertex is [vb], with increment [delta]. *)
Definition backtrack_vertices (p : process) (b : local_id) (l : label)
  (vb : vertex) (delta : Z) : list vertex :=
  if (value l >? 0) && (prev_rank_loc l =? mpi_rank p) then
    match vec_at (vertices p) (prev_vert_index l) with
    | Some y =>
        vec_set (vertices p) (prev_vert_index l)
          (with_out_edges (add_flow_towards (id vb) delta) y)
    | None => vertices p
    end
  else if value l <? 0 then
    vec_set (vertices p) b
      (with_out_edges (sub_flow_towards (prev_node l) delta) vb)
  else vertices p.

(** The locals of the backtracking thread after the visit. *)
Definition step_3_next (p : process) (loc : step_3_locals) (l : label)
  : step_3_locals :=
  if negb (prev_rank_loc l =? mpi_rank p) then
    mk_step_3_locals NO_LOCAL_ID (sink_value loc)
      (wait_for_source_found loc) (step_3_done loc)
  else if (bt_idx loc =? prev_vert_index l) && (prev_node l =? source_id p)
  then mk_step_3_locals (bt_idx loc) (sink_value loc) (mpi_size p >? 1) true
  else mk_step_3_locals (prev_vert_index l) (sink_value loc)
         (wait_for_source_found loc) (step_3_done loc).

Definition update_flow_message (p : process) (vb : vertex) (l : label)
  (delta : Z) : sent :=
  mk_sent (prev_rank_loc l) UPDATE_FLOW
    (MsgPayload (mk_message_data (id vb) (prev_node l) delta (pass p))).

(** The state after a backtracking step at the source of the single-edge
    graph 0 -> 1 (capacity 5): both labels are set, the edge already carries
    the 5 units of the path. *)
Definition sample_at_source : process :=
  mk_process 0 1 0 1 1 TOKEN_WHITE true TOKEN_WHITE false
    [mk_vertex 0 [mk_out_edge 1 0 1 5 5] [];
     mk_vertex 1 [] [mk_in_edge 0 0 0]]
    [mk_label INT_MAX 0 0 0; mk_label 5 0 0 0]
    (<[0 := 0]> (<[1 := 1]> ∅)) true 1 1 false [] false
    [mk_sent 0 SINK_FOUND NoPayload] [] [].

(** The same graph when the backtrack starts at the sink: no flow yet. *)
Definition sample_at_sink : process :=
  mk_process 0 1 0 1 1 TOKEN_WHITE true TOKEN_WHITE false
    [mk_vertex 0 [mk_out_edge 1 0 1 5 0] [];
     mk_vertex 1 [] [mk_in_edge 0 0 0]]
    [mk_label INT_MAX 0 0 0; mk_label 5 0 0 0]
    (<[0 := 0]> (<[1 := 1]> ∅)) true 1 1 false [] false
    [mk_sent 0 SINK_FOUND NoPayload] [] [].

(** A message was dropped: labels, edge tables, queue and the counter of
    working threads are what they were. *)
Definition dropped (p p' : process) : Prop :=
  labels p' = labels p /\ vertices p' = vertices p
  /\ edge_queue p' = edge_queue p
  /\ working_threads p' = working_threads p.

(** Rank 0 of two in pass 3, waiting in step 3: its vertex 0 has an edge to
    vertex 2 on rank 1. *)
Definition sample_step_3_receiver : process :=
  mk_process 0 2 0 3 0 TOKEN_WHITE false TOKEN_WHITE true
    [mk_vertex 0 [mk_out_edge 2 1 NO_LOCAL_ID 5 0] []]
    [mk_label INT_MAX 0 0 0]
    (<[0 := 0]> ∅) true 0 3 false [] false [] [] [].

(** ** What a computation keeps *)

(** Every run of [m] relates the state before to the state after by [R]. *)
Definition preserves {A} (R : process -> process -> Prop) (m : M A) : Prop :=
  forall (p : process) (a : A) (p' : process), m p = Some (a, p') -> R p p'.

(** The part of the globals that the labelling search (step 2) only reads:
    the configuration, the edge tables with their flows, the id map and the
    pass number.  The label table keeps its size and the outbox only
    grows. *)
Record same_graph (p p' : process) : Prop := mk_same_graph {
  sg_rank : mpi_rank p' = mpi_rank p;
  sg_size : mpi_size p' = mpi_size p;
  sg_source : source_id p' = source_id p;
  sg_sink : sink_id p' = sink_id p;
  sg_vertices : vertices p' = vertices p;
  sg_map : global_to_local p' = global_to_local p;
  sg_pass : pass p' = pass p;
  sg_debug : debug_mode p' = debug_mode p;
  sg_stdout : stdout p' = stdout p;
  sg_labels : length (labels p') = length (labels p);
  sg_outbox : exists more : list sent, outbox p' = outbox p ++ more
}.

(** ** Termination detection *)

(** The contribution of a process to the Allreduce. *)
Definition empty_flag (p : process) : Z :=
  if queue_is_empty p then 0 else 1.

(** The probes rank 0 sends out on a white token. *)
Definition check_termination_messages (p : process) : list sent :=
  (fun i => mk_sent i CHECK_TERMINATION NoPayload) <$> seqZ 1 (mpi_size p - 1).

(** The globals of the router after the Allreduce returned [result], starting
    from [p] with the router counted in. *)
Definition after_allreduce (result : Z) (p : process) : process :=
  if result =? 0 then with_algorithm_complete true (router_idle p) else p.

(** Every edge names a rank that exists: ranks are not negative. *)
Definition ranks_nonneg (p : process) : Prop :=
  Forall (fun v => Forall (fun e => 0 <= rank_location e) (out_edges v)
                   /\ Forall (fun e => 0 <= in_rank_location e) (in_edges v))
    (vertices p).

(** Rank 0, white, holding or awaiting a white token. *)
Definition rank_0_white (p : process) : Prop :=
  mpi_rank p = 0 /\ my_color p = TOKEN_WHITE /\ token_color p = TOKEN_WHITE
  /\ ranks_nonneg p.

(** A computation that, run on a white rank 0, leaves it white and emits no
    red token. *)
Definition keeps_rank_0_white (p p' : process) : Prop :=
  same_graph p p'
  /\ (rank_0_white p ->
      my_color p' = TOKEN_WHITE /\ token_color p' = TOKEN_WHITE
      /\ Forall (fun s => sent_tag s <> TOKEN_RED) (newly_sent p p')).

(** What the threads of a process do during step 2, one action at a time. *)
Inductive step_2_action : Type :=
| WorkerStep (tid : Z) (bt : local_id) (entry : edge_entry)
| RouterStep (tid : Z) (bt : local_id) (stat_source stat_tag : Z)
    (msg : message_data) (peers : list Z).

Definition do_action (a : step_2_action) : M unit :=
  match a with
  | WorkerStep tid bt entry => _ <- worker_step tid bt entry;; ret tt
  | RouterStep tid bt stat_source stat_tag msg peers =>
      _ <- router_step tid bt stat_source stat_tag msg peers;; ret tt
  end.

Fixpoint do_actions (actions : list step_2_action) : M unit :=
  match actions with
  | [] => ret tt
  | a :: actions' => do_action a;;; do_actions actions'
  end.

(** The list without its element at position [i]. *)
Definition others {A} (l : list A) (i : nat) : list A :=
  take i l ++ drop (S i) l.

(** One termination check across the processes [ps], listed by rank: rank 0
    services the white token, every other rank the CHECK_TERMINATION message
    rank 0 sends it, and all take part in the Allreduce. *)
Definition termination_round (ps : list process)
  : list (option (loop_ctl * local_id * process)) :=
  imap (fun i p =>
          router_step 0 NO_LOCAL_ID 0
            (int_of_tag (match i with
                         | O => TOKEN_WHITE
                         | S _ => CHECK_TERMINATION
                         end))
            (mk_message_data 0 0 0 0) (empty_flag <$> others ps i) p) ps.

Definition cluster_numbered (ps : list process) : Prop :=
  forall (i : nat) (p : process),
    ps !! i = Some p ->
    mpi_rank p = Z.of_nat i /\ mpi_size p = Z.of_nat (length ps).

Definition all_queues_empty (ps : list process) : Prop :=
  Forall (fun p => queue_is_empty p = true) ps.

(** ** The end of the program *)

(** [calc_max_flow] after the threads have joined, then the report at the end
    of [main]. *)
Definition finish (incoming : list Z) (runtime : string) : M (option Z) :=
  total <- calc_max_flow_tail incoming;;
  match total with
  | None => ret None
  | Some max_flow => main_report max_flow runtime;;; ret (Some max_flow)
  end.

(** The TOTAL_FLOW values among a list of sent messages that go to rank 0. *)
Definition total_flow_messages (o : list sent) : list Z :=
  omap (fun s =>
          match sent_tag s, sent_payload s with
          | TOTAL_FLOW, IntPayload z =>
              if sent_dest s =? 0 then Some z else None
          | _, _ => None
          end) o.

Definition calculation_complete_line : string :=
  "Calculation complete!" +:+ endl.

Definition max_flow_line (total : Z) : string :=
  endl +:+ "Max flow: " +:+ pretty total +:+ endl.

Definition runtime_line (runtime : string) : string :=
  "Runtime: " +:+ runtime +:+ endl.

(** ** The capacity invariant *)

Definition capacity_respected (p : process) : Prop :=
  Forall (fun v => Forall (fun e => 0 <= flow e <= capacity e) (out_edges v))
    (vertices p).

(** The input with 2 vertices and the lines [0 1 1 3] and [] on one rank: a
    self-loop of capacity 1 at the source and an edge of capacity 3 to the
    sink. *)
Definition self_loop_input : process :=
  initial_process 0 1 false [0; 0] 2 [[(0, 1); (1, 3)]; []].

(** ** Loading, as the input has it *)

(** The outgoing edges [read_file] creates for one line of the input. *)
Definition out_edges_of_line (pairs : list (Z * Z)) : list out_edge :=
  map (fun dc => mk_out_edge (fst dc) 0 NO_LOCAL_ID (snd dc) 0) pairs.

(** The incoming edges at [dest] that one line, the line of vertex [src],
    gives rise to. *)
Definition in_edges_of_line (src dest : global_id) (pairs : list (Z * Z))
  : list in_edge :=
  map (fun _ => mk_in_edge src 0 NO_LOCAL_ID)
    (List.filter (fun dc => fst dc =? dest) pairs).

(** The incoming edges at [dest] from the lines of vertices [k], [k+1], ... *)
Fixpoint in_edges_of_lines (k : global_id) (dest : global_id)
  (lines : list (list (Z * Z))) : list in_edge :=
  match lines with
  | [] => []
  | line :: lines' =>
      in_edges_of_line k dest line ++ in_edges_of_lines (k + 1) dest lines'
  end.

(** An input whose lines fit the header: no more lines than vertices and
    every destination a vertex id. *)
Definition input_in_range (num_vertices : Z) (lines : list (list (Z * Z)))
  : Prop :=
  Z.of_nat (length lines) <= num_vertices
  /\ Forall (Forall (fun dc => 0 <= fst dc < num_vertices)) lines.

(** The pairs on the line of vertex [j] when the lines start at vertex [k]. *)
Definition line_of (k j : global_id) (lines : list (list (Z * Z)))
  : list (Z * Z) :=
  if decide (k <= j) then default [] (lines !! Z.to_nat (j - k)) else [].

(** The outgoing edges of [v] towards [d], and its incoming edges from [u]. *)
Definition out_edges_towards (d : global_id) (v : vertex) : list out_edge :=
  List.filter (fun e => dest_node_id e =? d) (out_edges v).

Definition in_edges_from (u : global_id) (v : vertex) : list in_edge :=
  List.filter (fun e => in_dest_node_id e =? u) (in_edges v).

(** An edge end that is resolved in [p]: its rank is the one the table gives
    for the far vertex, and when that rank is this one its index names the
    local vertex with the far vertex's id. *)
Definition end_resolved (global_id_to_rank : list Z) (p : process)
  (far : global_id) (loc : Z) (idx : local_id) : Prop :=
  loc = rank_of global_id_to_rank far
  /\ (loc = mpi_rank p ->
      exists w, vec_at (vertices p) idx = Some w /\ id w = far).

Definition edges_resolved (global_id_to_rank : list Z) (p : process)
  (v : vertex) : Prop :=
  Forall (fun e => end_resolved global_id_to_rank p (dest_node_id e)
                     (rank_location e) (vert_index e)) (out_edges v)
  /\ Forall (fun e => end_resolved global_id_to_rank p (in_dest_node_id e)
                        (in_rank_location e) (in_vert_index e)) (in_edges v).

(** The vertices rank [rank] keeps once the exported ones are erased. *)
Definition kept_vertices (rank : Z) (global_id_to_rank : list Z)
  (num_vertices : Z) (lines : list (list (Z * Z))) : list vertex :=
  filter (fun v => rank_of global_id_to_rank (id v) = rank)
    (read_file num_vertices lines).

(** Three vertices on two ranks: vertex 1 is on rank 1, the source 0 and the
    sink 2 on rank 0, which this is. *)
Definition sample_two_ranks : process :=
  initial_process 0 2 false [0; 1; 0] 3 [[(1, 4); (2, 5)]; [(2, 6)]; []].

(** The state a computation leaves, the one it started in when it fails. *)
Definition state_after {A} (m : M A) (p : process) : process :=
  match m p with
  | Some (_, p') => p'
  | None => p
  end.

(** ** What step 3 keeps *)

(** Two edge tables that differ in their flows at most. *)
Definition same_edges_but_flow (es es' : list out_edge) : Prop :=
  Forall2 (fun e e' => dest_node_id e' = dest_node_id e
                       /\ rank_location e' = rank_location e
                       /\ vert_index e' = vert_index e
                       /\ capacity e' = capacity e) es es'.

Definition same_vertex_but_flow (v v' : vertex) : Prop :=
  id v' = id v /\ in_edges v' = in_edges v
  /\ same_edges_but_flow (out_edges v) (out_edges v').

(** The backtracking of step 3 touches flows and the outbox only. *)
Record only_flows_changed (p p' : process) : Prop := mk_only_flows_changed {
  of_rank : mpi_rank p' = mpi_rank p;
  of_size : mpi_size p' = mpi_size p;
  of_source : source_id p' = source_id p;
  of_sink : sink_id p' = sink_id p;
  of_labels : labels p' = labels p;
  of_queue : edge_queue p' = edge_queue p;
  of_map : global_to_local p' = global_to_local p;
  of_pass : pass p' = pass p;
  of_sink_found : sink_found p' = sink_found p;
  of_complete : algorithm_complete p' = algorithm_complete p;
  of_vertices : Forall2 same_vertex_but_flow (vertices p) (vertices p');
  of_outbox : exists more : list sent, outbox p' = outbox p ++ more
}.

(** ** What the labelling search does to the labels *)

(** Labels are only ever filled in: the table keeps its size and a slot that
    holds a non-zero label keeps it. *)
Definition labels_only_filled (p p' : process) : Prop :=
  length (labels p') = length (labels p)
  /\ forall (i : local_id) (l : label),
       vec_at (labels p) i = Some l -> value l <> 0 ->
       vec_at (labels p') i = Some l.

(** ** The counter of working threads *)

(** The counter has moved by [d], in 32-bit arithmetic. *)
Definition wt_shift (d : Z) (p p' : process) : Prop :=
  in_int_range (working_threads p) ->
  working_threads p' = wrap_int (working_threads p + d).

(** Every run of [m] moves the counter by the amount [g] gives for its
    result. *)
Definition shifts {A} (g : A -> Z) (m : M A) : Prop :=
  forall (p : process) (a : A) (p' : process),
    m p = Some (a, p') -> wt_shift (g a) p p'.

(** What a termination check leaves on the counter: it is decremented on the
    way out of the thread, and not yet when the loop goes on. *)
Definition exit_shift (ctl : loop_ctl) : Z :=
  match ctl with
  | ThreadReturn => -1
  | LoopAgain => 0
  end.

(** ** The token *)

Definition is_token (t : message_tags) : bool :=
  match t with
  | TOKEN_WHITE | TOKEN_RED => true
  | _ => false
  end.

(** The action is the router servicing a token. *)
Definition receives_token (a : step_2_action) : bool :=
  match a with
  | RouterStep _ _ _ stat_tag _ _ =>
      match tag_of_int stat_tag with
      | Some t => is_token t
      | None => false
      end
  | WorkerStep _ _ _ => false
  end.

(** The outbox has only grown, and a process that did not hold the token
    still does not hold it and has sent none. *)
Definition token_kept_away (p p' : process) : Prop :=
  exists more : list sent,
    outbox p' = outbox p ++ more
    /\ (have_token p = false ->
        have_token p' = false
        /\ Forall (fun s => is_token (sent_tag s) = false) more).

(** ** A label sent to another rank *)

(** Rank 1 of the same input as [sample_two_ranks]: it keeps vertex 1. *)
Definition sample_rank_1 : process :=
  initial_process 1 2 false [0; 1; 0] 3 [[(1, 4); (2, 5)]; [(2, 6)]; []].

(** ** The Zoltan callbacks *)

(** [user_return_num_obj]: [vertices.size()] returned as an [int]. *)
Definition user_return_num_obj : M Z :=
  vs <- gets vertices;; ret (wrap_int (Z.of_nat (length vs))).

(** [user_return_obj_list]: the pairs written to [global_ids] and
    [local_ids], one per vertex. *)
Definition user_return_obj_list : M (list (global_id * local_id)) :=
  vs <- gets vertices;;
  ret (zip (map id vs) (seqZ 0 (Z.of_nat (length vs)))).

(** [user_num_edges] for the vertex [*local]. *)
Definition user_num_edges (local : local_id) : M Z :=
  v <- vertex_at local;;
  ret (wrap_int (Z.of_nat (length (in_edges v))
                 + Z.of_nat (length (out_edges v)))).

(** [user_return_edge_list]: the entries written to [nbor_global_id] and
    [nbor_procs], from index 0 on: the incoming edges, then the outgoing
    ones. *)
Definition user_return_edge_list (local : local_id) : M (list (global_id * Z)) :=
  curr_vertex <- vertex_at local;;
  ret (map (fun e => (in_dest_node_id e, in_rank_location e))
         (in_edges curr_vertex)
       ++ map (fun e => (dest_node_id e, rank_location e))
            (out_edges curr_vertex)).

(** [struct packed_vert]: the two counts, then the flexible array [data],
    which holds [out_count] outgoing edges followed by [in_count] incoming
    edges, copied as they are. *)
Record packed_vert : Type := mk_packed_vert {
  out_count : Z;
  in_count : Z;
  data_out : list out_edge;
  data_in : list in_edge
}.

Definition user_pack_vertex (local : local_id) : M packed_vert :=
  vert <- vertex_at local;;
  ret (mk_packed_vert (Z.of_nat (length (out_edges vert)))
         (Z.of_nat (length (in_edges vert)))
         (out_edges vert) (in_edges vert)).

(** The first [n] elements of a buffer; reading past its end is undefined. *)
Definition read_array {A} (n : Z) (buf : list A) : option (list A) :=
  if bool_decide (0 <= n <= Z.of_nat (length buf))
  then Some (take (Z.to_nat n) buf) else None.

Definition user_unpack_vertex (global : global_id) (packed : packed_vert)
  : M unit :=
  outs <- lift_option (read_array (out_count packed) (data_out packed));;
  ins <- lift_option (read_array (in_count packed) (data_in packed));;
  r <- gets mpi_rank;;
  (* update rank_location of all edges *)
  let outs' :=
    map (fun e => mk_out_edge (dest_node_id e) r (vert_index e) (capacity e)
                    (flow e)) outs in
  let ins' :=
    map (fun e => mk_in_edge (in_dest_node_id e) r (in_vert_index e)) ins in
  modify (with_vertices (fun vs => vs ++ [mk_vertex global outs' ins'])).

(** A vertex as it arrives: the edges of [v] with the receiving rank in the
    place of their rank. *)
Definition migrated (rank : Z) (v : vertex) : vertex :=
  mk_vertex (id v)
    (map (fun e => mk_out_edge (dest_node_id e) rank (vert_index e)
                     (capacity e) (flow e)) (out_edges v))
    (map (fun e => mk_in_edge (in_dest_node_id e) rank (in_vert_index e))
       (in_edges v)).

(** ** Flags that are only raised *)

(** Within a pass [sink_found] and [algorithm_complete] are never lowered and
    a claim on step 3 is never taken over. *)
Definition flags_only_raised (p p' : process) : Prop :=
  (sink_found p = true -> sink_found p' = true)
  /\ (algorithm_complete p = true -> algorithm_complete p' = true)
  /\ (step_3_tid p <> -1 -> step_3_tid p' = step_3_tid p).

(** ** The whole run on one rank *)

(** The graph is the one that was loaded, up to the flows. *)
Definition same_shape (p p' : process) : Prop :=
  mpi_rank p' = mpi_rank p /\ mpi_size p' = mpi_size p
  /\ source_id p' = source_id p /\ sink_id p' = sink_id p
  /\ global_to_local p' = global_to_local p
  /\ Forall2 same_vertex_but_flow (vertices p) (vertices p').

(** ** The ring of step 3 *)

(** [(mpi_rank + 1) % mpi_size], the rank SINK_FOUND, SOURCE_FOUND and the
    token are sent to. *)
Definition next_rank (p : process) : Z :=
  Z.rem (mpi_rank p + 1) (mpi_size p).

(** [(mpi_rank - 1 + mpi_size) % mpi_size], the default sender of
    [wait_and_flush]. *)
Definition default_sender (p : process) : Z :=
  Z.rem (mpi_rank p - 1 + mpi_size p) (mpi_size p).

(** [wait_and_flush]: [inbox] lists the messages in the order [MPI_Recv]
    returns them, each with the [MPI_SOURCE] and [MPI_TAG] of its status; the
    result is what is left of it when the loop ends, and [None] when the
    loop never ends. *)
Fixpoint wait_and_flush (tag sender : Z) (inbox : list (Z * Z))
  : option (list (Z * Z)) :=
  match inbox with
  | [] => None
  | (stat_source, stat_tag) :: rest =>
      if negb (stat_tag =? tag) || negb (stat_source =? sender)
      then wait_and_flush tag sender rest
      else Some rest
  end.

(** A source that carries one unit of flow in the wrong direction. *)
Definition sample_negative_flow : process :=
  mk_process 1 2 0 1 0 TOKEN_WHITE false TOKEN_WHITE true
    [mk_vertex 0 [mk_out_edge 1 0 NO_LOCAL_ID 4 (-1)] []]
    [EMPTY_LABEL]
    (<[0 := 0]> ∅) false (-1) 2 true [] false [] [] [].

(** The lines as [read_file] takes them are the pairs the stream extraction
    [iss >> connected_vertex >> capacity] has delivered.  [capacity] is an
    [int]: a value outside its range makes the extraction fail and ends the
    line in the code, so a line of the file is described by its pairs only if
    every capacity fits. *)
Definition capacities_fit_int (lines : list (list (Z * Z))) : Prop :=
  Forall (Forall (fun dc => in_int_range (snd dc))) lines.

(** One pass of a worker through [while (!sink_found)], from the test of the
    loop on: [None] when the test ends the loop, otherwise the outcome of the
    loop body. *)
Definition worker_loop (tid : Z) (bt_idx : local_id) (entry : edge_entry)
  : M (option (worker_ctl * local_id * edge_entry)) :=
  sf <- gets sink_found;;
  if sf : bool then ret None
  else res <- worker_step tid bt_idx entry;; ret (Some res).

(** ** The sum of the flows as an [int] *)

(** The values [total_flow] takes in the loop of [calc_max_flow] when the
    additions are done in the integers: the sum of the flows of the first [k]
    edges, for every [k]. *)
Definition running_sums (es : list out_edge) : list Z :=
  (fun k => foldr Z.add 0 (flow <$> take k es)) <$> seq 0 (S (length es)).

(** No addition of the loop leaves the range of [int]. *)
Definition sum_fits_int (es : list out_edge) : Prop :=
  Forall in_int_range (running_sums es).

(** The report as the specification words it, on a rank 0 that owns the
    source: the line printed carries the sum of the flows out of the
    source. *)
Definition prints_sum_of_source_flows (incoming : list Z) (runtime : string)
  (po : process) : Prop :=
  forall (idx : local_id) (v : vertex),
    global_to_local po !! source_id po = Some idx ->
    vec_at (vertices po) idx = Some v ->
    let total := foldr Z.add 0 (flow <$> out_edges v) in
    exists po' : process,
      finish incoming runtime po = Some (Some total, po')
      /\ stdout po' =
         stdout po ++ [calculation_complete_line; max_flow_line total;
                       runtime_line runtime].

(** Five vertices on one rank: three disjoint paths 0 -> i -> 4 of capacity
    1431655765 each, so that the maximum flow is 4294967295 = 2^32 - 1. *)
Definition three_wide_paths : list (list (Z * Z)) :=
  [[(1, 1431655765); (2, 1431655765); (3, 1431655765)];
   [(4, 1431655765)]; [(4, 1431655765)]; [(4, 1431655765)]; []].

(** The globals when [run_algorithm] has returned on that input. *)
Definition after_three_wide_paths : process :=
  state_after (run_algorithm_single 10 60)
    (initial_process 0 1 false [0; 0; 0; 0; 0] 5 three_wide_paths).

(** ** Where a backtrack starts and what it carries *)

(** The start of step 3 in the thread that runs it: a thread that found the
    sink itself ([bt_idx] is then the local index of the sink) takes the value
    of the sink's label as the increment; [sink_value] is what the thread's
    variable has held since its declaration, and both loop flags start
    lowered. *)
Definition step_3_begin (bt_idx : local_id) (sink_value : Z)
  : M step_3_locals :=
  if negb (bt_idx =? NO_LOCAL_ID) then
    l <- label_at bt_idx;;
    ret (mk_step_3_locals bt_idx (value l) false false)
  else ret (mk_step_3_locals bt_idx sink_value false false).

(** The two ways a backtrack comes to visit vertices of a rank: the rank has
    found the sink, or it receives UPDATE_FLOW while it waits. *)
Inductive backtrack_entry : Type :=
| FoundSink (bt_idx : local_id)
| GotUpdateFlow (loc : step_3_locals) (msg : message_data).

Definition enter_backtrack (e : backtrack_entry) : M step_3_locals :=
  match e with
  | FoundSink bt => step_3_begin bt 0
  | GotUpdateFlow loc msg => step_3_recv loc (int_of_tag UPDATE_FLOW) msg
  end.

(** The increment a backtrack enters a rank with: the value of the sink's
    label where the sink was found, the value UPDATE_FLOW carries
    elsewhere. *)
Definition entry_increment (p : process) (e : backtrack_entry) : option Z :=
  match e with
  | FoundSink bt =>
      if bt =? NO_LOCAL_ID then None
      else
        match vec_at (vertices p) bt, vec_at (labels p) bt with
        | Some v, Some l => if id v =? sink_id p then Some (value l) else None
        | _, _ => None
        end
  | GotUpdateFlow _ msg => Some (msg_value msg)
  end.

(** Up to [n] visits of the backtracking loop, as long as the thread has a
    local vertex to visit. *)
Fixpoint backtrack_visits (n : nat) (loc : step_3_locals) : M step_3_locals :=
  match n with
  | O => ret loc
  | S n' =>
      if step_3_done loc || (bt_idx loc =? NO_LOCAL_ID) then ret loc
      else loc' <- step_3_local loc;; backtrack_visits n' loc'
  end.

(** Every result of [m] satisfies [Q]. *)
Definition returns {A} (Q : A -> Prop) (m : M A) : Prop :=
  forall (p : process) (a : A) (p' : process), m p = Some (a, p') -> Q a.

(** ** What the winner of a slot leaves in it *)

(** The label in the slot of a caller that has won the compare-and-swap, by
    the statement the caller has reached: the proposed value from the start,
    then the back pointer field by field, and the whole label of the call from
    the sink test on. *)
Definition slot_filled (c : label_call) (pc : label_pc) (l : label) : Prop :=
  value l = call_value c
  /\ match pc with
     | AtCas | AtPrevNode => True
     | AtPrevRank => prev_node l = call_prev c
     | AtPrevIndex =>
         prev_node l = call_prev c /\ prev_rank_loc l = call_prev_rank c
     | AtSinkTest | AtInsertEdges | Returned _ =>
         l = mk_label (call_value c) (call_prev c) (call_prev_rank c)
               (call_prev_idx c)
     end.

Definition winners_hold_slots (tr : list (nat * label_event)) (p : process)
  (pool : label_pool) : Prop :=
  forall (t : nat) (c : label_call) (pc : label_pc),
    pool !! t = Some (c, pc) -> In (t, CasWon (call_curr_idx c)) tr ->
    exists l : label,
      vec_at (labels p) (call_curr_idx c) = Some l /\ slot_filled c pc l.

(** The first part of the claim as the specification words it, for the
    callers [calls] started in [p]: no slot sees two winning
    compare-and-swaps. *)
Definition slot_written_at_most_once (calls : list label_call) (p : process)
  : Prop :=
  forall (tr : list (nat * label_event)) (p' : process) (pool' : label_pool),
    pool_run (p, start_pool calls) tr (p', pool') ->
    forall idx : local_id, (cas_wins idx tr <= 1)%nat.

(** The diamond graph 0 -> {1, 2} -> 3 on one rank, with the source
    labelled. *)
Definition sample_diamond : process :=
  labelled_with 0 (mk_label INT_MAX 0 0 0)
    (initial_process 0 1 false [0; 0; 0; 0] 4
       [[(1, 3); (2, 2)]; [(3, 2)]; [(3, 3)]; []]).

(** * Properties *)

(** ** The monad and the vectors *)

Lemma bind_Some {A B} (m : M A) (k : A -> M B) (p p2 : process) (b : B) :
  bind m k p = Some (b, p2) <->
  exists a p1, m p = Some (a, p1) /\ k a p1 = Some (b, p2).
Proof.
  unfold bind. split.
  - destruct (m p) as [[a p1]|] eqn:E; [|discriminate].
    intros H. exists a, p1. split; [reflexivity | exact H].
  - intros (a & p1 & -> & H). exact H.
Qed.

Lemma bind_eq {A B} (m : M A) (k : A -> M B) (p p1 : process) (a : A) :
  m p = Some (a, p1) -> bind m k p = k a p1.
Proof. unfold bind. intros ->. reflexivity. Qed.

Lemma vec_at_Some {A} (v : list A) (i : Z) (x : A) :
  vec_at v i = Some x <-> 0 <= i /\ v !! Z.to_nat i = Some x.
Proof.
  unfold vec_at. case_bool_decide as Hi.
  - intuition lia.
  - split; [discriminate|]. intros [H0 Hl]. exfalso. apply Hi.
    apply lookup_lt_Some in Hl. lia.
Qed.

Lemma vec_at_of_nat {A} (v : list A) (n : nat) :
  vec_at v (Z.of_nat n) = v !! n.
Proof.
  unfold vec_at. rewrite Nat2Z.id. case_bool_decide as Hi; [reflexivity|].
  symmetry. apply lookup_ge_None. lia.
Qed.

Lemma vec_at_set_eq {A} (v : list A) (i : Z) (x y : A) :
  vec_at v i = Some y -> vec_at (vec_set v i x) i = Some x.
Proof.
  rewrite !vec_at_Some. intros [H0 Hl]. split; [exact H0|].
  unfold vec_set. apply list_lookup_insert_eq.
  by apply lookup_lt_Some in Hl.
Qed.

Lemma vec_at_set_ne {A} (v : list A) (i j : Z) (x : A) :
  0 <= i -> i <> j -> vec_at (vec_set v i x) j = vec_at v j.
Proof.
  intros H0 Hne. unfold vec_at, vec_set. rewrite length_insert.
  case_bool_decide; [|reflexivity].
  apply list_lookup_insert_ne. lia.
Qed.

Lemma vec_set_length {A} (v : list A) (i : Z) (x : A) :
  length (vec_set v i x) = length v.
Proof. apply length_insert. Qed.

Lemma vec_set_same {A} (v : list A) (i : Z) (x : A) :
  vec_at v i = Some x -> vec_set v i x = v.
Proof.
  rewrite vec_at_Some. intros [_ Hl]. unfold vec_set.
  by apply list_insert_id.
Qed.

(** ** [insert_edges] *)

Lemma already_labelled_eq (p : process) (rank : Z) (vidx : local_id) :
  (rank = mpi_rank p -> is_Some (vec_at (labels p) vidx)) ->
  already_labelled rank vidx p = Some (far_end_labelled p rank vidx, p).
Proof.
  intros Hin. unfold already_labelled, far_end_labelled, bind, gets, label_at.
  cbn. destruct (rank =? mpi_rank p) eqn:E; [|reflexivity].
  apply Z.eqb_eq in E. destruct (Hin E) as [l ->]. reflexivity.
Qed.

Lemma came_from_eq (p : process) (vert_idx : local_id) (dest : global_id)
  (l : label) :
  vec_at (labels p) vert_idx = Some l ->
  came_from vert_idx dest p = Some (dest =? prev_node l, p).
Proof.
  intros Hl. unfold came_from, bind, gets, label_at. cbn. rewrite Hl.
  reflexivity.
Qed.

Lemma insert_out_edges_eq (p : process) (vert_idx : local_id) (l : label)
  (es : list out_edge) :
  vec_at (labels p) vert_idx = Some l ->
  Forall (fun e => rank_location e = mpi_rank p ->
                   is_Some (vec_at (labels p) (vert_index e))) es ->
  forall (i : Z) (fragment : EdgeQueue),
    insert_out_edges vert_idx i es fragment p =
    Some (fragment
          ++ map (fun ie => mk_edge_entry vert_idx true (fst ie))
               (List.filter
                  (fun ie => enqueued p (prev_node l) (dest_node_id (snd ie))
                               (rank_location (snd ie)) (vert_index (snd ie)))
                  (indexed_from i es)), p).
Proof.
  intros Hl Hes. induction Hes as [|e es He Hes IH]; intros i fragment.
  - cbn. by rewrite app_nil_r.
  - cbn [insert_out_edges indexed_from List.filter].
    rewrite (bind_eq _ _ _ _ _ (already_labelled_eq p _ _ He)).
    unfold enqueued. cbn [fst snd].
    destruct (far_end_labelled p (rank_location e) (vert_index e)).
    + cbn. apply IH.
    + rewrite (bind_eq _ _ _ _ _ (came_from_eq p _ (dest_node_id e) _ Hl)).
      destruct (dest_node_id e =? prev_node l); cbn.
      * apply IH.
      * rewrite IH. unfold EdgeQueue_push. by rewrite <- app_assoc.
Qed.

Lemma insert_in_edges_eq (p : process) (vert_idx : local_id) (l : label)
  (es : list in_edge) :
  vec_at (labels p) vert_idx = Some l ->
  Forall (fun e => in_rank_location e = mpi_rank p ->
                   is_Some (vec_at (labels p) (in_vert_index e))) es ->
  forall (i : Z) (fragment : EdgeQueue),
    insert_in_edges vert_idx i es fragment p =
    Some (fragment
          ++ map (fun ie => mk_edge_entry vert_idx false (fst ie))
               (List.filter
                  (fun ie => enqueued p (prev_node l)
                               (in_dest_node_id (snd ie))
                               (in_rank_location (snd ie))
                               (in_vert_index (snd ie)))
                  (indexed_from i es)), p).
Proof.
  intros Hl Hes. induction Hes as [|e es He Hes IH]; intros i fragment.
  - cbn. by rewrite app_nil_r.
  - cbn [insert_in_edges indexed_from List.filter].
    rewrite (bind_eq _ _ _ _ _ (already_labelled_eq p _ _ He)).
    unfold enqueued. cbn [fst snd].
    destruct (far_end_labelled p (in_rank_location e) (in_vert_index e)).
    + cbn. apply IH.
    + rewrite (bind_eq _ _ _ _ _ (came_from_eq p _ (in_dest_node_id e) _ Hl)).
      destruct (in_dest_node_id e =? prev_node l); cbn.
      * apply IH.
      * rewrite IH. unfold EdgeQueue_push. by rewrite <- app_assoc.
Qed.

Lemma insert_edges_eq (p : process) (vert_idx tid : Z) (v : vertex)
  (l : label) :
  vec_at (vertices p) vert_idx = Some v ->
  vec_at (labels p) vert_idx = Some l ->
  local_ends_in_range p v ->
  insert_edges vert_idx tid p =
  Some (tt, with_edge_queue
              (fun q => q ++ insert_edges_spec p vert_idx v (prev_node l)) p).
Proof.
  intros Hv Hl [Hout Hin]. unfold insert_edges.
  assert (Hva : vertex_at vert_idx p = Some (v, p)).
  { unfold vertex_at, bind, gets. cbn. by rewrite Hv. }
  rewrite (bind_eq _ _ _ _ _ Hva).
  rewrite (bind_eq _ _ _ _ _ (insert_out_edges_eq p _ _ _ Hl Hout 0 [])).
  rewrite (bind_eq _ _ _ _ _ (insert_in_edges_eq p _ _ _ Hl Hin 0 _)).
  reflexivity.
Qed.

Lemma indexed_from_elem {A} (l : list A) (k i : Z) (x : A) :
  In (i, x) (indexed_from k l) <->
  exists n : nat, i = k + Z.of_nat n /\ l !! n = Some x.
Proof.
  revert k. induction l as [|y l IH]; intros k; cbn.
  - split; [tauto|]. intros (n & _ & H). discriminate.
  - rewrite IH. split.
    + intros [H | (n & -> & Hn)].
      * injection H as <- <-. exists 0%nat. split; [lia | reflexivity].
      * exists (S n). split; [lia | exact Hn].
    + intros ([|n] & -> & Hn).
      * left. cbn in Hn. injection Hn as ->. f_equal. lia.
      * right. exists n. split; [lia | exact Hn].
Qed.

(** Membership in the specification's fragment, edge by edge. *)
Lemma insert_edges_spec_elem (p : process) (vert_idx : local_id) (v : vertex)
  (prev : global_id) (entry : edge_entry) :
  In entry (insert_edges_spec p vert_idx v prev) <->
  (exists (n : nat) (e : out_edge),
      entry = mk_edge_entry vert_idx true (Z.of_nat n)
      /\ out_edges v !! n = Some e
      /\ far_end_labelled p (rank_location e) (vert_index e) = false
      /\ dest_node_id e <> prev)
  \/ (exists (n : nat) (e : in_edge),
         entry = mk_edge_entry vert_idx false (Z.of_nat n)
         /\ in_edges v !! n = Some e
         /\ far_end_labelled p (in_rank_location e) (in_vert_index e) = false
         /\ in_dest_node_id e <> prev).
Proof.
  unfold insert_edges_spec. rewrite in_app_iff, !in_map_iff.
  split.
  - intros [([i e] & <- & Hf) | ([i e] & <- & Hf)];
      apply filter_In in Hf as [Hin Hk];
      apply indexed_from_elem in Hin as (n & -> & Hn);
      unfold enqueued in Hk; cbn [fst snd] in Hk;
      apply andb_true_iff in Hk as [Hk1 Hk2];
      apply negb_true_iff in Hk1; apply negb_true_iff in Hk2;
      apply Z.eqb_neq in Hk2; [left | right]; exists n, e; auto.
  - intros [(n & e & -> & Hn & Hk1 & Hk2) | (n & e & -> & Hn & Hk1 & Hk2)];
      [left | right]; exists (Z.of_nat n, e); (split; [reflexivity|]);
      apply filter_In; (split; [apply indexed_from_elem; by exists n|]);
      unfold enqueued; cbn [fst snd]; rewrite Hk1;
      apply Z.eqb_neq in Hk2; by rewrite Hk2.
Qed.

(** ** [set_label] *)

Lemma label_at_eq (p : process) (i : local_id) (l : label) :
  vec_at (labels p) i = Some l -> label_at i p = Some (l, p).
Proof. intros H. unfold label_at, bind, gets. cbn. by rewrite H. Qed.

Lemma vertex_at_eq (p : process) (i : local_id) (v : vertex) :
  vec_at (vertices p) i = Some v -> vertex_at i p = Some (v, p).
Proof. intros H. unfold vertex_at, bind, gets. cbn. by rewrite H. Qed.

Lemma update_label_eq (p : process) (i : local_id) (f : label -> label)
  (l : label) :
  vec_at (labels p) i = Some l ->
  update_label i f p = Some (tt, with_labels (fun ls => vec_set ls i (f l)) p).
Proof.
  intros H. unfold update_label. by rewrite (bind_eq _ _ _ _ _ (label_at_eq _ _ _ H)).
Qed.

Lemma update_vertex_eq (p : process) (i : local_id) (f : vertex -> vertex)
  (v : vertex) :
  vec_at (vertices p) i = Some v ->
  update_vertex i f p =
  Some (tt, with_vertices (fun vs => vec_set vs i (f v)) p).
Proof.
  intros H. unfold update_vertex.
  by rewrite (bind_eq _ _ _ _ _ (vertex_at_eq _ _ _ H)).
Qed.

Lemma vec_set_set {A} (v : list A) (i : Z) (x y : A) :
  vec_set (vec_set v i x) i y = vec_set v i y.
Proof. unfold vec_set. apply list_insert_insert_eq. Qed.

Lemma set_label_lost (p : process) (prev : global_id) (prev_rank : Z)
  (prev_idx curr_idx : local_id) (new_value tid : Z) (l : label) :
  vec_at (labels p) curr_idx = Some l -> value l <> 0 ->
  set_label prev prev_rank prev_idx curr_idx new_value tid p = Some (false, p).
Proof.
  intros Hl Hv. unfold set_label, cas_label_value.
  unfold bind at 1. unfold bind at 1. rewrite (label_at_eq _ _ _ Hl).
  apply Z.eqb_neq in Hv. rewrite Hv. reflexivity.
Qed.

Lemma set_label_won (p : process) (prev : global_id) (prev_rank : Z)
  (prev_idx curr_idx : local_id) (new_value tid : Z) (l : label)
  (v : vertex) :
  vec_at (labels p) curr_idx = Some l -> value l = 0 ->
  vec_at (vertices p) curr_idx = Some v ->
  set_label prev prev_rank prev_idx curr_idx new_value tid p =
  let p1 :=
    labelled_with curr_idx (mk_label new_value prev prev_rank prev_idx) p in
  if id v =? sink_id p then Some (true, p1)
  else match insert_edges curr_idx tid p1 with
       | Some (_, p2) => Some (false, p2)
       | None => None
       end.
Proof.
  intros Hl Hv Hvx. unfold set_label, cas_label_value.
  unfold bind at 1. unfold bind at 1. rewrite (label_at_eq _ _ _ Hl).
  rewrite Hv. cbn [Z.eqb].
  unfold bind at 1. rewrite (update_label_eq _ _ _ _ Hl). cbn [ret].
  set (p1 := with_labels _ p).
  assert (H1 : vec_at (labels p1) curr_idx =
               Some (mk_label new_value (prev_node l) (prev_rank_loc l)
                       (prev_vert_index l))).
  { subst p1. cbn. eapply vec_at_set_eq, Hl. }
  unfold bind at 1. rewrite (update_label_eq _ _ _ _ H1). cbn [value prev_node prev_rank_loc prev_vert_index].
  set (p2 := with_labels _ p1).
  assert (H2 : vec_at (labels p2) curr_idx =
               Some (mk_label new_value prev (prev_rank_loc l)
                       (prev_vert_index l))).
  { subst p2. cbn. eapply vec_at_set_eq, H1. }
  unfold bind at 1. rewrite (update_label_eq _ _ _ _ H2). cbn [value prev_node prev_rank_loc prev_vert_index].
  set (p3 := with_labels _ p2).
  assert (H3 : vec_at (labels p3) curr_idx =
               Some (mk_label new_value prev prev_rank
                       (prev_vert_index l))).
  { subst p3. cbn. eapply vec_at_set_eq, H2. }
  unfold bind at 1. rewrite (update_label_eq _ _ _ _ H3). cbn [value prev_node prev_rank_loc prev_vert_index].
  set (p4 := with_labels _ p3).
  assert (E : p4 = labelled_with curr_idx
                     (mk_label new_value prev prev_rank prev_idx) p).
  { subst p4 p3 p2 p1. unfold labelled_with, with_labels. cbn.
    by rewrite !vec_set_set. }
  rewrite E. clear E H1 H2 H3 p4 p3 p2 p1.
  set (p1 := labelled_with _ _ p).
  assert (Hvx1 : vec_at (vertices p1) curr_idx = Some v) by exact Hvx.
  unfold bind at 1. rewrite (vertex_at_eq _ _ _ Hvx1).
  unfold bind at 1. cbn [gets].
  change (sink_id p1) with (sink_id p).
  destruct (id v =? sink_id p); [reflexivity|].
  unfold bind. destruct (insert_edges curr_idx tid p1) as [[[] p2]|]; reflexivity.
Qed.

Lemma vec_at_is_Some {A} (v : list A) (i : Z) :
  is_Some (vec_at v i) <-> 0 <= i < Z.of_nat (length v).
Proof.
  unfold vec_at. case_bool_decide as Hi.
  - split; [intros _; exact Hi|]. intros _.
    apply lookup_lt_is_Some. lia.
  - split; [intros [x Hx]; discriminate | tauto].
Qed.

Lemma local_ends_in_range_transfer (p q : process) (v : vertex) :
  mpi_rank q = mpi_rank p -> length (labels q) = length (labels p) ->
  local_ends_in_range p v -> local_ends_in_range q v.
Proof.
  intros Hr Hlen [Hout Hin]. split.
  - eapply Forall_impl; [exact Hout|]. cbn. intros e He Hloc.
    rewrite vec_at_is_Some, Hlen, <- vec_at_is_Some. apply He. congruence.
  - eapply Forall_impl; [exact Hin|]. cbn. intros e He Hloc.
    rewrite vec_at_is_Some, Hlen, <- vec_at_is_Some. apply He. congruence.
Qed.

Lemma vec_at_map {A B} (f : A -> B) (v : list A) (i : Z) :
  vec_at (map f v) i = f <$> vec_at v i.
Proof.
  unfold vec_at. rewrite length_map.
  case_bool_decide; [|reflexivity]. apply list_lookup_fmap.
Qed.

Lemma bind_modify {B} (f : process -> process) (k : unit -> M B)
  (p : process) :
  bind (modify f) k p = k tt (f p).
Proof. reflexivity. Qed.

Lemma bind_gets {A B} (f : process -> A) (k : A -> M B) (p : process) :
  bind (gets f) k p = k (f p) p.
Proof. reflexivity. Qed.

Lemma bind_ret {A B} (a : A) (k : A -> M B) (p : process) :
  bind (ret a) k p = k a p.
Proof. reflexivity. Qed.

Lemma step_1_eq (p : process) :
  step_1 0 p =
  (i <- lookup_global_id (source_id p);;
   if negb (i =? NO_LOCAL_ID) then
     _ <- set_label (source_id p) (mpi_rank p) i i INT_MAX 0;; ret tt
   else ret tt) (step_1_reset p).
Proof.
  unfold step_1. cbn [Z.eqb].
  rewrite !bind_modify, bind_gets, !bind_modify, bind_gets.
  reflexivity.
Qed.

(** Step 1 on the rank that owns the source: the source gets the label
    [INT_MAX] with itself as predecessor, and the queue holds the entries of
    [insert_edges] for it. *)
Lemma step_1_source (p : process) (i : local_id) (v : vertex) :
  global_to_local p !! source_id p = Some i ->
  i <> NO_LOCAL_ID ->
  vec_at (vertices p) i = Some v ->
  id v <> sink_id p ->
  length (labels p) = length (vertices p) ->
  local_ends_in_range p v ->
  let p1 :=
    labelled_with i (mk_label INT_MAX (source_id p) (mpi_rank p) i)
      (step_1_reset p) in
  step_1 0 p =
  Some (tt, with_edge_queue
              (fun _ => insert_edges_spec p1 i v (source_id p)) p1).
Proof.
  intros Hg Hi Hv Hsink Hlen Hloc p1. rewrite step_1_eq.
  unfold lookup_global_id. unfold bind at 1. unfold bind at 1.
  cbn [gets ret]. change (global_to_local (step_1_reset p))
    with (global_to_local p). rewrite Hg.
  apply Z.eqb_neq in Hi. rewrite Hi. cbn [negb].
  assert (Hl0 : vec_at (labels (step_1_reset p)) i = Some EMPTY_LABEL).
  { cbn. rewrite vec_at_map.
    destruct (proj2 (vec_at_is_Some (labels p) i)) as [l ->]; [|reflexivity].
    rewrite Hlen. apply vec_at_is_Some. by exists v. }
  unfold bind.
  rewrite (set_label_won _ _ _ _ _ _ _ EMPTY_LABEL v Hl0 eq_refl Hv).
  cbv zeta. fold p1. change (sink_id (step_1_reset p)) with (sink_id p).
  apply Z.eqb_neq in Hsink. rewrite Hsink.
  assert (Hl1 : vec_at (labels p1) i =
                Some (mk_label INT_MAX (source_id p) (mpi_rank p) i)).
  { subst p1. cbn. eapply vec_at_set_eq. rewrite vec_at_map.
    destruct (proj2 (vec_at_is_Some (labels p) i)) as [l ->]; [|reflexivity].
    rewrite Hlen. apply vec_at_is_Some. by exists v. }
  rewrite (insert_edges_eq p1 i 0 v _ Hv Hl1).
  - reflexivity.
  - eapply local_ends_in_range_transfer; [| |exact Hloc]; [reflexivity|].
    subst p1. cbn. by rewrite vec_set_length, length_map.
Qed.

(** C10: [insert_edges] appends to the queue one entry for every outgoing
    and every incoming edge of the newly labelled vertex, in table order,
    except the edges whose far end is a vertex of this rank that already has a
    non-zero label and the edges whose far end is the recorded predecessor
    [labels[vert_idx].prev_node]; a self-loop at a vertex recorded as its own
    predecessor is never enqueued, and that is how step 1 labels the source,
    so after step 1 no queue entry is a self-loop at the source. *)
Theorem insert_edges_enqueues_unlabelled_neighbours
  (p : process) (vert_idx tid : Z) (v : vertex) (l : label) :
  vec_at (vertices p) vert_idx = Some v ->
  vec_at (labels p) vert_idx = Some l ->
  local_ends_in_range p v ->
  insert_edges vert_idx tid p =
  Some (tt, with_edge_queue
              (fun q => q ++ insert_edges_spec p vert_idx v (prev_node l)) p)
  /\ (forall entry : edge_entry,
        In entry (insert_edges_spec p vert_idx v (prev_node l)) <->
        (exists (n : nat) (e : out_edge),
            entry = mk_edge_entry vert_idx true (Z.of_nat n)
            /\ out_edges v !! n = Some e
            /\ far_end_labelled p (rank_location e) (vert_index e) = false
            /\ dest_node_id e <> prev_node l)
        \/ (exists (n : nat) (e : in_edge),
               entry = mk_edge_entry vert_idx false (Z.of_nat n)
               /\ in_edges v !! n = Some e
               /\ far_end_labelled p (in_rank_location e) (in_vert_index e)
                  = false
               /\ in_dest_node_id e <> prev_node l))
  /\ (forall (q : process) (i : local_id) (s : vertex),
        global_to_local q !! source_id q = Some i ->
        i <> NO_LOCAL_ID ->
        vec_at (vertices q) i = Some s ->
        id s = source_id q ->
        id s <> sink_id q ->
        length (labels q) = length (vertices q) ->
        local_ends_in_range q s ->
        exists q' : process,
          step_1 0 q = Some (tt, q')
          /\ vec_at (labels q') i =
             Some (mk_label INT_MAX (source_id q) (mpi_rank q) i)
          /\ forall (entry : edge_entry) (n : nat),
               In entry (edge_queue q') ->
               edge_index entry = Z.of_nat n ->
               vertex_index entry = i
               /\ (is_outgoing entry = true ->
                   forall e, out_edges s !! n = Some e ->
                             dest_node_id e <> id s)
               /\ (is_outgoing entry = false ->
                   forall e, in_edges s !! n = Some e ->
                             in_dest_node_id e <> id s)).
Proof.
  intros Hv Hl Hloc. split; [by apply insert_edges_eq|].
  split; [apply insert_edges_spec_elem|].
  intros q i s Hg Hi Hs Hid Hsink Hlen Hlocq.
  eexists. split; [by apply step_1_source|]. split.
  - cbn. eapply vec_at_set_eq. rewrite vec_at_map.
    destruct (proj2 (vec_at_is_Some (labels q) i)) as [l0 ->]; [|reflexivity].
    rewrite Hlen. apply vec_at_is_Some. by exists s.
  - intros entry n Hin Hn. cbn [edge_queue with_edge_queue] in Hin.
    apply insert_edges_spec_elem in Hin
      as [(m & e & -> & Hm & _ & Hne) | (m & e & -> & Hm & _ & Hne)];
      cbn in Hn; apply Nat2Z.inj in Hn; subst m; cbn;
      (split; [reflexivity|]); split; intros Ho e' He'; try discriminate;
      rewrite Hm in He'; injection He' as <-; congruence.
Qed.

(** The two-vertex graph with a self-loop at the source, after loading. *)
Lemma insert_edges_enqueues_unlabelled_neighbours_witness :
  let p :=
    labelled_with 0 (mk_label INT_MAX 0 0 0)
      (initial_process 0 1 false [0; 0] 2 [[(0, 100); (1, 3)]; []]) in
  insert_edges 0 1 p = Some (tt, with_edge_queue (fun q => q ++ [mk_edge_entry 0 true 1]) p).
Proof.
  intros p.
  assert (Hv : vec_at (vertices p) 0 =
               Some (mk_vertex 0 [mk_out_edge 0 0 0 100 0; mk_out_edge 1 0 1 3 0]
                       [mk_in_edge 0 0 0])) by reflexivity.
  assert (Hl : vec_at (labels p) 0 = Some (mk_label INT_MAX 0 0 0))
    by reflexivity.
  refine (proj1 (insert_edges_enqueues_unlabelled_neighbours p 0 1 _ _ Hv Hl _)).
  split; repeat constructor; intros _; by eexists.
Defined.

(** ** [set_label] called from several threads *)

(** A caller run alone is the function [set_label]. *)
Lemma label_thread_run_set_label (c : label_call) (p : process) :
  label_thread_run 6 c AtCas p =
  set_label (call_prev c) (call_prev_rank c) (call_prev_idx c)
    (call_curr_idx c) (call_value c) (call_tid c) p.
Proof.
  unfold set_label.
  cbn [label_thread_run label_thread_step]. unfold bind.
  destruct (cas_label_value (call_curr_idx c) (call_value c) p)
    as [[[] p1]|]; [|reflexivity|reflexivity].
  cbn [fst ret label_thread_run label_thread_step]. unfold bind.
  destruct (update_label _ _ p1) as [[[] p2]|]; [|reflexivity].
  cbn [fst ret label_thread_run label_thread_step]. unfold bind.
  destruct (update_label _ _ p2) as [[[] p3]|]; [|reflexivity].
  cbn [fst ret label_thread_run label_thread_step]. unfold bind.
  destruct (update_label _ _ p3) as [[[] p4]|]; [|reflexivity].
  cbn [fst ret label_thread_run label_thread_step]. unfold bind.
  destruct (vertex_at _ p4) as [[v p5]|]; [|reflexivity].
  cbn [gets]. destruct (id v =? sink_id p5); [reflexivity|].
  cbn [fst ret label_thread_run label_thread_step]. unfold bind.
  destruct (insert_edges _ _ p5) as [[[] p6]|]; reflexivity.
Qed.

(** Running a computation that only reads. *)
Ltac run_reads :=
  unfold already_labelled, came_from, label_at, vertex_at, lookup_global_id,
    lift_option, bind, gets, ret, undefined in *;
  repeat (case_match; simplify_eq /=); try done.

Lemma already_labelled_frame (rank : Z) (vidx : local_id) (p p' : process)
  (b : bool) :
  already_labelled rank vidx p = Some (b, p') -> p' = p.
Proof. intros H. by run_reads. Qed.

Lemma came_from_frame (vert_idx : local_id) (dest : global_id)
  (p p' : process) (b : bool) :
  came_from vert_idx dest p = Some (b, p') -> p' = p.
Proof. intros H. by run_reads. Qed.

Lemma insert_out_edges_frame (vert_idx : local_id) (es : list out_edge) :
  forall (i : Z) (fragment r : EdgeQueue) (p p' : process),
    insert_out_edges vert_idx i es fragment p = Some (r, p') -> p' = p.
Proof.
  induction es as [|e es IH]; intros i fragment r p p' H; cbn in H.
  - by injection H.
  - apply bind_Some in H as (s1 & p1 & H1 & H).
    apply already_labelled_frame in H1 as ->.
    destruct s1; [by eapply IH|].
    apply bind_Some in H as (s2 & p2 & H2 & H).
    apply came_from_frame in H2 as ->.
    destruct s2; by eapply IH.
Qed.

Lemma insert_in_edges_frame (vert_idx : local_id) (es : list in_edge) :
  forall (i : Z) (fragment r : EdgeQueue) (p p' : process),
    insert_in_edges vert_idx i es fragment p = Some (r, p') -> p' = p.
Proof.
  induction es as [|e es IH]; intros i fragment r p p' H; cbn in H.
  - by injection H.
  - apply bind_Some in H as (s1 & p1 & H1 & H).
    apply already_labelled_frame in H1 as ->.
    destruct s1; [by eapply IH|].
    apply bind_Some in H as (s2 & p2 & H2 & H).
    apply came_from_frame in H2 as ->.
    destruct s2; by eapply IH.
Qed.

(** [insert_edges] touches the queue only, and only at its tail. *)
Lemma insert_edges_frame (vert_idx tid : Z) (p p' : process) (u : unit) :
  insert_edges vert_idx tid p = Some (u, p') ->
  exists fragment : EdgeQueue,
    p' = with_edge_queue (fun q => q ++ fragment) p.
Proof.
  unfold insert_edges. intros H.
  apply bind_Some in H as (v & p1 & H1 & H).
  assert (p1 = p) as -> by (by run_reads).
  apply bind_Some in H as (f1 & p2 & H2 & H).
  apply insert_out_edges_frame in H2 as ->.
  apply bind_Some in H as (f2 & p3 & H3 & H).
  apply insert_in_edges_frame in H3 as ->.
  exists f2. unfold modify in H. by injection H.
Qed.

Lemma update_label_inv (i : local_id) (f : label -> label) (p p' : process)
  (u : unit) :
  update_label i f p = Some (u, p') ->
  exists l : label,
    vec_at (labels p) i = Some l /\ p' = labelled_with i (f l) p.
Proof.
  unfold update_label. intros H.
  apply bind_Some in H as (l & p1 & H1 & H).
  exists l. unfold modify in H. run_reads.
Qed.

Lemma cas_label_value_inv (i : local_id) (new_value : Z) (p p' : process)
  (won : bool) :
  cas_label_value i new_value p = Some (won, p') ->
  exists l : label,
    vec_at (labels p) i = Some l
    /\ (if won
        then value l = 0
             /\ p' = labelled_with i
                       (mk_label new_value (prev_node l) (prev_rank_loc l)
                          (prev_vert_index l)) p
        else value l <> 0 /\ p' = p).
Proof.
  unfold cas_label_value. intros H.
  apply bind_Some in H as (l & p1 & H1 & H).
  assert (p1 = p /\ vec_at (labels p) i = Some l) as [-> Hl] by run_reads.
  exists l. split; [exact Hl|].
  destruct (value l =? 0) eqn:E.
  - apply Z.eqb_eq in E.
    apply bind_Some in H as ([] & p2 & H2 & H).
    apply update_label_inv in H2 as (l' & Hl' & ->).
    rewrite Hl in Hl'. injection Hl' as <-.
    unfold ret in H. injection H as <- <-. by split.
  - apply Z.eqb_neq in E. unfold ret in H. injection H as <- <-. by split.
Qed.

Lemma labelled_with_other (i j : local_id) (l l0 : label) (p : process) :
  vec_at (labels p) i = Some l0 -> j <> i ->
  vec_at (labels (labelled_with i l p)) j = vec_at (labels p) j.
Proof.
  intros Hi Hne. cbn. apply vec_at_set_ne; [|congruence].
  apply vec_at_Some in Hi. tauto.
Qed.

Lemma labelled_with_same (i : local_id) (l l0 : label) (p : process) :
  vec_at (labels p) i = Some l0 ->
  vec_at (labels (labelled_with i l p)) i = Some l.
Proof. intros Hi. cbn. eapply vec_at_set_eq, Hi. Qed.

Lemma labelled_with_slot_value (i j : local_id) (l l0 : label) (p : process) :
  vec_at (labels p) i = Some l0 -> value l = value l0 ->
  slot_value (labelled_with i l p) j = slot_value p j.
Proof.
  intros Hi Hv. unfold slot_value. destruct (decide (j = i)) as [->|Hne].
  - rewrite (labelled_with_same _ _ _ _ Hi), Hi. cbn. congruence.
  - by rewrite (labelled_with_other _ _ _ _ _ Hi Hne).
Qed.

(** What one statement of a caller does, read off its event. *)
Lemma label_thread_step_effect (c : label_call) (pc pc' : label_pc)
  (ev : label_event) (p p' : process) :
  label_thread_step c pc p = Some ((pc', ev), p') ->
  match ev with
  | CasWon idx =>
      idx = call_curr_idx c /\ pc = AtCas /\ pc' = AtPrevNode
      /\ slot_value p idx = Some 0
      /\ slot_value p' idx = Some (call_value c)
      /\ (forall j, j <> idx -> vec_at (labels p') j = vec_at (labels p) j)
      /\ edge_queue p' = edge_queue p
  | CasLost idx =>
      idx = call_curr_idx c /\ pc = AtCas /\ pc' = Returned false
      /\ p' = p /\ exists v, slot_value p idx = Some v /\ v <> 0
  | WroteBackPointer idx =>
      idx = call_curr_idx c /\ past_cas pc = true /\ past_cas pc' = true
      /\ (forall j, slot_value p' j = slot_value p j)
      /\ (forall j, j <> idx -> vec_at (labels p') j = vec_at (labels p) j)
      /\ edge_queue p' = edge_queue p
  | TestedSink idx =>
      idx = call_curr_idx c /\ pc = AtSinkTest /\ p' = p
  | Enqueued idx =>
      idx = call_curr_idx c /\ pc = AtInsertEdges /\ pc' = Returned false
      /\ labels p' = labels p
  end.
Proof.
  intros H. destruct pc; cbn in H.
  - apply bind_Some in H as (won & p1 & H1 & H).
    apply cas_label_value_inv in H1 as (l & Hl & Hw).
    destruct won; unfold ret in H; injection H as <- <- <-.
    + destruct Hw as [Hv ->]. repeat split; try reflexivity.
      * unfold slot_value. rewrite Hl. cbn. by rewrite Hv.
      * unfold slot_value. by rewrite (labelled_with_same _ _ _ _ Hl).
      * intros j Hj. by apply (labelled_with_other _ _ _ _ _ Hl).
    + destruct Hw as [Hv ->]. repeat split; try reflexivity.
      exists (value l). unfold slot_value. rewrite Hl. by split.
  - apply bind_Some in H as ([] & p1 & H1 & H).
    apply update_label_inv in H1 as (l & Hl & ->).
    unfold ret in H; injection H as <- <- <-. repeat split; try reflexivity.
    + intros j. by apply (labelled_with_slot_value _ _ _ _ _ Hl).
    + intros j Hj. by apply (labelled_with_other _ _ _ _ _ Hl).
  - apply bind_Some in H as ([] & p1 & H1 & H).
    apply update_label_inv in H1 as (l & Hl & ->).
    unfold ret in H; injection H as <- <- <-. repeat split; try reflexivity.
    + intros j. by apply (labelled_with_slot_value _ _ _ _ _ Hl).
    + intros j Hj. by apply (labelled_with_other _ _ _ _ _ Hl).
  - apply bind_Some in H as ([] & p1 & H1 & H).
    apply update_label_inv in H1 as (l & Hl & ->).
    unfold ret in H; injection H as <- <- <-. repeat split; try reflexivity.
    + intros j. by apply (labelled_with_slot_value _ _ _ _ _ Hl).
    + intros j Hj. by apply (labelled_with_other _ _ _ _ _ Hl).
  - apply bind_Some in H as (v & p1 & H1 & H).
    assert (p1 = p) as -> by run_reads.
    unfold bind, gets, ret in H.
    destruct (id v =? sink_id p); injection H as <- <- <-; by repeat split.
  - apply bind_Some in H as ([] & p1 & H1 & H).
    apply insert_edges_frame in H1 as (f & ->).
    unfold ret in H; injection H as <- <- <-. by repeat split.
  - discriminate.
Qed.

Lemma cas_wins_snoc (idx : local_id) (tr : list (nat * label_event))
  (t : nat) (ev : label_event) :
  cas_wins idx (tr ++ [(t, ev)]) =
  (cas_wins idx tr
   + match ev with
     | CasWon j => if (j =? idx)%Z then 1 else 0
     | _ => 0
     end)%nat.
Proof.
  unfold cas_wins. rewrite List.filter_app, length_app. f_equal.
  cbn. destruct ev as [j|j|j|j|j]; try reflexivity. by destruct (j =? idx).
Qed.

Lemma cas_wins_In (idx : local_id) (tr : list (nat * label_event)) (t : nat) :
  In (t, CasWon idx) tr -> (1 <= cas_wins idx tr)%nat.
Proof.
  unfold cas_wins. induction tr as [|[t' ev'] tr IH]; cbn; [tauto|].
  intros [H | H].
  - injection H as -> ->. rewrite Z.eqb_refl. cbn. lia.
  - specialize (IH H). destruct ev' as [j|j|j|j|j]; try exact IH.
    destruct (j =? idx); cbn; lia.
Qed.

Lemma snoc_split {A} (tr tr1 tr2 : list A) (e x : A) :
  tr ++ [e] = tr1 ++ x :: tr2 ->
  (tr2 = [] /\ x = e /\ tr1 = tr)
  \/ exists tr2', tr2 = tr2' ++ [e] /\ tr = tr1 ++ x :: tr2'.
Proof.
  destruct tr2 as [|y tr2 _] using rev_ind; intros H.
  - left. apply app_inj_tail in H as [-> ->]. auto.
  - right. exists tr2.
    rewrite app_comm_cons, app_assoc in H.
    apply app_inj_tail in H as [Htr He]. subst. auto.
Qed.

Lemma TestedSink_next (c : label_call) (pc pc' : label_pc) (idx : local_id)
  (p p' : process) :
  label_thread_step c pc p = Some ((pc', TestedSink idx), p') ->
  pc' = Returned true \/ pc' = AtInsertEdges.
Proof.
  intros H. destruct pc; cbn in H;
    try (apply bind_Some in H as (x & p1 & H1 & H);
         try destruct x; unfold ret in H; discriminate).
  - apply bind_Some in H as (v & p1 & H1 & H).
    unfold bind, gets, ret in H.
    destruct (id v =? sink_id p1); injection H as <- _ _; auto.
  - discriminate.
Qed.

Lemma label_thread_step_next (c : label_call) (pc pc' : label_pc)
  (ev : label_event) (p p' : process) :
  label_thread_step c pc p = Some ((pc', ev), p') ->
  pc' <> AtCas /\ (forall b, pc <> Returned b).
Proof.
  intros H. split; [|intros b ->; discriminate].
  intros ->. pose proof (label_thread_step_effect _ _ _ _ _ _ H) as E.
  destruct ev as [j|j|j|j|j].
  - destruct E as (_ & _ & E & _). discriminate.
  - destruct E as (_ & _ & E & _). discriminate.
  - destruct E as (_ & _ & E & _). discriminate.
  - apply TestedSink_next in H as [H | H]; discriminate.
  - destruct E as (_ & _ & E & _). discriminate.
Qed.

Lemma pool_invariant_start (calls : list label_call) (p0 : process) :
  pool_invariant calls p0 [] p0 (start_pool calls).
Proof.
  split.
  - unfold start_pool. induction calls as [|c calls IH]; [reflexivity|].
    cbn. by rewrite IH.
  - intros idx. cbn. split; [lia | discriminate].
  - intros idx v _ _. by split.
  - intros t c pc H Hp. unfold start_pool in H.
    rewrite list_lookup_fmap in H.
    destruct (calls !! t); cbn in H; [|discriminate].
    injection H as <- <-. discriminate.
  - intros t c ev _ [].
  - intros t idx [].
  - intros t ev c pc [].
  - intros tr1 t ev tr2 idx H. by destruct tr1.
  - intros tr1 t idx tr2 H. by destruct tr1.
Qed.

Lemma pool_invariant_step (calls : list label_call) (p0 p p' : process)
  (tr : list (nat * label_event)) (pool pool' : label_pool)
  (ev : nat * label_event) :
  Forall (fun c => call_value c <> 0) calls ->
  pool_invariant calls p0 tr p pool ->
  pool_step (p, pool) ev (p', pool') ->
  pool_invariant calls p0 (tr ++ [ev]) p' pool'.
Proof.
  intros Hnz Inv Hstep. inversion Hstep as [? ? ? t c pc pc' e Ht Hs]; subst.
  clear Hstep. destruct Inv as [Hcalls Hwins Hset Hpast Hat Hlost Hidx Hfills Halone].
  pose proof (label_thread_step_effect _ _ _ _ _ _ Hs) as Heff.
  pose proof (label_thread_step_next _ _ _ _ _ _ Hs) as [Hnext Hnotret].
  assert (Hlt : (t < length pool)%nat) by (by eapply lookup_lt_Some).
  assert (Hc : call_value c <> 0).
  { rewrite Forall_forall in Hnz. apply Hnz. rewrite <- Hcalls.
    apply list_elem_of_fmap. exists (c, pc). split; [reflexivity|].
    by eapply list_elem_of_lookup_2. }
  assert (Hlook : forall t' c' pc'',
             <[t := (c, pc')]> pool !! t' = Some (c', pc'') ->
             (t' = t /\ c' = c /\ pc'' = pc')
             \/ (t' <> t /\ pool !! t' = Some (c', pc''))).
  { intros t' c' pc'' H. destruct (decide (t' = t)) as [->|Hne].
    - rewrite list_lookup_insert_eq in H by exact Hlt.
      injection H as <- <-. auto.
    - rewrite list_lookup_insert_ne in H by congruence. auto. }
  assert (Hvals : forall j,
             (forall i, e = CasWon i -> i <> j) ->
             slot_value p' j = slot_value p j).
  { intros j Hj. destruct e.
    - destruct Heff as (_ & _ & _ & _ & _ & Ho & _).
      unfold slot_value. rewrite Ho; [reflexivity|].
      intros ->. by apply (Hj idx).
    - by destruct Heff as (_ & _ & _ & -> & _).
    - by destruct Heff as (_ & _ & _ & Hv & _).
    - by destruct Heff as (_ & _ & ->).
    - destruct Heff as (_ & _ & _ & Hl). unfold slot_value. by rewrite Hl. }
  split.
  - rewrite list_fmap_insert. cbn. rewrite <- Hcalls.
    apply list_insert_id. rewrite list_lookup_fmap, Ht. reflexivity.
  - intros idx. rewrite cas_wins_snoc. destruct (Hwins idx) as [Hle Hone].
    destruct e as [j| | | |];
      try (rewrite Nat.add_0_r; split; [exact Hle|];
           intros H1; rewrite Hvals by (intros i [=]); by apply Hone).
    destruct (j =? idx) eqn:E.
    + apply Z.eqb_eq in E. subst j.
      destruct Heff as (-> & _ & _ & H0 & Hv & _).
      assert (cas_wins (call_curr_idx c) tr = 0%nat) as ->.
      { destruct (decide (cas_wins (call_curr_idx c) tr = 1%nat)) as [H1|H1].
        - destruct (Hone H1) as (v & Hv' & Hv0). congruence.
        - lia. }
      split; [lia|]. intros _. by exists (call_value c).
    + apply Z.eqb_neq in E. rewrite Nat.add_0_r. split; [exact Hle|].
      intros H1. rewrite Hvals; [by apply Hone|]. intros i [= ->]. exact E.
  - intros idx v Hv Hv0. destruct (Hset idx v Hv Hv0) as [H0 Hsame].
    assert (Hslot : slot_value p idx = Some v).
    { unfold slot_value in *. by rewrite Hsame. }
    rewrite cas_wins_snoc, H0. destruct e as [j|j|j|j|j].
    + destruct Heff as (-> & _ & _ & Hz & _ & Ho & _).
      destruct (decide (call_curr_idx c = idx)) as [E|E].
      * rewrite E in Hz. congruence.
      * apply Z.eqb_neq in E. rewrite E. split; [reflexivity|].
        rewrite Ho; [exact Hsame|]. intros ->. by apply Z.eqb_neq in E.
    + destruct Heff as (_ & _ & _ & -> & _). by split.
    + destruct Heff as (-> & Hp & _ & _ & Ho & _). split; [reflexivity|].
      destruct (decide (idx = call_curr_idx c)) as [->|E].
      * apply (Hpast _ _ _ Ht), cas_wins_In in Hp. lia.
      * by rewrite Ho.
    + destruct Heff as (_ & _ & ->). by split.
    + destruct Heff as (_ & _ & _ & Hl). split; [reflexivity|].
      by rewrite Hl.
  - intros t' c' pc'' H Hp. apply in_or_app.
    destruct (Hlook _ _ _ H) as [(-> & -> & ->) | (Hne & H')].
    + destruct e as [j|j|j|j|j].
      * right. left. by destruct Heff as (-> & _).
      * destruct Heff as (_ & _ & -> & _). discriminate.
      * left. destruct Heff as (_ & Hpc & _). by apply (Hpast _ _ _ Ht).
      * left. destruct Heff as (_ & -> & _). by apply (Hpast _ _ _ Ht).
      * destruct Heff as (_ & _ & -> & _). discriminate.
    + left. by apply (Hpast _ _ _ H').
  - intros t' c' ev' H Hin.
    destruct (Hlook _ _ _ H) as [(-> & -> & Hpc) | (Hne & H')];
      [by apply Hnext|].
    apply in_app_or in Hin as [Hin | [Hin | []]].
    + by apply (Hat _ _ _ H') in Hin.
    + congruence.
  - intros t' idx Hin. apply in_app_or in Hin as [Hin | [Hin | []]].
    + destruct (Hlost _ _ Hin) as (c' & Hc').
      assert (t' <> t).
      { intros ->. rewrite Ht in Hc'. injection Hc' as _ ->.
        by apply (Hnotret false). }
      exists c'. by rewrite list_lookup_insert_ne.
    + injection Hin as Et Ee. subst t' e.
      destruct Heff as (_ & _ & -> & _).
      exists c. by apply list_lookup_insert_eq.
  - intros t' ev' c' pc'' Hin H.
    assert (Hold : exists pc0, pool !! t' = Some (c', pc0)).
    { destruct (Hlook _ _ _ H) as [(-> & -> & _) | (_ & H')]; eauto. }
    destruct Hold as (pc0 & Hold).
    apply in_app_or in Hin as [Hin | [Hin | []]].
    + by apply (Hidx _ _ _ _ Hin Hold).
    + injection Hin as Et Ee. subst t' ev'.
      rewrite Ht in Hold. injection Hold as Ec _. subst c'.
      destruct e; by destruct Heff as (-> & _).
  - intros tr1 t' ev' tr2 idx Heq Hf.
    apply snoc_split in Heq as [(-> & Hx & ->) | (tr2' & -> & ->)].
    + injection Hx as Et Ee. subst t' ev'. destruct Hf as [-> | ->].
      * destruct Heff as (-> & Hp & _). by apply (Hpast _ _ _ Ht).
      * destruct Heff as (-> & -> & _). by apply (Hpast _ _ _ Ht).
    + by eapply Hfills.
  - intros tr1 t' idx tr2 Heq ev' Hin.
    apply snoc_split in Heq as [(-> & Hx & ->) | (tr2' & -> & ->)].
    + injection Hx as Et Ee. subst t' e. destruct Heff as (_ & -> & _).
      rewrite app_nil_r in Hin. by apply (Hat _ _ _ Ht) in Hin.
    + rewrite app_assoc in Hin. apply in_app_or in Hin as [Hin|[Hin|[]]].
      * by eapply Halone.
      * injection Hin as Et Ee. subst t'.
        destruct (Hlost t idx) as (c' & Hc').
        { apply in_or_app. right. by left. }
        rewrite Ht in Hc'. injection Hc' as _ ->. by apply (Hnotret false).
Qed.

Lemma pool_run_invariant (calls : list label_call) (p0 : process)
  (tr : list (nat * label_event)) (s : process * label_pool) :
  Forall (fun c => call_value c <> 0) calls ->
  pool_run (p0, start_pool calls) tr s ->
  pool_invariant calls p0 tr (fst s) (snd s).
Proof.
  intros Hnz Hrun.
  remember (p0, start_pool calls) as s0 eqn:Es0.
  induction Hrun as [s|s s' s'' tr ev Hrun IH Hstep]; subst.
  - apply pool_invariant_start.
  - destruct s' as [p pool], s'' as [p' pool']. cbn in *.
    eapply pool_invariant_step; eauto.
Qed.

(** The events of a run of the pool. *)
Lemma pool_run_events (p p' : process) (calls : list label_call)
  (pool' : label_pool) (tr : list (nat * label_event)) :
  Forall (fun c => call_value c <> 0) calls ->
  pool_run (p, start_pool calls) tr (p', pool') ->
  (forall idx, (cas_wins idx tr <= 1)%nat)
  /\ (forall idx v, slot_value p idx = Some v -> v <> 0 ->
        cas_wins idx tr = 0%nat
        /\ vec_at (labels p') idx = vec_at (labels p) idx)
  /\ (forall tr1 t ev tr2 idx,
        tr = tr1 ++ (t, ev) :: tr2 -> fills_slot ev idx ->
        In (t, CasWon idx) tr1)
  /\ (forall tr1 t idx tr2,
        tr = tr1 ++ (t, CasLost idx) :: tr2 ->
        forall ev, ~ In (t, ev) (tr1 ++ tr2))
  /\ (forall s t idx s',
        pool_step s (t, CasLost idx) s' -> fst s' = fst s)
  /\ (forall s t ev s',
        pool_step s (t, ev) s' -> (forall idx, ev <> CasWon idx) ->
        forall j, slot_value (fst s') j = slot_value (fst s) j)
  /\ (forall c q,
        label_thread_run 6 c AtCas q =
        set_label (call_prev c) (call_prev_rank c) (call_prev_idx c)
          (call_curr_idx c) (call_value c) (call_tid c) q).
Proof.
  intros Hnz Hrun.
  destruct (pool_run_invariant _ _ _ _ Hnz Hrun)
    as [_ Hwins Hset _ _ _ _ Hfills Halone]. cbn in *.
  split; [intros idx; apply Hwins|].
  split; [exact Hset|].
  split; [exact Hfills|].
  split; [exact Halone|].
  split.
  { intros s t idx s' Hstep.
    inversion Hstep as [? ? ? ? c pc pc' ? Ht Hs]; subst. cbn.
    apply label_thread_step_effect in Hs. by destruct Hs as (_ & _ & _ & -> & _). }
  split; [|apply label_thread_run_set_label].
  intros s t ev s' Hstep Hev j.
  inversion Hstep as [? ? ? ? c pc pc' ? Ht Hs]; subst. cbn.
  apply label_thread_step_effect in Hs. destruct ev.
  - by destruct (Hev idx).
  - by destruct Hs as (_ & _ & _ & -> & _).
  - by destruct Hs as (_ & _ & _ & Hv & _).
  - by destruct Hs as (_ & _ & ->).
  - destruct Hs as (_ & _ & _ & Hl). unfold slot_value. by rewrite Hl.
Qed.

Lemma pool_exec_run (schedule : list nat) :
  forall (s0 s s' : process * label_pool) (tr tr' : list (nat * label_event)),
    pool_run s0 tr s ->
    pool_exec schedule s tr = Some (tr', s') ->
    pool_run s0 tr' s'.
Proof.
  induction schedule as [|t schedule IH]; intros s0 s s' tr tr' Hrun H;
    cbn in H.
  - by injection H as <- <-.
  - destruct s as [p pool]. cbn [fst snd] in H.
    destruct (pool !! t) as [[c pc]|] eqn:Ht; [|discriminate].
    destruct (label_thread_step c pc p) as [[[pc' ev] p']|] eqn:Hs;
      [|discriminate].
    eapply IH; [|exact H]. eapply pool_run_snoc; [exact Hrun|].
    exact (pool_step_thread _ _ _ _ _ _ _ _ Ht Hs).
Qed.


(** ** Step 2: the worker's two handlers *)

Lemma lift_option_eq {A} (o : option A) (a : A) (p : process) :
  o = Some a -> lift_option o p = Some (a, p).
Proof. by intros ->. Qed.

Lemma handle_out_edge_discard (p : process) (entry : edge_entry) (tid : Z)
  (v : vertex) (edge : out_edge) :
  vec_at (vertices p) (vertex_index entry) = Some v ->
  vec_at (out_edges v) (edge_index entry) = Some edge ->
  int_sub (capacity edge) (flow edge) <= 0 ->
  handle_out_edge entry tid p = Some (NO_LOCAL_ID, p).
Proof.
  intros Hv He Hres. unfold handle_out_edge.
  rewrite (bind_eq _ _ _ _ _ (vertex_at_eq _ _ _ Hv)).
  rewrite (bind_eq _ _ _ _ _ (lift_option_eq _ _ p He)).
  apply Z.leb_le in Hres. by rewrite Hres.
Qed.

Lemma handle_out_edge_local (p : process) (entry : edge_entry) (tid : Z)
  (v : vertex) (edge : out_edge) (l : label) :
  vec_at (vertices p) (vertex_index entry) = Some v ->
  vec_at (out_edges v) (edge_index entry) = Some edge ->
  0 < int_sub (capacity edge) (flow edge) ->
  vec_at (labels p) (vertex_index entry) = Some l ->
  rank_location edge = mpi_rank p ->
  handle_out_edge entry tid p =
  match set_label (id v) (mpi_rank p) (vertex_index entry) (vert_index edge)
          (Z.min (int_abs (value l))
             (int_sub (capacity edge) (flow edge))) tid p with
  | Some (true, p') => Some (vert_index edge, p')
  | Some (false, p') => Some (NO_LOCAL_ID, p')
  | None => None
  end.
Proof.
  intros Hv He Hres Hl Hloc. unfold handle_out_edge.
  rewrite (bind_eq _ _ _ _ _ (vertex_at_eq _ _ _ Hv)).
  rewrite (bind_eq _ _ _ _ _ (lift_option_eq _ _ p He)).
  apply Z.leb_gt in Hres. rewrite Hres.
  rewrite (bind_eq _ _ _ _ _ (label_at_eq _ _ _ Hl)).
  rewrite bind_gets. apply Z.eqb_eq in Hloc. rewrite Hloc.
  unfold bind. destruct (set_label _ _ _ _ _ _ p) as [[[] p']|]; reflexivity.
Qed.

Lemma handle_out_edge_remote (p : process) (entry : edge_entry) (tid : Z)
  (v : vertex) (edge : out_edge) (l : label) :
  vec_at (vertices p) (vertex_index entry) = Some v ->
  vec_at (out_edges v) (edge_index entry) = Some edge ->
  0 < int_sub (capacity edge) (flow edge) ->
  vec_at (labels p) (vertex_index entry) = Some l ->
  rank_location edge <> mpi_rank p ->
  handle_out_edge entry tid p =
  Some (NO_LOCAL_ID,
        with_outbox
          (fun o => o ++ [set_to_label_message p v edge
                            (Z.min (int_abs (value l))
                               (int_sub (capacity edge) (flow edge)))])
          (coloured_for (rank_location edge) p)).
Proof.
  intros Hv He Hres Hl Hloc. unfold handle_out_edge.
  rewrite (bind_eq _ _ _ _ _ (vertex_at_eq _ _ _ Hv)).
  rewrite (bind_eq _ _ _ _ _ (lift_option_eq _ _ p He)).
  apply Z.leb_gt in Hres. rewrite Hres.
  rewrite (bind_eq _ _ _ _ _ (label_at_eq _ _ _ Hl)).
  rewrite bind_gets. apply Z.eqb_neq in Hloc. rewrite Hloc.
  rewrite bind_gets. unfold coloured_for, set_to_label_message, MPI_Ssend.
  destruct (rank_location edge <? mpi_rank p).
  - rewrite bind_modify, bind_modify. reflexivity.
  - rewrite bind_ret, bind_modify. reflexivity.
Qed.

Lemma wrap_int_id (z : Z) : in_int_range z -> wrap_int z = z.
Proof.
  unfold in_int_range, INT_MIN, INT_MAX, wrap_int. intros H.
  rewrite Z.mod_small; lia.
Qed.

Lemma int_abs_eq (z : Z) : INT_MIN < z <= INT_MAX -> int_abs z = Z.abs z.
Proof.
  intros H. apply wrap_int_id. unfold in_int_range, INT_MIN, INT_MAX in *.
  lia.
Qed.

(** [set_label] answers [true] exactly when it won the slot of the sink. *)
Lemma set_label_true (p p' : process) (prev : global_id) (prev_rank : Z)
  (prev_idx curr_idx : local_id) (new_value tid : Z) :
  set_label prev prev_rank prev_idx curr_idx new_value tid p = Some (true, p') ->
  exists (l : label) (v : vertex),
    vec_at (labels p) curr_idx = Some l /\ value l = 0
    /\ vec_at (vertices p) curr_idx = Some v /\ id v = sink_id p
    /\ p' = labelled_with curr_idx
              (mk_label new_value prev prev_rank prev_idx) p.
Proof.
  intros H.
  destruct (vec_at (labels p) curr_idx) as [l|] eqn:Hl.
  2:{ unfold set_label, cas_label_value, label_at, bind, gets in H.
      cbn in H. rewrite Hl in H. discriminate. }
  destruct (decide (value l = 0)) as [Hz|Hnz].
  2:{ rewrite (set_label_lost _ _ _ _ _ _ _ _ Hl Hnz) in H. discriminate. }
  destruct (vec_at (vertices p) curr_idx) as [v|] eqn:Hv.
  - rewrite (set_label_won _ _ _ _ _ _ _ _ _ Hl Hz Hv) in H. cbv zeta in H.
    destruct (id v =? sink_id p) eqn:E.
    + apply Z.eqb_eq in E. injection H as <-. by exists l, v.
    + destruct (insert_edges _ _ _) as [[[] p2]|]; discriminate.
  - exfalso. unfold set_label in H.
    apply bind_Some in H as (won & p1 & H1 & H).
    apply cas_label_value_inv in H1 as (l' & Hl' & Hw).
    destruct won; [|unfold ret in H; discriminate].
    destruct Hw as [_ ->].
    apply bind_Some in H as ([] & p2 & H2 & H).
    apply update_label_inv in H2 as (l2 & _ & ->).
    apply bind_Some in H as ([] & p3 & H3 & H).
    apply update_label_inv in H3 as (l3 & _ & ->).
    apply bind_Some in H as ([] & p4 & H4 & H).
    apply update_label_inv in H4 as (l4 & _ & ->).
    apply bind_Some in H as (v & p5 & H5 & H).
    unfold vertex_at, bind, gets in H5. cbn in H5. rewrite Hv in H5.
    discriminate.
Qed.

Lemma bind_assoc {A B C} (m : M A) (f : A -> M B) (g : B -> M C)
  (p : process) :
  bind (bind m f) g p = bind m (fun a => bind (f a) g) p.
Proof. unfold bind. by destruct (m p) as [[a p1]|]. Qed.

(** Running the pure steps at the head of a computation. *)
Ltac mrun :=
  repeat first
    [ rewrite bind_assoc | rewrite bind_gets | rewrite bind_modify
    | rewrite bind_ret ].

Lemma cas_step_3_tid_eq (tid : Z) (p : process) :
  cas_step_3_tid tid p =
  Some (step_3_tid p,
        if step_3_tid p =? -1 then with_step_3_tid tid p else p).
Proof.
  unfold cas_step_3_tid. rewrite bind_gets.
  by destruct (step_3_tid p =? -1).
Qed.

(** A worker whose handler returned a local index signals that the sink was
    found. *)
Lemma worker_process_found (q q2 : process) (tid : Z) (bt0 bt : local_id)
  (entry : edge_entry) :
  algorithm_complete q = false -> sink_found q = false ->
  (if is_outgoing entry then handle_out_edge entry tid
   else handle_in_edge entry tid) (entered_work q) = Some (bt, q2) ->
  bt <> NO_LOCAL_ID ->
  exists q' : process,
    worker_process tid bt0 entry q = Some ((WorkerBreak, bt), q')
    /\ sink_found q' = true
    /\ outbox q' = outbox q2 ++ [mk_sent (mpi_rank q2) SINK_FOUND NoPayload]
    /\ labels q' = labels q2 /\ vertices q' = vertices q2.
Proof.
  intros Hac Hsf Hh Hbt. unfold worker_process.
  rewrite bind_gets, Hac. unfold working_threads_add.
  rewrite !bind_modify, bind_gets.
  cbn [sink_found with_queue_is_empty with_working_threads]. rewrite Hsf.
  fold (entered_work q). rewrite (bind_eq _ _ _ _ _ Hh).
  apply Z.eqb_neq in Hbt. rewrite Hbt. cbn [negb].
  rewrite (bind_eq _ _ _ _ _ (cas_step_3_tid_eq tid q2)).
  unfold ERROR, MPI_Ssend, working_threads_sub.
  destruct (step_3_tid q2 =? -1); mrun;
    (eexists; split; [reflexivity|]);
    destruct (debug_mode q2); by repeat split.
Qed.

(** C4: for a popped outgoing-edge entry (u -> v) the worker discards the
    entry when capacity - flow <= 0; otherwise the proposed label is
    min(|label(u)|, capacity - flow), positive.  When v is on this rank the
    worker calls [set_label] on v's slot with it: a set slot is left alone, an
    empty slot is filled, the local index of v is returned exactly when v is
    the sink, and the worker then raises [sink_found] and sends SINK_FOUND to
    its own router.  When v is on another rank the worker sends SET_TO_LABEL
    with the proposed value to that rank and labels nothing. *)
Theorem handle_out_edge_proposes_label (p : process) (entry : edge_entry)
  (tid : Z) (v : vertex) (edge : out_edge) :
  vec_at (vertices p) (vertex_index entry) = Some v ->
  vec_at (out_edges v) (edge_index entry) = Some edge ->
  let residual := int_sub (capacity edge) (flow edge) in
  (in_int_range (capacity edge - flow edge) ->
   residual = capacity edge - flow edge)
  /\ (residual <= 0 -> handle_out_edge entry tid p = Some (NO_LOCAL_ID, p))
  /\ (forall l : label,
        0 < residual ->
        vec_at (labels p) (vertex_index entry) = Some l ->
        let proposed := Z.min (int_abs (value l)) residual in
        let filled :=
          labelled_with (vert_index edge)
            (mk_label proposed (id v) (mpi_rank p) (vertex_index entry)) p in
        (INT_MIN < value l <= INT_MAX -> int_abs (value l) = Z.abs (value l))
        /\ (rank_location edge = mpi_rank p ->
            forall (lv : label) (w : vertex),
              vec_at (labels p) (vert_index edge) = Some lv ->
              vec_at (vertices p) (vert_index edge) = Some w ->
              (value lv <> 0 ->
               handle_out_edge entry tid p = Some (NO_LOCAL_ID, p))
              /\ (value lv = 0 -> id w = sink_id p ->
                  handle_out_edge entry tid p =
                  Some (vert_index edge, filled))
              /\ (value lv = 0 -> id w <> sink_id p ->
                  handle_out_edge entry tid p =
                  match insert_edges (vert_index edge) tid filled with
                  | Some (_, p2) => Some (NO_LOCAL_ID, p2)
                  | None => None
                  end))
        /\ (rank_location edge <> mpi_rank p ->
            handle_out_edge entry tid p =
            Some (NO_LOCAL_ID,
                  with_outbox
                    (fun o => o ++ [set_to_label_message p v edge proposed])
                    (coloured_for (rank_location edge) p))))
  /\ (forall (q q2 : process) (bt0 bt : local_id),
        is_outgoing entry = true ->
        algorithm_complete q = false -> sink_found q = false ->
        handle_out_edge entry tid (entered_work q) = Some (bt, q2) ->
        bt <> NO_LOCAL_ID ->
        exists q' : process,
          worker_process tid bt0 entry q = Some ((WorkerBreak, bt), q')
          /\ sink_found q' = true
          /\ outbox q' =
             outbox q2 ++ [mk_sent (mpi_rank q2) SINK_FOUND NoPayload]).
Proof.
  intros Hv He residual.
  split; [intros Hr; by apply wrap_int_id|].
  split; [by apply (handle_out_edge_discard p entry tid v edge)|].
  split.
  - intros l Hres Hl proposed filled.
    split; [apply int_abs_eq|]. split.
    + intros Hloc lv w Hlv Hw.
      rewrite (handle_out_edge_local p entry tid v edge l Hv He Hres Hl Hloc).
      fold residual. fold proposed.
      split; [|split].
      * intros Hnz. by rewrite (set_label_lost _ _ _ _ _ _ _ _ Hlv Hnz).
      * intros Hz Hsink.
        rewrite (set_label_won _ _ _ _ _ _ _ _ _ Hlv Hz Hw). cbv zeta.
        apply Z.eqb_eq in Hsink. by rewrite Hsink.
      * intros Hz Hsink.
        rewrite (set_label_won _ _ _ _ _ _ _ _ _ Hlv Hz Hw). cbv zeta.
        apply Z.eqb_neq in Hsink. rewrite Hsink. fold filled.
        by destruct (insert_edges _ _ filled) as [[[] p2]|].
    + by apply handle_out_edge_remote.
  - intros q q2 bt0 bt Hout Hac Hsf Hh Hbt.
    destruct (worker_process_found q q2 tid bt0 bt entry Hac Hsf)
      as (q' & H1 & H2 & H3 & _); [by rewrite Hout | exact Hbt |].
    by exists q'.
Qed.

(** The single edge 0 -> 1 of capacity 5, popped right after step 1: the
    worker labels the sink with 5 and returns its index. *)
Lemma handle_out_edge_proposes_label_witness :
  let p :=
    labelled_with 0 (mk_label INT_MAX 0 0 0)
      (initial_process 0 1 false [0; 0] 2 [[(1, 5)]; []]) in
  handle_out_edge (mk_edge_entry 0 true 0) 1 p =
  Some (1, labelled_with 1 (mk_label 5 0 0 0) p).
Proof.
  intros p.
  pose proof (handle_out_edge_proposes_label p (mk_edge_entry 0 true 0) 1
                (mk_vertex 0 [mk_out_edge 1 0 1 5 0] [])
                (mk_out_edge 1 0 1 5 0) eq_refl eq_refl) as H.
  cbv zeta in H. destruct H as (_ & _ & H & _).
  destruct (H (mk_label INT_MAX 0 0 0) eq_refl eq_refl) as (_ & Hloc & _).
  destruct (Hloc eq_refl EMPTY_LABEL (mk_vertex 1 [] [mk_in_edge 0 0 0])
              eq_refl eq_refl) as (_ & Hsink & _).
  exact (Hsink eq_refl eq_refl).
Defined.

Lemma handle_in_edge_local (p : process) (entry : edge_entry) (tid : Z)
  (v u : vertex) (rev_edge : in_edge) :
  vec_at (vertices p) (vertex_index entry) = Some v ->
  vec_at (in_edges v) (edge_index entry) = Some rev_edge ->
  in_rank_location rev_edge = mpi_rank p ->
  vec_at (vertices p) (in_vert_index rev_edge) = Some u ->
  let curr_flow :=
    flow_by_vert_index (out_edges u) (vertex_index entry) (-1) in
  (curr_flow <= 0 -> handle_in_edge entry tid p = Some (NO_LOCAL_ID, p))
  /\ (forall l : label,
        0 < curr_flow ->
        vec_at (labels p) (vertex_index entry) = Some l ->
        handle_in_edge entry tid p =
        match set_label (id v) (mpi_rank p) (vertex_index entry)
                (in_vert_index rev_edge)
                (int_neg (Z.min (int_abs (value l)) curr_flow)) tid p with
        | Some (true, p') =>
            Some (in_vert_index rev_edge,
                  if debug_mode p'
                  then with_stderr
                         (fun e => e ++ ["outgoing edge from sink!"]) p'
                  else p')
        | Some (false, p') => Some (NO_LOCAL_ID, p')
        | None => None
        end).
Proof.
  intros Hv He Hloc Hu curr_flow. unfold handle_in_edge.
  rewrite (bind_eq _ _ _ _ _ (vertex_at_eq _ _ _ Hv)).
  rewrite (bind_eq _ _ _ _ _ (lift_option_eq _ _ p He)).
  rewrite bind_gets. apply Z.eqb_eq in Hloc. rewrite Hloc.
  rewrite (bind_eq _ _ _ _ _ (vertex_at_eq _ _ _ Hu)).
  fold curr_flow. split.
  - intros Hle. apply Z.leb_le in Hle. by rewrite Hle.
  - intros l Hgt Hl. apply Z.leb_gt in Hgt. rewrite Hgt.
    rewrite (bind_eq _ _ _ _ _ (label_at_eq _ _ _ Hl)).
    unfold bind at 1.
    destruct (set_label _ _ _ _ _ _ p) as [[[] p']|]; reflexivity.
Qed.

Lemma handle_in_edge_remote (p : process) (entry : edge_entry) (tid : Z)
  (v : vertex) (rev_edge : in_edge) (l : label) :
  vec_at (vertices p) (vertex_index entry) = Some v ->
  vec_at (in_edges v) (edge_index entry) = Some rev_edge ->
  in_rank_location rev_edge <> mpi_rank p ->
  vec_at (labels p) (vertex_index entry) = Some l ->
  handle_in_edge entry tid p =
  Some (NO_LOCAL_ID,
        with_outbox
          (fun o => o ++ [compute_from_label_message p v rev_edge l])
          (coloured_for (in_rank_location rev_edge) p)).
Proof.
  intros Hv He Hloc Hl. unfold handle_in_edge.
  rewrite (bind_eq _ _ _ _ _ (vertex_at_eq _ _ _ Hv)).
  rewrite (bind_eq _ _ _ _ _ (lift_option_eq _ _ p He)).
  rewrite bind_gets. apply Z.eqb_neq in Hloc. rewrite Hloc.
  rewrite (bind_eq _ _ _ _ _ (label_at_eq _ _ _ Hl)).
  rewrite bind_gets.
  unfold coloured_for, compute_from_label_message, MPI_Ssend.
  destruct (in_rank_location rev_edge <? mpi_rank p).
  - rewrite bind_modify, bind_modify. reflexivity.
  - rewrite bind_ret, bind_modify. reflexivity.
Qed.

(** The two search loops return the flow of the first matching edge. *)
Lemma flow_by_vert_index_first (es : list out_edge) (to_id : local_id)
  (d : Z) (n : nat) (e : out_edge) :
  es !! n = Some e -> vert_index e = to_id ->
  (forall (m : nat) (e' : out_edge),
      (m < n)%nat -> es !! m = Some e' -> vert_index e' <> to_id) ->
  flow_by_vert_index es to_id d = flow e.
Proof.
  revert n. induction es as [|x es IH]; intros n Hn He Hfirst; [done|].
  cbn. destruct n as [|n].
  - injection Hn as ->. apply Z.eqb_eq in He. by rewrite He.
  - assert (Hx : vert_index x <> to_id) by (apply (Hfirst 0%nat); [lia|done]).
    apply Z.eqb_neq in Hx. rewrite Hx. apply (IH n); [done..|].
    intros m e' Hm Hm'. apply (Hfirst (S m)); [lia|done].
Qed.

Lemma flow_by_vert_index_none (es : list out_edge) (to_id : local_id)
  (d : Z) :
  Forall (fun e => vert_index e <> to_id) es ->
  flow_by_vert_index es to_id d = d.
Proof.
  induction 1 as [|x es Hx _ IH]; [done|]. cbn.
  apply Z.eqb_neq in Hx. by rewrite Hx.
Qed.

Lemma flow_by_dest_node_id_first (es : list out_edge) (dest : global_id)
  (d : Z) (n : nat) (e : out_edge) :
  es !! n = Some e -> dest_node_id e = dest ->
  (forall (m : nat) (e' : out_edge),
      (m < n)%nat -> es !! m = Some e' -> dest_node_id e' <> dest) ->
  flow_by_dest_node_id es dest d = flow e.
Proof.
  revert n. induction es as [|x es IH]; intros n Hn He Hfirst; [done|].
  cbn. destruct n as [|n].
  - injection Hn as ->. apply Z.eqb_eq in He. by rewrite He.
  - assert (Hx : dest_node_id x <> dest)
      by (apply (Hfirst 0%nat); [lia|done]).
    apply Z.eqb_neq in Hx. rewrite Hx. apply (IH n); [done..|].
    intros m e' Hm Hm'. apply (Hfirst (S m)); [lia|done].
Qed.

Lemma flow_by_dest_node_id_none (es : list out_edge) (dest : global_id)
  (d : Z) :
  Forall (fun e => dest_node_id e <> dest) es ->
  flow_by_dest_node_id es dest d = d.
Proof.
  induction 1 as [|x es Hx _ IH]; [done|]. cbn.
  apply Z.eqb_neq in Hx. by rewrite Hx.
Qed.

Lemma lookup_global_id_eq (gid : global_id) (p : process) :
  lookup_global_id gid p =
  Some (match global_to_local p !! gid with
        | Some i => i
        | None => NO_LOCAL_ID
        end, p).
Proof. reflexivity. Qed.

(** The COMPUTE_FROM_LABEL case of the router for a message that is neither
    misrouted nor stale. *)
Lemma router_step_compute_from_label (q : process) (tid : Z)
  (bt : local_id) (stat_source : Z) (msg : message_data) (peers : list Z)
  (vert_idx : local_id) (w : vertex) :
  global_to_local q !! receivers_node msg = Some vert_idx ->
  vert_idx <> NO_LOCAL_ID ->
  msg_pass msg = pass q ->
  vec_at (vertices q) vert_idx = Some w ->
  let curr_flow :=
    flow_by_dest_node_id (out_edges w) (senders_node msg) 0 in
  (curr_flow <= 0 ->
   router_step tid bt stat_source (int_of_tag COMPUTE_FROM_LABEL) msg peers q
   = Some ((LoopAgain, bt), router_idle (router_busy q)))
  /\ (0 < curr_flow ->
      router_step tid bt stat_source (int_of_tag COMPUTE_FROM_LABEL) msg
        peers q =
      (found <- set_label (senders_node msg) stat_source NO_LOCAL_ID vert_idx
                  (int_neg (Z.min (int_abs (msg_value msg)) curr_flow)) tid;;
       if found : bool then
         ERROR "outgoing edge from sink!";;;
         claim_step_3 tid;;;
         working_threads_sub 1;;; ret (LoopAgain, vert_idx)
       else working_threads_sub 1;;; ret (LoopAgain, bt)) (router_busy q)).
Proof.
  intros Hg Hne Hpass Hw curr_flow. unfold router_step.
  change (tag_of_int (int_of_tag COMPUTE_FROM_LABEL))
    with (Some COMPUTE_FROM_LABEL). cbv iota.
  unfold working_threads_add. rewrite bind_modify. fold (router_busy q).
  rewrite (bind_eq _ _ _ _ _ (lookup_global_id_eq _ _)).
  change (global_to_local (router_busy q)) with (global_to_local q).
  rewrite Hg. apply Z.eqb_neq in Hne. rewrite Hne.
  rewrite bind_gets. change (pass (router_busy q)) with (pass q).
  rewrite Hpass, Z.eqb_refl. cbn [negb].
  assert (Hw' : vec_at (vertices (router_busy q)) vert_idx = Some w)
    by exact Hw.
  rewrite (bind_eq _ _ _ _ _ (vertex_at_eq _ _ _ Hw')).
  fold curr_flow. split.
  - intros Hle. apply Z.leb_le in Hle. rewrite Hle.
    unfold working_threads_sub. by rewrite bind_modify.
  - intros Hgt. apply Z.leb_gt in Hgt. by rewrite Hgt.
Qed.

Lemma int_neg_min_abs (x f : Z) :
  INT_MIN < x <= INT_MAX -> 0 < f <= INT_MAX ->
  int_neg (Z.min (int_abs x) f) = - Z.min (Z.abs x) f.
Proof.
  intros Hx Hf. rewrite (int_abs_eq x Hx). apply wrap_int_id.
  unfold in_int_range, INT_MIN, INT_MAX in *. lia.
Qed.

(** C5: for a popped reverse-edge entry (v <- u) the proposed label is
    -min(|label(v)|, flow(u->v)) and nothing is labelled when that flow is
    not positive.  When u is on this rank the worker reads the flow from u's
    edge table (the first outgoing edge of u that leads to v) and calls
    [set_label] on u's slot.  When u is on another rank the worker sends
    COMPUTE_FROM_LABEL with label(v); the router that receives it looks the
    flow up in the outgoing edges of its node towards the sender's node and
    calls [set_label] with -min(|value|, flow) only when the flow is
    positive. *)
Theorem handle_in_edge_proposes_label (p : process) (entry : edge_entry)
  (tid : Z) (v : vertex) (rev_edge : in_edge) (l : label) :
  vec_at (vertices p) (vertex_index entry) = Some v ->
  vec_at (in_edges v) (edge_index entry) = Some rev_edge ->
  vec_at (labels p) (vertex_index entry) = Some l ->
  (in_rank_location rev_edge = mpi_rank p ->
   forall u : vertex,
     vec_at (vertices p) (in_vert_index rev_edge) = Some u ->
     let curr_flow :=
       flow_by_vert_index (out_edges u) (vertex_index entry) (-1) in
     (forall (n : nat) (e : out_edge),
         out_edges u !! n = Some e -> vert_index e = vertex_index entry ->
         (forall (m : nat) (e' : out_edge),
             (m < n)%nat -> out_edges u !! m = Some e' ->
             vert_index e' <> vertex_index entry) ->
         curr_flow = flow e)
     /\ (curr_flow <= 0 ->
         handle_in_edge entry tid p = Some (NO_LOCAL_ID, p))
     /\ (0 < curr_flow ->
         handle_in_edge entry tid p =
         match set_label (id v) (mpi_rank p) (vertex_index entry)
                 (in_vert_index rev_edge)
                 (int_neg (Z.min (int_abs (value l)) curr_flow)) tid p with
         | Some (true, p') =>
             Some (in_vert_index rev_edge,
                   if debug_mode p'
                   then with_stderr
                          (fun e => e ++ ["outgoing edge from sink!"]) p'
                   else p')
         | Some (false, p') => Some (NO_LOCAL_ID, p')
         | None => None
         end))
  /\ (in_rank_location rev_edge <> mpi_rank p ->
      handle_in_edge entry tid p =
      Some (NO_LOCAL_ID,
            with_outbox
              (fun o => o ++ [compute_from_label_message p v rev_edge l])
              (coloured_for (in_rank_location rev_edge) p)))
  /\ (forall (q : process) (rtid : Z) (bt : local_id) (stat_source : Z)
        (peers : list Z) (vert_idx : local_id) (w : vertex),
        let msg :=
          mk_message_data (id v) (in_dest_node_id rev_edge) (value l)
            (pass p) in
        global_to_local q !! in_dest_node_id rev_edge = Some vert_idx ->
        vert_idx <> NO_LOCAL_ID ->
        pass p = pass q ->
        vec_at (vertices q) vert_idx = Some w ->
        let curr_flow := flow_by_dest_node_id (out_edges w) (id v) 0 in
        (forall (n : nat) (e : out_edge),
            out_edges w !! n = Some e -> dest_node_id e = id v ->
            (forall (m : nat) (e' : out_edge),
                (m < n)%nat -> out_edges w !! m = Some e' ->
                dest_node_id e' <> id v) ->
            curr_flow = flow e)
        /\ (curr_flow <= 0 ->
            router_step rtid bt stat_source (int_of_tag COMPUTE_FROM_LABEL)
              msg peers q =
            Some ((LoopAgain, bt), router_idle (router_busy q)))
        /\ (0 < curr_flow ->
            router_step rtid bt stat_source (int_of_tag COMPUTE_FROM_LABEL)
              msg peers q =
            (found <- set_label (id v) stat_source NO_LOCAL_ID vert_idx
                        (int_neg (Z.min (int_abs (value l)) curr_flow)) rtid;;
             if found : bool then
               ERROR "outgoing edge from sink!";;;
               claim_step_3 rtid;;;
               working_threads_sub 1;;; ret (LoopAgain, vert_idx)
             else working_threads_sub 1;;; ret (LoopAgain, bt))
              (router_busy q)))
  /\ (forall f : Z,
        INT_MIN < value l <= INT_MAX -> 0 < f <= INT_MAX ->
        int_neg (Z.min (int_abs (value l)) f) = - Z.min (Z.abs (value l)) f).
Proof.
  intros Hv He Hl. split; [|split; [|split]].
  - intros Hloc u Hu curr_flow.
    destruct (handle_in_edge_local p entry tid v u rev_edge Hv He Hloc Hu)
      as [Hd Hs].
    split; [|split].
    + intros n e Hn Hidx Hfirst.
      by apply (flow_by_vert_index_first _ _ _ n).
    + exact Hd.
    + intros Hpos. by apply Hs.
  - intros Hrem. by apply handle_in_edge_remote.
  - intros q rtid bt stat_source peers vert_idx w msg Hg Hne Hpass Hw curr_flow.
    destruct (router_step_compute_from_label q rtid bt stat_source msg peers
                vert_idx w Hg Hne Hpass Hw) as [Hd Hs].
    split; [|split].
    + intros n e Hn Hidx Hfirst.
      by apply (flow_by_dest_node_id_first _ _ _ n).
    + exact Hd.
    + exact Hs.
  - intros f. apply int_neg_min_abs.
Qed.

(** The reverse edge (1 <- 0) popped in [sample_backflow]: vertex 0 gets
    the label -min(7, 3) with vertex 1 as predecessor. *)
Lemma handle_in_edge_proposes_label_witness :
  handle_in_edge (mk_edge_entry 1 false 0) 1 sample_backflow =
  Some (NO_LOCAL_ID,
        with_edge_queue (fun q => q ++ [])
          (labelled_with 0 (mk_label (-3) 1 0 1) sample_backflow)).
Proof.
  pose proof (handle_in_edge_proposes_label sample_backflow
                (mk_edge_entry 1 false 0) 1
                (mk_vertex 1 [] [mk_in_edge 0 0 0]) (mk_in_edge 0 0 0)
                (mk_label 7 8 0 2) eq_refl eq_refl eq_refl) as (Hloc & _).
  destruct (Hloc eq_refl (mk_vertex 0 [mk_out_edge 1 0 1 4 3] []) eq_refl)
    as (_ & _ & Hs).
  exact (Hs eq_refl).
Defined.

(** ** What [set_label] leaves alone *)

Lemma relabelled_self (p : process) :
  relabelled (labels p) (edge_queue p) p = p.
Proof. by destruct p. Qed.

Lemma relabelled_labelled_with (i : local_id) (l : label) (ls : list label)
  (q : EdgeQueue) (p : process) :
  labelled_with i l (relabelled ls q p) = relabelled (vec_set ls i l) q p.
Proof. reflexivity. Qed.

Lemma relabelled_enqueue (f : EdgeQueue -> EdgeQueue) (ls : list label)
  (q : EdgeQueue) (p : process) :
  with_edge_queue f (relabelled ls q p) = relabelled ls (f q) p.
Proof. reflexivity. Qed.

Lemma set_label_frame (p p' : process) (prev : global_id) (prev_rank : Z)
  (prev_idx curr_idx : local_id) (new_value tid : Z) (b : bool) :
  set_label prev prev_rank prev_idx curr_idx new_value tid p = Some (b, p') ->
  exists (ls : list label) (q : EdgeQueue), p' = relabelled ls q p.
Proof.
  intros H. unfold set_label in H.
  apply bind_Some in H as (won & p1 & H1 & H).
  apply cas_label_value_inv in H1 as (l & Hl & Hw).
  destruct won.
  2:{ destruct Hw as [_ ->]. unfold ret in H. injection H as _ <-.
      exists (labels p), (edge_queue p). by rewrite relabelled_self. }
  destruct Hw as [_ ->].
  rewrite <- (relabelled_self p) in H. rewrite relabelled_labelled_with in H.
  apply bind_Some in H as ([] & p2 & H2 & H).
  apply update_label_inv in H2 as (l2 & _ & ->).
  rewrite relabelled_labelled_with in H.
  apply bind_Some in H as ([] & p3 & H3 & H).
  apply update_label_inv in H3 as (l3 & _ & ->).
  rewrite relabelled_labelled_with in H.
  apply bind_Some in H as ([] & p4 & H4 & H).
  apply update_label_inv in H4 as (l4 & _ & ->).
  rewrite relabelled_labelled_with in H.
  apply bind_Some in H as (v & p5 & H5 & H).
  assert (p5 = relabelled
                 (vec_set (vec_set (vec_set (vec_set (labels p) curr_idx
                    (mk_label new_value (prev_node l) (prev_rank_loc l)
                       (prev_vert_index l))) curr_idx
                    (mk_label (value l2) prev (prev_rank_loc l2)
                       (prev_vert_index l2))) curr_idx
                    (mk_label (value l3) (prev_node l3) prev_rank
                       (prev_vert_index l3))) curr_idx
                    (mk_label (value l4) (prev_node l4) (prev_rank_loc l4)
                       prev_idx))
                 (edge_queue p) p) as -> by run_reads.
  rewrite bind_gets in H.
  destruct (id v =? _).
  - unfold ret in H. injection H as _ <-. eauto.
  - apply bind_Some in H as ([] & p6 & H6 & H).
    apply insert_edges_frame in H6 as (f & ->).
    rewrite relabelled_enqueue in H.
    unfold ret in H. injection H as _ <-. eauto.
Qed.

(** ** The colour of a sender *)

Lemma newly_sent_none (p p' : process) :
  outbox p' = outbox p -> newly_sent p p' = [].
Proof. intros H. unfold newly_sent. rewrite H. apply drop_all. Qed.

Lemma newly_sent_one (p p' : process) (s : sent) :
  outbox p' = outbox p ++ [s] -> newly_sent p p' = [s].
Proof. intros H. unfold newly_sent. rewrite H. apply drop_app_length. Qed.

Lemma handle_out_edge_sends (p p' : process) (entry : edge_entry) (tid : Z)
  (a : local_id) :
  handle_out_edge entry tid p = Some (a, p') ->
  sent_at_most SET_TO_LABEL p p'.
Proof.
  unfold handle_out_edge. intros H.
  apply bind_Some in H as (v & p1 & H1 & H).
  assert (p1 = p) as -> by run_reads. clear H1.
  apply bind_Some in H as (edge & p1 & H1 & H).
  assert (p1 = p) as -> by run_reads. clear H1.
  destruct (_ <=? 0).
  { injection H as _ <-. left. by rewrite newly_sent_none. }
  apply bind_Some in H as (l & p1 & H1 & H).
  assert (p1 = p) as -> by run_reads. clear H1.
  rewrite bind_gets in H.
  destruct (rank_location edge =? mpi_rank p) eqn:Hloc.
  - apply bind_Some in H as (found & p1 & H1 & H).
    apply set_label_frame in H1 as (ls & q & ->).
    left. destruct found; injection H as _ <-; by rewrite newly_sent_none.
  - apply Z.eqb_neq in Hloc. rewrite bind_gets in H. right.
    unfold MPI_Ssend in H.
    destruct (rank_location edge <? mpi_rank p) eqn:Hlow;
      rewrite ?bind_ret, ?bind_modify in H; injection H as _ <-;
      eexists; (split; [by apply newly_sent_one|]); cbn; by rewrite ?Hlow.
Qed.

Lemma handle_in_edge_sends (p p' : process) (entry : edge_entry) (tid : Z)
  (a : local_id) :
  handle_in_edge entry tid p = Some (a, p') ->
  sent_at_most COMPUTE_FROM_LABEL p p'.
Proof.
  unfold handle_in_edge. intros H.
  apply bind_Some in H as (v & p1 & H1 & H).
  assert (p1 = p) as -> by run_reads. clear H1.
  apply bind_Some in H as (edge & p1 & H1 & H).
  assert (p1 = p) as -> by run_reads. clear H1.
  rewrite bind_gets in H.
  destruct (in_rank_location edge =? mpi_rank p) eqn:Hloc.
  - apply bind_Some in H as (u & p1 & H1 & H).
    assert (p1 = p) as -> by run_reads. clear H1.
    destruct (_ <=? 0).
    { injection H as _ <-. left. by rewrite newly_sent_none. }
    apply bind_Some in H as (l & p1 & H1 & H).
    assert (p1 = p) as -> by run_reads. clear H1.
    apply bind_Some in H as (found & p1 & H1 & H).
    apply set_label_frame in H1 as (ls & q & ->).
    left. destruct found.
    + unfold ERROR in H. rewrite bind_modify in H. injection H as _ <-.
      destruct (debug_mode _); by rewrite newly_sent_none.
    + injection H as _ <-. by rewrite newly_sent_none.
  - apply Z.eqb_neq in Hloc.
    apply bind_Some in H as (l & p1 & H1 & H).
    assert (p1 = p) as -> by run_reads. clear H1.
    rewrite bind_gets in H. right. unfold MPI_Ssend in H.
    destruct (in_rank_location edge <? mpi_rank p) eqn:Hlow;
      rewrite ?bind_ret, ?bind_modify in H; injection H as _ <-;
      eexists; (split; [by apply newly_sent_one|]); cbn; by rewrite ?Hlow.
Qed.

Lemma sent_at_most_red {A} (m : M A) (tag : message_tags) (p : process) :
  (forall a p', m p = Some (a, p') -> sent_at_most tag p p') ->
  red_after_sending_down m p.
Proof.
  intros Hm a p' H (s & Hin & Hlow).
  destruct (Hm a p' H) as [[Hnone _] | (s' & Hone & _ & _ & Hcol)].
  - rewrite Hnone in Hin. destruct Hin.
  - rewrite Hone in Hin. destruct Hin as [<- | []].
    apply Z.ltb_lt in Hlow. by rewrite Hlow in Hcol.
Qed.

(** The token leaves with the colour of the process if that is red, with its
    own colour otherwise, and the process is white afterwards. *)
Lemma worker_idle_forwards (p : process) :
  have_token p = true -> working_threads p = 0 -> sink_found p = false ->
  exists p' : process,
    worker_idle p = Some (tt, p')
    /\ newly_sent p p' =
       [mk_sent (Z.rem (mpi_rank p + 1) (mpi_size p))
          (match my_color p with
           | TOKEN_RED => TOKEN_RED
           | _ => token_color p
           end) NoPayload]
    /\ my_color p' = TOKEN_WHITE /\ have_token p' = false
    /\ queue_is_empty p' = true.
Proof.
  intros Ht Hw Hs. unfold worker_idle. rewrite bind_modify. mrun.
  cbn [have_token working_threads sink_found with_queue_is_empty].
  rewrite Ht, Hw, Hs. cbn [andb negb Z.eqb]. mrun.
  cbn [my_color with_queue_is_empty]. unfold MPI_Ssend.
  destruct (my_color p); mrun;
    (eexists; split; [reflexivity|]);
    (split; [by apply newly_sent_one|]); by repeat split.
Qed.

Lemma worker_idle_keeps (p : process) :
  have_token p && (working_threads p =? 0) && negb (sink_found p) = false ->
  worker_idle p = Some (tt, with_queue_is_empty true p).
Proof.
  intros H. unfold worker_idle. rewrite bind_modify. mrun.
  cbn [have_token working_threads sink_found with_queue_is_empty].
  by rewrite H.
Qed.

(** C9 as stated fails: the last rank forwards the token to rank 0, a lower
    rank, and is white once the send has completed. *)
Lemma token_to_rank_0_leaves_sender_white :
  ~ red_after_sending_down worker_idle sample_last_rank.
Proof.
  intros H.
  destruct (worker_idle_forwards sample_last_rank eq_refl eq_refl eq_refl)
    as (p' & Hrun & Hsent & Hwhite & _).
  specialize (H tt p' Hrun). rewrite Hwhite in H.
  assert (TOKEN_WHITE = TOKEN_RED); [|discriminate].
  apply H. eexists. rewrite Hsent. split; [by left|]. reflexivity.
Qed.

(** C9, amended: the colour rule holds for the messages of the labelling
    search.  Whenever [handle_out_edge] or [handle_in_edge] returns, it has
    sent at most one message, a SET_TO_LABEL respectively COMPUTE_FROM_LABEL
    to another rank, and if that rank is lower the colour of the sender is
    red.  Forwarding the token is not covered by the rule: the forwarder is
    white after the send, also when the token goes from the last rank to
    rank 0. *)
Theorem work_sent_down_turns_sender_red (p : process) (entry : edge_entry)
  (tid : Z) :
  red_after_sending_down (handle_out_edge entry tid) p
  /\ red_after_sending_down (handle_in_edge entry tid) p
  /\ (forall (a : local_id) (p' : process),
        handle_out_edge entry tid p = Some (a, p') ->
        sent_at_most SET_TO_LABEL p p')
  /\ (forall (a : local_id) (p' : process),
        handle_in_edge entry tid p = Some (a, p') ->
        sent_at_most COMPUTE_FROM_LABEL p p')
  /\ (have_token p = true -> working_threads p = 0 -> sink_found p = false ->
      exists p' : process,
        worker_idle p = Some (tt, p')
        /\ newly_sent p p' =
           [mk_sent (Z.rem (mpi_rank p + 1) (mpi_size p))
              (match my_color p with
               | TOKEN_RED => TOKEN_RED
               | _ => token_color p
               end) NoPayload]
        /\ my_color p' = TOKEN_WHITE).
Proof.
  split; [|split; [|split; [|split]]].
  - apply (sent_at_most_red _ SET_TO_LABEL). intros a p'.
    apply handle_out_edge_sends.
  - apply (sent_at_most_red _ COMPUTE_FROM_LABEL). intros a p'.
    apply handle_in_edge_sends.
  - intros a p'. apply handle_out_edge_sends.
  - intros a p'. apply handle_in_edge_sends.
  - intros Ht Hw Hs.
    destruct (worker_idle_forwards p Ht Hw Hs) as (p' & H1 & H2 & H3 & _).
    by exists p'.
Qed.

(** ** Step 3 *)

Lemma lookup_map {A B} (f : A -> B) (l : list A) (i : nat) :
  map f l !! i = f <$> (l !! i).
Proof. apply list_lookup_fmap. Qed.

Lemma with_vertices_same (p : process) :
  with_vertices (fun _ => vertices p) p = p.
Proof. by destruct p. Qed.

(** The second half of the visit, after the flows have been updated. *)
Lemma step_3_local_move (p p1 : process) (loc : step_3_locals) (l : label)
  (vb vb1 : vertex) :
  vec_at (vertices p1) (bt_idx loc) = Some vb1 -> id vb1 = id vb ->
  source_id p1 = source_id p -> mpi_size p1 = mpi_size p ->
  pass p1 = pass p ->
  (if negb (prev_rank_loc l =? mpi_rank p)
   then
     vb0 <- vertex_at (bt_idx loc);;
     ps <- gets pass;;
     MPI_Ssend
       (MsgPayload
          (mk_message_data (id vb0) (prev_node l) (sink_value loc) ps))
       (prev_rank_loc l) UPDATE_FLOW;;;
     ret (mk_step_3_locals NO_LOCAL_ID (sink_value loc)
            (wait_for_source_found loc) (step_3_done loc))
   else
     src <- gets source_id;;
     if (bt_idx loc =? prev_vert_index l) && (prev_node l =? src)
     then sz <- gets mpi_size;;
          ret (mk_step_3_locals (bt_idx loc) (sink_value loc) (sz >? 1) true)
     else ret (mk_step_3_locals (prev_vert_index l) (sink_value loc)
                 (wait_for_source_found loc) (step_3_done loc))) p1 =
  Some (step_3_next p loc l,
        (if prev_rank_loc l =? mpi_rank p then fun x => x
         else with_outbox
                (fun o => o ++ [update_flow_message p vb l (sink_value loc)]))
          p1).
Proof.
  intros Hb Hid Hsrc Hsz Hpass. unfold step_3_next.
  destruct (prev_rank_loc l =? mpi_rank p); cbn [negb].
  - rewrite bind_gets, Hsrc.
    destruct ((bt_idx loc =? prev_vert_index l)
              && (prev_node l =? source_id p)); [|reflexivity].
    by rewrite bind_gets, Hsz.
  - rewrite (bind_eq _ _ _ _ _ (vertex_at_eq _ _ _ Hb)).
    rewrite bind_gets. unfold MPI_Ssend. rewrite bind_modify.
    unfold update_flow_message. by rewrite Hid, Hpass.
Qed.

Lemma step_3_local_eq (p : process) (loc : step_3_locals) (l : label)
  (vb : vertex) :
  vec_at (labels p) (bt_idx loc) = Some l ->
  vec_at (vertices p) (bt_idx loc) = Some vb ->
  (value l > 0 -> prev_rank_loc l = mpi_rank p ->
   is_Some (vec_at (vertices p) (prev_vert_index l))) ->
  step_3_local loc p =
  Some (step_3_next p loc l,
        (if prev_rank_loc l =? mpi_rank p then fun x => x
         else with_outbox
                (fun o => o ++ [update_flow_message p vb l (sink_value loc)]))
          (with_vertices
             (fun _ => backtrack_vertices p (bt_idx loc) l vb
                         (sink_value loc)) p)).
Proof.
  intros Hl Hb Hprev. unfold step_3_local, backtrack_vertices.
  rewrite (bind_eq _ _ _ _ _ (label_at_eq _ _ _ Hl)). rewrite bind_gets.
  destruct ((value l >? 0) && (prev_rank_loc l =? mpi_rank p)) eqn:E1.
  - apply andb_true_iff in E1 as [Hpos Hloc].
    apply Z.gtb_lt in Hpos. apply Z.eqb_eq in Hloc.
    destruct (Hprev ltac:(lia) Hloc) as [y Hy]. rewrite Hy.
    rewrite bind_assoc. rewrite (bind_eq _ _ _ _ _ (vertex_at_eq _ _ _ Hb)).
    rewrite (bind_eq _ _ _ _ _ (update_vertex_eq _ _ _ _ Hy)).
    destruct (decide (bt_idx loc = prev_vert_index l)) as [E|E].
    + rewrite E in Hb. rewrite Hb in Hy. injection Hy as <-.
      eapply (step_3_local_move p _ loc l vb
                (with_out_edges (add_flow_towards (id vb) (sink_value loc))
                   vb)); try reflexivity.
      cbn [vertices with_vertices]. rewrite E. eapply vec_at_set_eq, Hb.
    + eapply (step_3_local_move p _ loc l vb vb); try reflexivity.
      cbn [vertices with_vertices]. rewrite vec_at_set_ne; [exact Hb| |congruence].
      apply vec_at_Some in Hy. tauto.
  - destruct (value l <? 0) eqn:E2.
    + rewrite (bind_eq _ _ _ _ _ (update_vertex_eq _ _ _ _ Hb)).
      eapply (step_3_local_move p _ loc l vb
                (with_out_edges
                   (sub_flow_towards (prev_node l) (sink_value loc)) vb));
        try reflexivity.
      cbn [vertices with_vertices]. eapply vec_at_set_eq, Hb.
    + rewrite bind_ret, with_vertices_same.
      by eapply (step_3_local_move p p loc l vb vb).
Qed.

Lemma edge_in_vec_set (vs : list vertex) (i vi : local_id) (ei : nat)
  (y : vertex) (g : list out_edge -> list out_edge) :
  vec_at vs i = Some y ->
  edge_in (vec_set vs i (with_out_edges g y)) vi ei =
  if decide (vi = i) then g (out_edges y) !! ei else edge_in vs vi ei.
Proof.
  intros Hy. unfold edge_in. destruct (decide (vi = i)) as [->|Hne].
  - by rewrite (vec_at_set_eq _ _ _ _ Hy).
  - rewrite vec_at_set_ne; [done| |congruence].
    apply vec_at_Some in Hy. tauto.
Qed.

Lemma add_flow_towards_lookup (d : global_id) (delta : Z)
  (es : list out_edge) (ei : nat) :
  add_flow_towards d delta es !! ei =
  (fun e => if dest_node_id e =? d then with_flow (int_add (flow e) delta) e
            else e) <$> (es !! ei).
Proof. unfold add_flow_towards. apply lookup_map. Qed.

Lemma sub_flow_towards_lookup (d : global_id) (delta : Z)
  (es : list out_edge) (ei : nat) :
  sub_flow_towards d delta es !! ei =
  (fun e => if dest_node_id e =? d then with_flow (int_sub (flow e) delta) e
            else e) <$> (es !! ei).
Proof. unfold sub_flow_towards. apply lookup_map. Qed.

Lemma add_flow_towards_none (d : global_id) (delta : Z)
  (es : list out_edge) :
  Forall (fun e => dest_node_id e <> d) es ->
  add_flow_towards d delta es = es.
Proof.
  induction 1 as [|e es He _ IH]; [done|]. cbn.
  apply Z.eqb_neq in He. rewrite He. f_equal. exact IH.
Qed.

(** Every edge after the visit of [b]: the complete account. *)
Lemma backtrack_vertices_edge (p : process) (b : local_id) (l : label)
  (vb : vertex) (delta : Z) (vi : local_id) (ei : nat) (e : out_edge) :
  vec_at (vertices p) b = Some vb ->
  edge_at p vi ei = Some e ->
  edge_in (backtrack_vertices p b l vb delta) vi ei =
  Some (if (value l >? 0) && (prev_rank_loc l =? mpi_rank p) then
          if decide (vi = prev_vert_index l /\ dest_node_id e = id vb)
          then with_flow (int_add (flow e) delta) e else e
        else if value l <? 0 then
          if decide (vi = b /\ dest_node_id e = prev_node l)
          then with_flow (int_sub (flow e) delta) e else e
        else e).
Proof.
  intros Hb He. unfold backtrack_vertices, edge_at in *.
  destruct ((value l >? 0) && (prev_rank_loc l =? mpi_rank p)).
  - destruct (vec_at (vertices p) (prev_vert_index l)) as [y|] eqn:Hy.
    + rewrite (edge_in_vec_set _ _ _ _ _ _ Hy).
      destruct (decide (vi = prev_vert_index l)) as [->|Hne].
      * unfold edge_in in He. rewrite Hy in He.
        rewrite add_flow_towards_lookup, He. cbn.
        destruct (dest_node_id e =? id vb) eqn:E.
        -- apply Z.eqb_eq in E. by rewrite decide_True.
        -- apply Z.eqb_neq in E. rewrite decide_False; [done|tauto].
      * rewrite decide_False; [done|tauto].
    + rewrite He. f_equal. rewrite decide_False; [done|].
      intros [-> _]. unfold edge_in in He. by rewrite Hy in He.
  - destruct (value l <? 0); [|done].
    rewrite (edge_in_vec_set _ _ _ _ _ _ Hb).
    destruct (decide (vi = b)) as [->|Hne].
    + unfold edge_in in He. rewrite Hb in He.
      rewrite sub_flow_towards_lookup, He. cbn.
      destruct (dest_node_id e =? prev_node l) eqn:E.
      * apply Z.eqb_eq in E. by rewrite decide_True.
      * apply Z.eqb_neq in E. rewrite decide_False; [done|tauto].
    + rewrite decide_False; [done|tauto].
Qed.

Lemma unique_destination (es : list out_edge) (d : global_id) (i j : nat)
  (e e' : out_edge) :
  NoDup (dest_node_id <$> es) ->
  es !! i = Some e -> es !! j = Some e' ->
  dest_node_id e = d -> dest_node_id e' = d -> i = j.
Proof.
  intros Hnd Hi Hj He He'.
  apply (NoDup_lookup _ i j d Hnd); rewrite list_lookup_fmap.
  - by rewrite Hi, <- He.
  - by rewrite Hj, <- He'.
Qed.

Lemma gtb_pos (z : Z) : z > 0 -> (z >? 0) = true.
Proof. intros H. apply Z.gtb_lt. lia. Qed.

Lemma gtb_nonpos (z : Z) : z <= 0 -> (z >? 0) = false.
Proof. intros H. rewrite Z.gtb_ltb. apply Z.ltb_ge. lia. Qed.

Lemma ltb_neg (z : Z) : z < 0 -> (z <? 0) = true.
Proof. intros H. by apply Z.ltb_lt. Qed.

Lemma ltb_nonneg (z : Z) : 0 <= z -> (z <? 0) = false.
Proof. intros H. by apply Z.ltb_ge. Qed.

Lemma step_3_recv_update_flow (q : process) (loc : step_3_locals)
  (msg : message_data) (vert_idx : local_id) (w : vertex) :
  global_to_local q !! receivers_node msg = Some vert_idx ->
  vec_at (vertices q) vert_idx = Some w ->
  step_3_recv loc (int_of_tag UPDATE_FLOW) msg q =
  Some (mk_step_3_locals vert_idx (msg_value msg)
          (wait_for_source_found loc) (step_3_done loc),
        with_vertices
          (fun vs => vec_set vs vert_idx
                       (with_out_edges
                          (add_flow_towards (senders_node msg)
                             (msg_value msg)) w)) q).
Proof.
  intros Hg Hw. unfold step_3_recv.
  change (tag_of_int (int_of_tag UPDATE_FLOW)) with (Some UPDATE_FLOW).
  cbv iota. rewrite (bind_eq _ _ _ _ _ (lookup_global_id_eq _ _)). rewrite Hg.
  by rewrite (bind_eq _ _ _ _ _ (update_vertex_eq _ _ _ _ Hw)).
Qed.

(** C3 as stated fails at the source: its label is positive with the source
    itself as local predecessor, and the visit changes no flow at all. *)
Lemma backtrack_at_source_updates_nothing :
  exists (loc' : step_3_locals) (p' : process),
    step_3_local (mk_step_3_locals 0 5 false false) sample_at_source =
    Some (loc', p')
    /\ ~ exactly_one_flow_update sample_at_source p'.
Proof.
  eexists. eexists. split; [reflexivity|].
  intros (vi & ei & Hdiff & _). by apply Hdiff.
Qed.

(** One visit of the backtrack, for any increment the thread holds: what is
    sent, which flows change and which do not. *)
Lemma step_3_local_visit (p : process)
  (loc : step_3_locals) (l : label) (vb : vertex) :
  vec_at (labels p) (bt_idx loc) = Some l ->
  vec_at (vertices p) (bt_idx loc) = Some vb ->
  (value l > 0 -> prev_rank_loc l = mpi_rank p ->
   is_Some (vec_at (vertices p) (prev_vert_index l))) ->
  let delta := sink_value loc in
  exists (loc' : step_3_locals) (p' : process),
    step_3_local loc p = Some (loc', p')
    /\ sink_value loc' = delta
    /\ (prev_rank_loc l = mpi_rank p -> newly_sent p p' = [])
    /\ (prev_rank_loc l <> mpi_rank p ->
        newly_sent p p' = [update_flow_message p vb l delta]
        /\ bt_idx loc' = NO_LOCAL_ID
        /\ forall (q : process) (loc0 : step_3_locals) (vert_idx : local_id)
             (w : vertex),
             global_to_local q !! prev_node l = Some vert_idx ->
             vec_at (vertices q) vert_idx = Some w ->
             exists (loc1 : step_3_locals) (q' : process),
               step_3_recv loc0 (int_of_tag UPDATE_FLOW)
                 (mk_message_data (id vb) (prev_node l) delta (pass p)) q =
               Some (loc1, q')
               /\ sink_value loc1 = delta /\ bt_idx loc1 = vert_idx)
    /\ (value l > 0 -> prev_rank_loc l = mpi_rank p ->
        prev_vert_index l <> bt_idx loc ->
        forall y : vertex,
          vec_at (vertices p) (prev_vert_index l) = Some y ->
          NoDup (dest_node_id <$> out_edges y) ->
          (forall (vi : local_id) (ei : nat) (e : out_edge),
              edge_at p vi ei = Some e ->
              edge_at p' vi ei =
              Some (if decide (vi = prev_vert_index l
                               /\ dest_node_id e = id vb)
                    then with_flow (int_add (flow e) delta) e else e))
          /\ (forall (ei ej : nat) (e e' : out_edge),
                 out_edges y !! ei = Some e -> out_edges y !! ej = Some e' ->
                 dest_node_id e = id vb -> dest_node_id e' = id vb ->
                 ei = ej))
    /\ (value l < 0 ->
        NoDup (dest_node_id <$> out_edges vb) ->
        (forall (vi : local_id) (ei : nat) (e : out_edge),
            edge_at p vi ei = Some e ->
            edge_at p' vi ei =
            Some (if decide (vi = bt_idx loc
                             /\ dest_node_id e = prev_node l)
                  then with_flow (int_sub (flow e) delta) e else e))
        /\ (forall (ei ej : nat) (e e' : out_edge),
               out_edges vb !! ei = Some e -> out_edges vb !! ej = Some e' ->
               dest_node_id e = prev_node l ->
               dest_node_id e' = prev_node l -> ei = ej))
    /\ (0 <= value l -> prev_rank_loc l <> mpi_rank p ->
        vertices p' = vertices p)
    /\ (value l = 0 -> vertices p' = vertices p)
    /\ (value l > 0 -> prev_rank_loc l = mpi_rank p ->
        prev_vert_index l = bt_idx loc ->
        Forall (fun e => dest_node_id e <> id vb) (out_edges vb) ->
        vertices p' = vertices p).
Proof.
  intros Hl Hb Hprev delta. subst delta.
  eexists. eexists. split; [by apply (step_3_local_eq p loc l vb)|].
  assert (Hvs : forall f : process -> process,
             (f = (fun x => x) \/ exists g, f = with_outbox g) ->
             forall x, vertices (f x) = vertices x).
  { intros f [-> | [g ->]] x; reflexivity. }
  set (p1 := with_vertices _ p).
  assert (Hvert :
    vertices ((if prev_rank_loc l =? mpi_rank p then fun x => x
               else with_outbox
                      (fun o => o ++ [update_flow_message p vb l (sink_value loc)])) p1)
    = backtrack_vertices p (bt_idx loc) l vb (sink_value loc)).
  { destruct (prev_rank_loc l =? mpi_rank p); reflexivity. }
  assert (Hedge : forall vi ei,
    edge_at ((if prev_rank_loc l =? mpi_rank p then fun x => x
              else with_outbox
                     (fun o => o ++ [update_flow_message p vb l (sink_value loc)])) p1)
      vi ei =
    edge_in (backtrack_vertices p (bt_idx loc) l vb (sink_value loc)) vi ei).
  { intros vi ei. unfold edge_at. by rewrite Hvert. }
  split.
  { unfold step_3_next.
    destruct (negb _); [reflexivity|]. by destruct (_ && _). }
  split.
  { intros Hloc. apply Z.eqb_eq in Hloc. rewrite Hloc.
    by apply newly_sent_none. }
  split.
  { intros Hrem. apply Z.eqb_neq in Hrem. rewrite Hrem.
    split; [by apply newly_sent_one|]. unfold step_3_next. rewrite Hrem.
    split; [reflexivity|].
    intros q loc0 vert_idx w Hg Hw. eexists. eexists.
    split; [by apply (step_3_recv_update_flow q loc0 _ vert_idx w)|].
    by split. }
  split.
  { intros Hpos Hloc Hne y Hy Hnd. split.
    - intros vi ei e He. rewrite Hedge.
      rewrite (backtrack_vertices_edge _ _ _ _ _ _ _ _ Hb He).
      apply Z.eqb_eq in Hloc. by rewrite (gtb_pos _ Hpos), Hloc.
    - intros ei ej e e'. by apply unique_destination. }
  split.
  { intros Hneg Hnd. split.
    - intros vi ei e He. rewrite Hedge.
      rewrite (backtrack_vertices_edge _ _ _ _ _ _ _ _ Hb He).
      by rewrite gtb_nonpos, (ltb_neg _ Hneg) by lia.
    - intros ei ej e e'. by apply unique_destination. }
  split.
  { intros Hpos Hrem. rewrite Hvert. unfold backtrack_vertices.
    apply Z.eqb_neq in Hrem. rewrite Hrem, andb_false_r.
    by rewrite (ltb_nonneg _ Hpos). }
  split.
  { intros Hz. rewrite Hvert. unfold backtrack_vertices. by rewrite Hz. }
  intros Hpos Hloc Hself Hnone. rewrite Hvert. unfold backtrack_vertices.
  rewrite (gtb_pos _ Hpos).
  apply Z.eqb_eq in Hloc. rewrite Hloc. cbn [andb].
  rewrite Hself, Hb. apply vec_set_same. rewrite Hb. f_equal.
  unfold with_out_edges. rewrite (add_flow_towards_none _ _ _ Hnone).
  by destruct vb.
Qed.


(** ** Messages that are dropped *)

Lemma wrap_int_add_sub (w : Z) :
  in_int_range w -> int_sub (int_add w 1) 1 = w.
Proof.
  intros Hw. unfold int_sub, int_add, wrap_int.
  replace ((w + 1 + 2 ^ 31) mod 2 ^ 32 - 2 ^ 31 - 1 + 2 ^ 31)
    with ((w + 1 + 2 ^ 31) mod 2 ^ 32 + (-1)) by lia.
  rewrite Zplus_mod_idemp_l.
  replace (w + 1 + 2 ^ 31 + -1) with (w + 2 ^ 31) by lia.
  fold (wrap_int w). by apply wrap_int_id.
Qed.

Lemma router_drop_state (q : process) (text : string) :
  in_int_range (working_threads q) ->
  dropped q (router_idle
               ((if debug_mode q
                 then with_stderr (fun e => e ++ [text])
                 else fun x => x) (router_busy q))).
Proof.
  intros Hw. unfold dropped. destruct (debug_mode q); cbn;
    repeat split; by apply wrap_int_add_sub.
Qed.

Lemma router_step_label_message_dropped (q : process) (tid : Z)
  (bt : local_id) (stat_source : Z) (tag : message_tags)
  (msg : message_data) (peers : list Z) :
  tag = SET_TO_LABEL \/ tag = COMPUTE_FROM_LABEL ->
  global_to_local q !! receivers_node msg = None \/ msg_pass msg <> pass q ->
  exists text : string,
    router_step tid bt stat_source (int_of_tag tag) msg peers q =
    Some ((LoopAgain, bt),
          router_idle
            ((if debug_mode q
              then with_stderr (fun e => e ++ [text])
              else fun x => x) (router_busy q))).
Proof.
  intros Htag Hbad. unfold router_step, working_threads_add.
  rewrite bind_modify. fold (router_busy q).
  assert (Herr : forall (text : string) (p : process),
             debug_mode p = debug_mode q ->
             (ERROR text;;; working_threads_sub 1;;; ret (LoopAgain, bt)) p =
             Some ((LoopAgain, bt),
                   router_idle
                     ((if debug_mode q
                       then with_stderr (fun e => e ++ [text])
                       else fun x => x) p))).
  { intros text p Hd. unfold ERROR, working_threads_sub.
    rewrite !bind_modify, Hd. by destruct (debug_mode q). }
  destruct Htag as [-> | ->].
  - change (tag_of_int (int_of_tag SET_TO_LABEL)) with (Some SET_TO_LABEL).
    cbv iota. rewrite (bind_eq _ _ _ _ _ (lookup_global_id_eq _ _)).
    change (global_to_local (router_busy q)) with (global_to_local q).
    destruct (global_to_local q !! receivers_node msg) as [i|] eqn:Hg.
    + destruct Hbad as [|Hpass]; [discriminate|].
      destruct (i =? NO_LOCAL_ID); [eexists; by apply Herr|].
      rewrite bind_gets. change (pass (router_busy q)) with (pass q).
      apply Z.eqb_neq in Hpass. rewrite Hpass. cbn [negb].
      eexists; by apply Herr.
    + rewrite Z.eqb_refl. eexists; by apply Herr.
  - change (tag_of_int (int_of_tag COMPUTE_FROM_LABEL))
      with (Some COMPUTE_FROM_LABEL).
    cbv iota. rewrite (bind_eq _ _ _ _ _ (lookup_global_id_eq _ _)).
    change (global_to_local (router_busy q)) with (global_to_local q).
    destruct (global_to_local q !! receivers_node msg) as [i|] eqn:Hg.
    + destruct Hbad as [|Hpass]; [discriminate|].
      destruct (i =? NO_LOCAL_ID); [eexists; by apply Herr|].
      rewrite bind_gets. change (pass (router_busy q)) with (pass q).
      apply Z.eqb_neq in Hpass. rewrite Hpass. cbn [negb].
      eexists; by apply Herr.
    + rewrite Z.eqb_refl. eexists; by apply Herr.
Qed.

(** C8 as stated fails: an UPDATE_FLOW message of pass 2 received in step 3
    of pass 3 is applied, and the flow of the edge 0 -> 2 goes from 0 to 5. *)
Lemma stale_update_flow_is_applied :
  let msg := mk_message_data 2 0 5 2 in
  msg_pass msg <> pass sample_step_3_receiver
  /\ exists (loc' : step_3_locals) (p' : process),
       step_3_recv (mk_step_3_locals NO_LOCAL_ID 0 false false)
         (int_of_tag UPDATE_FLOW) msg sample_step_3_receiver =
       Some (loc', p')
       /\ flow_at sample_step_3_receiver 0 0 = Some 0
       /\ flow_at p' 0 0 = Some 5
       /\ ~ dropped sample_step_3_receiver p'.
Proof.
  split; [discriminate|]. eexists. eexists.
  split.
  { by apply (step_3_recv_update_flow sample_step_3_receiver _ _ 0
                (mk_vertex 0 [mk_out_edge 2 1 NO_LOCAL_ID 5 0] [])). }
  split; [reflexivity|]. split; [reflexivity|].
  intros (_ & Hv & _). discriminate.
Qed.

(** C8, amended: a SET_TO_LABEL or COMPUTE_FROM_LABEL message that the
    router receives in step 2 for a global id its rank does not own, or with a
    pass field other than the current pass, is dropped: no label, edge flow or
    queue entry changes, nothing is sent, [working_threads] is the same after
    the handling as before the receipt, and the diagnostic is written when
    the build defines DEBUG_MODE.  In step 3 the messages tagged
    SET_TO_LABEL, COMPUTE_FROM_LABEL, TOKEN_WHITE and TOKEN_RED are dropped
    unread.  No other handler looks at the pass field. *)
Theorem misrouted_or_stale_label_message_dropped (q : process) (tid : Z)
  (bt : local_id) (stat_source : Z) (tag : message_tags)
  (msg : message_data) (peers : list Z) :
  tag = SET_TO_LABEL \/ tag = COMPUTE_FROM_LABEL ->
  global_to_local q !! receivers_node msg = None \/ msg_pass msg <> pass q ->
  in_int_range (working_threads q) ->
  (exists (q' : process) (text : string),
      router_step tid bt stat_source (int_of_tag tag) msg peers q =
      Some ((LoopAgain, bt), q')
      /\ dropped q q'
      /\ outbox q' = outbox q
      /\ stderr q' = if debug_mode q then stderr q ++ [text] else stderr q)
  /\ (forall (loc : step_3_locals) (tag' : message_tags),
        In tag' [SET_TO_LABEL; COMPUTE_FROM_LABEL; TOKEN_WHITE; TOKEN_RED] ->
        step_3_recv loc (int_of_tag tag') msg q = Some (loc, q)).
Proof.
  intros Htag Hbad Hw. split.
  - destruct (router_step_label_message_dropped q tid bt stat_source tag msg
                peers Htag Hbad) as (text & Hstep).
    eexists. exists text. split; [exact Hstep|].
    split; [by apply router_drop_state|].
    destruct (debug_mode q); by split.
  - intros loc tag' Hin. cbn in Hin.
    destruct Hin as [<- | [<- | [<- | [<- | []]]]]; reflexivity.
Qed.

(** The last rank of two receives a SET_TO_LABEL for vertex 0, which rank 0
    owns. *)
Lemma misrouted_or_stale_label_message_dropped_witness :
  exists q' : process,
    router_step 0 NO_LOCAL_ID 0 (int_of_tag SET_TO_LABEL)
      (mk_message_data 2 0 4 1) [] sample_last_rank =
    Some ((LoopAgain, NO_LOCAL_ID), q')
    /\ dropped sample_last_rank q'.
Proof.
  destruct (misrouted_or_stale_label_message_dropped sample_last_rank 0
              NO_LOCAL_ID 0 SET_TO_LABEL (mk_message_data 2 0 4 1) []
              (or_introl eq_refl) (or_introl eq_refl))
    as [(q' & text & Hstep & Hdrop & _) _].
  { unfold in_int_range, INT_MIN, INT_MAX. cbn. lia. }
  exists q'. by split.
Defined.

(** ** What a computation keeps *)

Lemma preserves_ret {A} (R : process -> process -> Prop) (a : A) :
  Reflexive R -> preserves R (ret a).
Proof. intros HR p a' p' H. unfold ret, gets in H. simplify_eq. apply HR. Qed.

Lemma preserves_gets {A} (R : process -> process -> Prop)
  (f : process -> A) :
  Reflexive R -> preserves R (gets f).
Proof. intros HR p a' p' H. unfold ret, gets in H. simplify_eq. apply HR. Qed.

Lemma preserves_undefined {A} (R : process -> process -> Prop) :
  preserves R (@undefined A).
Proof. intros p a p' [=]. Qed.

Lemma preserves_lift_option {A} (R : process -> process -> Prop)
  (o : option A) :
  Reflexive R -> preserves R (lift_option o).
Proof.
  intros HR. destruct o; [by apply preserves_ret | apply preserves_undefined].
Qed.

Lemma preserves_modify (R : process -> process -> Prop)
  (f : process -> process) :
  (forall p, R p (f p)) -> preserves R (modify f).
Proof. intros Hf p a p' H. unfold modify in H. simplify_eq. apply Hf. Qed.

Lemma preserves_bind {A B} (R : process -> process -> Prop) (m : M A)
  (k : A -> M B) :
  Transitive R -> preserves R m -> (forall a, preserves R (k a)) ->
  preserves R (bind m k).
Proof.
  intros HR Hm Hk p b p2 H. apply bind_Some in H as (a & p1 & H1 & H2).
  etrans; [by eapply Hm | by eapply Hk].
Qed.

#[local] Instance same_graph_refl : Reflexive same_graph.
Proof. intros p. split; try reflexivity. exists []. by rewrite app_nil_r. Qed.

#[local] Instance same_graph_trans : Transitive same_graph.
Proof.
  intros p q r [] []. split; try congruence.
  destruct sg_outbox0 as [m1 H1], sg_outbox1 as [m2 H2].
  exists (m1 ++ m2). by rewrite H2, H1, app_assoc.
Qed.

(** Pieces of a step-2 computation, decomposed along its binds and tests. *)
Ltac frame_step :=
  match goal with
  | |- preserves _ (bind _ _) => apply preserves_bind; [apply _| |intros ?]
  | |- preserves _ (ret _) => apply preserves_ret; apply _
  | |- preserves _ (gets _) => apply preserves_gets; apply _
  | |- preserves _ undefined => apply preserves_undefined
  | |- preserves _ (lift_option _) => apply preserves_lift_option; apply _
  | |- preserves _ (if ?c then _ else _) => destruct c
  | |- preserves _ (match ?x with _ => _ end) => destruct x
  end.

(** A setter that leaves the graph alone. *)
Ltac same_graph_setter :=
  apply preserves_modify; intros ?; split; cbn; try reflexivity;
  try (exists []; by rewrite app_nil_r); try (by eexists).

Lemma same_graph_label_at (i : local_id) : preserves same_graph (label_at i).
Proof. unfold label_at. repeat frame_step. Qed.

Lemma same_graph_vertex_at (i : local_id) :
  preserves same_graph (vertex_at i).
Proof. unfold vertex_at. repeat frame_step. Qed.

Lemma same_graph_update_label (i : local_id) (f : label -> label) :
  preserves same_graph (update_label i f).
Proof.
  intros p a p' H. apply update_label_inv in H as (l & Hl & ->).
  split; cbn; try reflexivity; [apply vec_set_length|].
  exists []. by rewrite app_nil_r.
Qed.

Lemma same_graph_insert_edges (vert_idx tid : Z) :
  preserves same_graph (insert_edges vert_idx tid).
Proof.
  intros p a p' H. apply insert_edges_frame in H as (f & ->).
  split; cbn; try reflexivity. exists []. by rewrite app_nil_r.
Qed.

Lemma same_graph_set_label (prev : global_id) (prev_rank : Z)
  (prev_idx curr_idx : local_id) (new_value tid : Z) :
  preserves same_graph
    (set_label prev prev_rank prev_idx curr_idx new_value tid).
Proof.
  unfold set_label, cas_label_value.
  repeat first
    [ apply same_graph_label_at | apply same_graph_update_label
    | apply same_graph_vertex_at | apply same_graph_insert_edges
    | frame_step ].
Qed.

Lemma same_graph_MPI_Ssend (pl : payload) (dest : Z) (tag : message_tags) :
  preserves same_graph (MPI_Ssend pl dest tag).
Proof. unfold MPI_Ssend. same_graph_setter. Qed.

Lemma same_graph_ERROR (text : string) : preserves same_graph (ERROR text).
Proof.
  unfold ERROR. apply preserves_modify. intros p.
  destruct (debug_mode p); [|reflexivity].
  split; cbn; try reflexivity. exists []. by rewrite app_nil_r.
Qed.

Ltac same_graph_tac :=
  repeat first
    [ apply same_graph_label_at | apply same_graph_update_label
    | apply same_graph_vertex_at | apply same_graph_insert_edges
    | apply same_graph_set_label | apply same_graph_MPI_Ssend
    | apply same_graph_ERROR
    | frame_step
    | same_graph_setter ].

Lemma same_graph_handle_out_edge (entry : edge_entry) (tid : Z) :
  preserves same_graph (handle_out_edge entry tid).
Proof. unfold handle_out_edge. same_graph_tac. Qed.

Lemma same_graph_handle_in_edge (entry : edge_entry) (tid : Z) :
  preserves same_graph (handle_in_edge entry tid).
Proof. unfold handle_in_edge. same_graph_tac. Qed.

Lemma same_graph_send_check_termination (ranks : list Z) :
  preserves same_graph (send_check_termination ranks).
Proof. induction ranks as [|i ranks IH]; cbn; same_graph_tac. exact IH. Qed.

Ltac same_graph_step_2 :=
  unfold check_termination, claim_step_3, cas_step_3_tid, lookup_global_id,
    working_threads_add, working_threads_sub;
  repeat first
    [ apply same_graph_send_check_termination
    | apply same_graph_handle_out_edge | apply same_graph_handle_in_edge
    | progress same_graph_tac ].

Lemma same_graph_worker_idle : preserves same_graph worker_idle.
Proof. unfold worker_idle. same_graph_step_2. Qed.

Lemma same_graph_worker_process (tid : Z) (bt : local_id)
  (entry : edge_entry) :
  preserves same_graph (worker_process tid bt entry).
Proof. unfold worker_process. same_graph_step_2. Qed.

Lemma same_graph_worker_step (tid : Z) (bt : local_id) (entry : edge_entry) :
  preserves same_graph (worker_step tid bt entry).
Proof.
  unfold worker_step.
  repeat first
    [ apply same_graph_worker_idle | apply same_graph_worker_process
    | progress same_graph_tac ].
Qed.

Lemma same_graph_router_step (tid : Z) (bt : local_id)
  (stat_source stat_tag : Z) (msg : message_data) (peers : list Z) :
  preserves same_graph (router_step tid bt stat_source stat_tag msg peers).
Proof. unfold router_step. same_graph_step_2. Qed.

Lemma same_graph_step_1 (tid : Z) : preserves same_graph (step_1 tid).
Proof.
  unfold step_1, lookup_global_id. destruct (tid =? 0); [|same_graph_tac].
  apply preserves_bind; [apply _| |intros ?].
  { apply preserves_modify. intros p. split; cbn; try reflexivity.
    - apply length_map.
    - exists []. by rewrite app_nil_r. }
  same_graph_tac.
Qed.

(** ** Termination detection *)

Lemma with_outbox_app (l1 l2 : list sent) (p : process) :
  with_outbox (fun o => o ++ l2) (with_outbox (fun o => o ++ l1) p) =
  with_outbox (fun o => o ++ (l1 ++ l2)) p.
Proof. unfold with_outbox. cbn. by rewrite app_assoc. Qed.

Lemma with_outbox_nil (p : process) : with_outbox (fun o => o ++ []) p = p.
Proof. destruct p. unfold with_outbox. cbn. by rewrite app_nil_r. Qed.

Lemma send_check_termination_eq (ranks : list Z) (p : process) :
  send_check_termination ranks p =
  Some (tt, with_outbox
              (fun o => o ++ ((fun i => mk_sent i CHECK_TERMINATION NoPayload)
                                <$> ranks)) p).
Proof.
  revert p. induction ranks as [|i ranks IH]; intros p;
    cbn [send_check_termination fmap list_fmap].
  - unfold ret. by rewrite with_outbox_nil.
  - unfold MPI_Ssend at 1. rewrite bind_modify, IH.
    by rewrite with_outbox_app.
Qed.

Lemma check_termination_eq (peers : list Z) (p : process) :
  check_termination peers p =
  Some (if MPI_Allreduce_sum (empty_flag p) peers =? 0 then ThreadReturn
        else LoopAgain,
        if MPI_Allreduce_sum (empty_flag p) peers =? 0
        then with_algorithm_complete true (router_idle p) else p).
Proof.
  unfold check_termination, empty_flag. rewrite bind_gets.
  destruct (MPI_Allreduce_sum _ peers =? 0); [|reflexivity].
  unfold working_threads_sub. by rewrite !bind_modify.
Qed.

(** The sum of flags that are 0 or 1 does not wrap, and it is 0 exactly when
    every flag is. *)
Lemma MPI_Allreduce_sum_flags (peers : list Z) :
  forall mine : Z,
    0 <= mine -> mine + Z.of_nat (length peers) <= INT_MAX ->
    Forall (fun x => x = 0 \/ x = 1) peers ->
    MPI_Allreduce_sum mine peers = mine + foldr Z.add 0 peers
    /\ 0 <= foldr Z.add 0 peers <= Z.of_nat (length peers).
Proof.
  unfold MPI_Allreduce_sum.
  induction peers as [|x peers IH]; intros mine H0 Hmax Hflags; cbn.
  - lia.
  - apply Forall_cons in Hflags as [Hx Hflags].
    cbn [length] in Hmax.
    assert (Hadd : int_add mine x = mine + x).
    { apply wrap_int_id. unfold in_int_range, INT_MIN, INT_MAX in *. lia. }
    rewrite Hadd.
    destruct (IH (mine + x)) as [-> Hb]; [lia|lia|done|]. lia.
Qed.

Lemma MPI_Allreduce_sum_zero (mine : Z) (peers : list Z) :
  mine = 0 \/ mine = 1 -> 1 + Z.of_nat (length peers) <= INT_MAX ->
  Forall (fun x => x = 0 \/ x = 1) peers ->
  MPI_Allreduce_sum mine peers = 0 <-> mine = 0 /\ Forall (fun x => x = 0) peers.
Proof.
  intros Hmine Hmax Hflags.
  destruct (MPI_Allreduce_sum_flags peers mine) as [-> Hb]; [lia|lia|done|].
  split.
  - intros Hsum. split; [lia|].
    assert (Hz : foldr Z.add 0 peers = 0) by lia. clear Hsum Hb Hmax Hmine.
    induction Hflags as [|x peers Hx Hrest IH]; [constructor|].
    cbn in Hz.
    assert (0 <= foldr Z.add 0 peers).
    { clear -Hrest. induction Hrest as [|y l Hy _ IH']; cbn; lia. }
    constructor; [lia|]. apply IH. lia.
  - intros [-> Hall]. clear -Hall.
    induction Hall as [|x peers -> _ IH]; cbn; lia.
Qed.

(** The three cases of the router that concern the detection. *)
Lemma router_step_white_token_rank_0 (q : process) (tid : Z) (bt : local_id)
  (stat_source : Z) (msg : message_data) (peers : list Z) :
  mpi_rank q = 0 ->
  let announced :=
    with_outbox (fun o => o ++ check_termination_messages q)
      (with_token_color TOKEN_WHITE (router_busy q)) in
  let result := MPI_Allreduce_sum (empty_flag q) peers in
  router_step tid bt stat_source (int_of_tag TOKEN_WHITE) msg peers q =
  Some (if result =? 0 then (ThreadReturn, bt) else (LoopAgain, bt),
        if result =? 0
        then with_algorithm_complete true (router_idle announced)
        else router_idle (with_have_token true announced)).
Proof.
  intros Hrank announced result. unfold router_step, working_threads_add.
  rewrite bind_modify. fold (router_busy q).
  change (tag_of_int (int_of_tag TOKEN_WHITE)) with (Some TOKEN_WHITE).
  cbv iota. rewrite bind_modify, bind_gets.
  cbn [mpi_rank with_token_color router_busy with_working_threads].
  rewrite Hrank. cbn [Z.eqb]. rewrite bind_assoc, bind_gets.
  cbn [token_color with_token_color]. rewrite bind_assoc, bind_gets.
  rewrite bind_assoc.
  rewrite (bind_eq _ _ _ _ _ (send_check_termination_eq _ _)).
  cbn [mpi_size with_token_color router_busy with_working_threads].
  fold (check_termination_messages q). fold announced.
  rewrite (bind_eq _ _ _ _ _ (check_termination_eq peers announced)).
  change (empty_flag announced) with (empty_flag q). fold result.
  destruct (result =? 0); [reflexivity|].
  unfold working_threads_sub. by rewrite !bind_modify.
Qed.

Lemma router_step_red_token_rank_0 (q : process) (tid : Z) (bt : local_id)
  (stat_source : Z) (msg : message_data) (peers : list Z) :
  mpi_rank q = 0 ->
  router_step tid bt stat_source (int_of_tag TOKEN_RED) msg peers q =
  Some ((LoopAgain, bt),
        router_idle
          (with_have_token true
             (with_token_color TOKEN_WHITE
                (with_token_color TOKEN_RED (router_busy q))))).
Proof.
  intros Hrank. unfold router_step, working_threads_add.
  rewrite bind_modify. fold (router_busy q).
  change (tag_of_int (int_of_tag TOKEN_RED)) with (Some TOKEN_RED).
  cbv iota. rewrite bind_modify, bind_gets.
  cbn [mpi_rank with_token_color router_busy with_working_threads].
  rewrite Hrank. cbn [Z.eqb]. rewrite bind_assoc, bind_gets.
  cbn [token_color with_token_color]. rewrite bind_assoc, bind_modify, bind_ret.
  unfold working_threads_sub. by rewrite !bind_modify.
Qed.

Lemma router_step_check_termination (q : process) (tid : Z) (bt : local_id)
  (stat_source : Z) (msg : message_data) (peers : list Z) :
  let result := MPI_Allreduce_sum (empty_flag q) peers in
  router_step tid bt stat_source (int_of_tag CHECK_TERMINATION) msg peers q =
  Some (if result =? 0 then (ThreadReturn, bt) else (LoopAgain, bt),
        if result =? 0
        then with_algorithm_complete true (router_idle (router_busy q))
        else router_idle (router_busy q)).
Proof.
  intros result. unfold router_step, working_threads_add.
  rewrite bind_modify. fold (router_busy q).
  change (tag_of_int (int_of_tag CHECK_TERMINATION))
    with (Some CHECK_TERMINATION).
  cbv iota.
  rewrite (bind_eq _ _ _ _ _ (check_termination_eq peers (router_busy q))).
  change (empty_flag (router_busy q)) with (empty_flag q). fold result.
  destruct (result =? 0); [reflexivity|].
  unfold working_threads_sub. by rewrite !bind_modify.
Qed.

Lemma newly_sent_app (p q r : process) (m1 m2 : list sent) :
  outbox q = outbox p ++ m1 -> outbox r = outbox q ++ m2 ->
  newly_sent p q = m1 /\ newly_sent q r = m2 /\ newly_sent p r = m1 ++ m2.
Proof.
  intros H1 H2. unfold newly_sent. rewrite H2, H1.
  repeat split.
  - apply drop_app_length.
  - rewrite <- H1. apply drop_app_length.
  - rewrite <- app_assoc. apply drop_app_length.
Qed.

#[local] Instance keeps_rank_0_white_refl : Reflexive keeps_rank_0_white.
Proof.
  intros p. split; [reflexivity|]. intros (_ & Hc & Ht & _).
  repeat split; [done..|]. by rewrite newly_sent_none.
Qed.

Lemma rank_0_white_next (p q : process) :
  same_graph p q -> rank_0_white p ->
  my_color q = TOKEN_WHITE -> token_color q = TOKEN_WHITE -> rank_0_white q.
Proof.
  intros Hsg (Hr & _ & _ & Hn) Hc Ht. destruct Hsg.
  repeat split; [congruence|done|done|].
  unfold ranks_nonneg. by rewrite sg_vertices0.
Qed.

#[local] Instance keeps_rank_0_white_trans : Transitive keeps_rank_0_white.
Proof.
  intros p q r [Hpq Wpq] [Hqr Wqr]. split; [by etrans|].
  intros Hw. destruct (Wpq Hw) as (Hc & Ht & Hs1).
  destruct (Wqr (rank_0_white_next p q Hpq Hw Hc Ht)) as (Hc' & Ht' & Hs2).
  repeat split; [done..|].
  destruct (sg_outbox _ _ Hpq) as [m1 H1].
  destruct (sg_outbox _ _ Hqr) as [m2 H2].
  destruct (newly_sent_app p q r m1 m2 H1 H2) as (E1 & E2 & ->).
  rewrite E1 in Hs1. rewrite E2 in Hs2. by apply Forall_app.
Qed.

(** A computation that keeps the graph and touches neither colour nor the
    outbox keeps rank 0 white. *)
Lemma keeps_rank_0_white_quiet (p p' : process) :
  same_graph p p' -> my_color p' = my_color p ->
  token_color p' = token_color p -> outbox p' = outbox p ->
  keeps_rank_0_white p p'.
Proof.
  intros Hsg Hc Ht Ho. split; [done|]. intros (_ & Hc0 & Ht0 & _).
  repeat split; [congruence..|]. by rewrite newly_sent_none.
Qed.

Lemma keeps_rank_0_white_relabelled {A} (m : M A) :
  preserves same_graph m ->
  (forall p a p', m p = Some (a, p') ->
                  exists ls q, p' = relabelled ls q p) ->
  preserves keeps_rank_0_white m.
Proof.
  intros Hsg Hm p a p' H. destruct (Hm p a p' H) as (ls & q & E).
  apply keeps_rank_0_white_quiet; [by eapply Hsg| | |]; by rewrite E.
Qed.

Lemma keeps_rank_0_white_set_label (prev : global_id) (prev_rank : Z)
  (prev_idx curr_idx : local_id) (new_value tid : Z) :
  preserves keeps_rank_0_white
    (set_label prev prev_rank prev_idx curr_idx new_value tid).
Proof.
  apply keeps_rank_0_white_relabelled; [apply same_graph_set_label|].
  intros p a p'. apply set_label_frame.
Qed.

Lemma vec_at_elem {A} (v : list A) (i : Z) (x : A) :
  vec_at v i = Some x -> x ∈ v.
Proof.
  intros H. apply vec_at_Some in H as [_ H]. by eapply list_elem_of_lookup_2.
Qed.

(** A setter that cannot disturb the colours or the outbox. *)
Ltac white_setter :=
  apply preserves_modify; intros ?;
  apply keeps_rank_0_white_quiet;
  [ split; cbn; try reflexivity; exists []; by rewrite app_nil_r
  | reflexivity.. ].

Lemma keeps_rank_0_white_ERROR (text : string) :
  preserves keeps_rank_0_white (ERROR text).
Proof.
  unfold ERROR. apply preserves_modify. intros p.
  destruct (debug_mode p); [|reflexivity].
  apply keeps_rank_0_white_quiet; try reflexivity.
  split; cbn; try reflexivity. exists []. by rewrite app_nil_r.
Qed.

Lemma ranks_nonneg_out (p : process) (vi ei : Z) (v : vertex)
  (edge : out_edge) :
  ranks_nonneg p -> vec_at (vertices p) vi = Some v ->
  vec_at (out_edges v) ei = Some edge -> 0 <= rank_location edge.
Proof.
  intros Hn Hv He. unfold ranks_nonneg in Hn.
  rewrite Forall_forall in Hn. destruct (Hn v (vec_at_elem _ _ _ Hv)) as [Ho _].
  rewrite Forall_forall in Ho. apply Ho. by eapply vec_at_elem.
Qed.

Lemma ranks_nonneg_in (p : process) (vi ei : Z) (v : vertex)
  (edge : in_edge) :
  ranks_nonneg p -> vec_at (vertices p) vi = Some v ->
  vec_at (in_edges v) ei = Some edge -> 0 <= in_rank_location edge.
Proof.
  intros Hn Hv He. unfold ranks_nonneg in Hn.
  rewrite Forall_forall in Hn. destruct (Hn v (vec_at_elem _ _ _ Hv)) as [_ Hi].
  rewrite Forall_forall in Hi. apply Hi. by eapply vec_at_elem.
Qed.

Lemma keeps_rank_0_white_handle_out_edge (entry : edge_entry) (tid : Z) :
  preserves keeps_rank_0_white (handle_out_edge entry tid).
Proof.
  intros p a p' H. split; [by eapply same_graph_handle_out_edge|].
  intros (Hr & Hc & Ht & Hn).
  pose proof (handle_out_edge_sends _ _ _ _ _ H) as Hsent.
  unfold handle_out_edge in H.
  apply bind_Some in H as (v & p1 & H1 & H).
  assert (p1 = p /\ vec_at (vertices p) (vertex_index entry) = Some v)
    as [-> Hv] by run_reads. clear H1.
  apply bind_Some in H as (edge & p1 & H1 & H).
  assert (p1 = p /\ vec_at (out_edges v) (edge_index entry) = Some edge)
    as [-> He] by run_reads. clear H1.
  pose proof (ranks_nonneg_out p _ _ v edge Hn Hv He) as Hge.
  destruct (_ <=? 0).
  { injection H as _ <-. repeat split; [done..|]. by rewrite newly_sent_none. }
  apply bind_Some in H as (l & p1 & H1 & H).
  assert (p1 = p) as -> by run_reads. clear H1.
  rewrite bind_gets in H.
  destruct (rank_location edge =? mpi_rank p) eqn:Hloc.
  - apply bind_Some in H as (found & p1 & H1 & H).
    apply set_label_frame in H1 as (ls & q & ->).
    destruct found; injection H as _ <-;
      (repeat split; [done..|]); by rewrite newly_sent_none.
  - rewrite bind_gets in H. unfold MPI_Ssend in H.
    rewrite Hr in H. replace (rank_location edge <? 0) with false in H
      by (symmetry; apply Z.ltb_ge; lia).
    rewrite bind_ret, bind_modify in H. injection H as _ <-.
    repeat split; [done..|].
    erewrite newly_sent_one; [|reflexivity]. by repeat constructor.
Qed.

Lemma keeps_rank_0_white_handle_in_edge (entry : edge_entry) (tid : Z) :
  preserves keeps_rank_0_white (handle_in_edge entry tid).
Proof.
  intros p a p' H. split; [by eapply same_graph_handle_in_edge|].
  intros (Hr & Hc & Ht & Hn).
  unfold handle_in_edge in H.
  apply bind_Some in H as (v & p1 & H1 & H).
  assert (p1 = p /\ vec_at (vertices p) (vertex_index entry) = Some v)
    as [-> Hv] by run_reads. clear H1.
  apply bind_Some in H as (edge & p1 & H1 & H).
  assert (p1 = p /\ vec_at (in_edges v) (edge_index entry) = Some edge)
    as [-> He] by run_reads. clear H1.
  pose proof (ranks_nonneg_in p _ _ v edge Hn Hv He) as Hge.
  rewrite bind_gets in H.
  destruct (in_rank_location edge =? mpi_rank p) eqn:Hloc.
  - apply bind_Some in H as (u & p1 & H1 & H).
    assert (p1 = p) as -> by run_reads. clear H1.
    destruct (_ <=? 0).
    { injection H as _ <-. repeat split; [done..|].
      by rewrite newly_sent_none. }
    apply bind_Some in H as (l & p1 & H1 & H).
    assert (p1 = p) as -> by run_reads. clear H1.
    apply bind_Some in H as (found & p1 & H1 & H).
    apply set_label_frame in H1 as (ls & q & ->).
    destruct found.
    + unfold ERROR in H. rewrite bind_modify in H. injection H as _ <-.
      destruct (debug_mode _); (repeat split; [done..|]);
        by rewrite newly_sent_none.
    + injection H as _ <-. repeat split; [done..|].
      by rewrite newly_sent_none.
  - apply bind_Some in H as (l & p1 & H1 & H).
    assert (p1 = p) as -> by run_reads. clear H1.
    rewrite bind_gets in H. unfold MPI_Ssend in H.
    rewrite Hr in H. replace (in_rank_location edge <? 0) with false in H
      by (symmetry; apply Z.ltb_ge; lia).
    rewrite bind_ret, bind_modify in H. injection H as _ <-.
    repeat split; [done..|].
    erewrite newly_sent_one; [|reflexivity]. by repeat constructor.
Qed.

Lemma newly_sent_one_more (p p' : process) (more : list sent) :
  outbox p' = outbox p ++ more -> newly_sent p p' = more.
Proof. intros H. unfold newly_sent. rewrite H. apply drop_app_length. Qed.

Lemma keeps_rank_0_white_MPI_Ssend (pl : payload) (dest : Z)
  (tag : message_tags) :
  tag <> TOKEN_RED -> preserves keeps_rank_0_white (MPI_Ssend pl dest tag).
Proof.
  intros Htag. unfold MPI_Ssend. apply preserves_modify. intros p.
  split.
  - split; cbn; try reflexivity. by eexists.
  - intros (_ & Hc & Ht & _). repeat split; [done..|].
    erewrite newly_sent_one; [|reflexivity]. by repeat constructor.
Qed.

Lemma keeps_rank_0_white_send_check_termination (ranks : list Z) :
  preserves keeps_rank_0_white (send_check_termination ranks).
Proof.
  induction ranks as [|i ranks IH]; cbn [send_check_termination].
  - apply preserves_ret, _.
  - apply preserves_bind; [apply _| |intros _; exact IH].
    by apply keeps_rank_0_white_MPI_Ssend.
Qed.

Ltac white_tac :=
  unfold check_termination, claim_step_3, cas_step_3_tid, lookup_global_id,
    working_threads_add, working_threads_sub, label_at, vertex_at;
  repeat first
    [ apply keeps_rank_0_white_set_label | apply keeps_rank_0_white_ERROR
    | apply keeps_rank_0_white_handle_out_edge
    | apply keeps_rank_0_white_handle_in_edge
    | apply keeps_rank_0_white_send_check_termination
    | apply keeps_rank_0_white_MPI_Ssend; discriminate
    | frame_step
    | white_setter ].

Lemma keeps_rank_0_white_worker_idle :
  preserves keeps_rank_0_white worker_idle.
Proof.
  intros p a p' H. split; [by eapply same_graph_worker_idle|].
  intros (Hr & Hc & Ht & Hn).
  destruct (have_token p && (working_threads p =? 0) && negb (sink_found p))
    eqn:E.
  - apply andb_true_iff in E as [E Hs]. apply andb_true_iff in E as [Hh Hw].
    apply Z.eqb_eq in Hw. apply negb_true_iff in Hs.
    unfold worker_idle in H. rewrite bind_modify, !bind_gets in H.
    cbn [have_token working_threads sink_found with_queue_is_empty] in H.
    rewrite Hh, Hw, Hs in H. cbn [andb negb Z.eqb] in H.
    rewrite bind_gets in H. cbn [my_color with_queue_is_empty] in H.
    rewrite Hc in H. unfold MPI_Ssend in H.
    rewrite bind_ret, bind_modify, !bind_gets, bind_modify in H.
    unfold modify in H. injection H as _ <-. cbn.
    repeat split; [done|].
    erewrite newly_sent_one; [|reflexivity]. cbn.
    rewrite Ht. by repeat constructor.
  - rewrite (worker_idle_keeps p E) in H. injection H as _ <-.
    repeat split; [done..|]. by rewrite newly_sent_none.
Qed.

Lemma keeps_rank_0_white_worker_process (tid : Z) (bt : local_id)
  (entry : edge_entry) :
  preserves keeps_rank_0_white (worker_process tid bt entry).
Proof. unfold worker_process. white_tac. Qed.

Lemma keeps_rank_0_white_worker_step (tid : Z) (bt : local_id)
  (entry : edge_entry) :
  preserves keeps_rank_0_white (worker_step tid bt entry).
Proof.
  unfold worker_step.
  repeat first
    [ apply keeps_rank_0_white_worker_idle
    | apply keeps_rank_0_white_worker_process
    | progress white_tac ].
Qed.

Lemma tag_of_int_Some (z : Z) (t : message_tags) :
  tag_of_int z = Some t -> z = int_of_tag t.
Proof.
  unfold tag_of_int.
  repeat match goal with
         | |- context [?a =? ?b] =>
             destruct (Z.eqb_spec a b); [intros [= <-]; by subst|]
         end.
  discriminate.
Qed.

Lemma keeps_rank_0_white_router_step (tid : Z) (bt : local_id)
  (stat_source stat_tag : Z) (msg : message_data) (peers : list Z) :
  preserves keeps_rank_0_white
    (router_step tid bt stat_source stat_tag msg peers).
Proof.
  destruct (tag_of_int stat_tag) as [t|] eqn:Etag.
  2:{ unfold router_step. rewrite Etag. white_tac. }
  assert (Hquiet : t <> TOKEN_WHITE -> t <> TOKEN_RED ->
            preserves keeps_rank_0_white
              (router_step tid bt stat_source stat_tag msg peers)).
  { intros H1 H2. unfold router_step. rewrite Etag.
    destruct t; try congruence; white_tac. }
  destruct (decide (t = TOKEN_WHITE)) as [->|Hw];
    [|destruct (decide (t = TOKEN_RED)) as [->|Hr]; [|by apply Hquiet]].
  - apply tag_of_int_Some in Etag as ->.
    intros p a p' H. split; [by eapply same_graph_router_step|].
    intros (Hr & Hc & Ht & Hn).
    rewrite (router_step_white_token_rank_0 p _ _ _ _ _ Hr) in H.
    cbv zeta in H.
    destruct (MPI_Allreduce_sum (empty_flag p) peers =? 0);
      injection H as _ <-; (repeat split; [done..|]);
      (erewrite newly_sent_one_more; [|reflexivity]);
      unfold check_termination_messages;
      apply Forall_fmap, Forall_forall; by intros.
  - apply tag_of_int_Some in Etag as ->.
    intros p a p' H. split; [by eapply same_graph_router_step|].
    intros (Hr0 & Hc & Ht & Hn).
    rewrite (router_step_red_token_rank_0 p _ _ _ _ _ Hr0) in H.
    injection H as _ <-. repeat split; [done..|].
    by rewrite newly_sent_none.
Qed.

Lemma others_middle {A} (l : list A) (i : nat) (x : A) :
  l !! i = Some x -> l = take i l ++ x :: drop (S i) l.
Proof. intros H. symmetry. by apply take_drop_middle. Qed.

Lemma others_length {A} (l : list A) (i : nat) (x : A) :
  l !! i = Some x -> S (length (others l i)) = length l.
Proof.
  intros H. apply lookup_lt_Some in H. unfold others.
  rewrite length_app, length_take, length_drop. lia.
Qed.

Lemma all_queues_empty_others (ps : list process) (i : nat) (p : process) :
  ps !! i = Some p ->
  all_queues_empty ps <->
  empty_flag p = 0 /\ Forall (fun x => x = 0) (empty_flag <$> others ps i).
Proof.
  intros H. unfold all_queues_empty. rewrite (others_middle ps i p H) at 1.
  unfold others. rewrite Forall_app, Forall_cons, fmap_app, Forall_app.
  rewrite !Forall_fmap. unfold empty_flag.
  assert (Hq : forall l : list process,
             Forall (fun q => queue_is_empty q = true) l <->
             Forall ((fun x => x = 0) ∘ (fun q => if queue_is_empty q then 0 else 1)) l).
  { intros l. apply Forall_iff. intros q. cbn.
    destruct (queue_is_empty q); intuition congruence. }
  rewrite !Hq. destruct (queue_is_empty p); intuition congruence.
Qed.

Lemma empty_flags_bits (ps : list process) :
  Forall (fun x => x = 0 \/ x = 1) (empty_flag <$> ps).
Proof.
  apply Forall_fmap, Forall_forall. intros p _. cbn. unfold empty_flag.
  destruct (queue_is_empty p); auto.
Qed.

(** The Allreduce gives every rank 0 exactly when all queues are empty. *)
Lemma allreduce_zero_iff (ps : list process) (i : nat) (p : process) :
  Z.of_nat (length ps) <= INT_MAX -> ps !! i = Some p ->
  MPI_Allreduce_sum (empty_flag p) (empty_flag <$> others ps i) = 0 <->
  all_queues_empty ps.
Proof.
  intros Hmax H. rewrite (all_queues_empty_others ps i p H).
  apply MPI_Allreduce_sum_zero.
  - unfold empty_flag. destruct (queue_is_empty p); auto.
  - rewrite length_fmap. pose proof (others_length ps i p H). lia.
  - apply empty_flags_bits.
Qed.

Lemma worker_step_when_complete (q : process) (tid : Z) (bt : local_id)
  (entry : edge_entry) :
  algorithm_complete q = true ->
  exists (e : edge_entry) (q' : process),
    worker_step tid bt entry q = Some ((WorkerReturn, bt, e), q')
    /\ labels q' = labels q /\ vertices q' = vertices q
    /\ outbox q' = outbox q.
Proof.
  intros Hac. unfold worker_step. rewrite bind_gets.
  destruct (EdgeQueue_pop (edge_queue q)) as [[e q1]|].
  - rewrite bind_modify. unfold worker_process. rewrite bind_assoc, bind_gets.
    cbn [algorithm_complete with_edge_queue]. rewrite Hac.
    rewrite !bind_ret. eexists. eexists. split; [reflexivity|]. by repeat split.
  - rewrite !bind_gets, Hac, andb_false_r.
    unfold worker_process. rewrite bind_assoc, bind_gets, Hac.
    rewrite !bind_ret. eexists. eexists. split; [reflexivity|]. by repeat split.
Qed.

Lemma do_actions_keep_rank_0_white (actions : list step_2_action) :
  preserves keeps_rank_0_white (do_actions actions).
Proof.
  induction actions as [|a actions IH]; cbn [do_actions].
  - apply preserves_ret, _.
  - apply preserves_bind; [apply _| |intros _; exact IH].
    destruct a; cbn [do_action];
      (apply preserves_bind; [apply _| |intros ?; apply preserves_ret, _]).
    + apply keeps_rank_0_white_worker_step.
    + apply keeps_rank_0_white_router_step.
Qed.

(** C7: when rank 0 receives a white token it sends CHECK_TERMINATION to
    every other rank, and every process enters the Allreduce with 0 for an
    empty queue and 1 otherwise.  Each router returns, with
    [algorithm_complete] set, exactly when the sum is 0, that is when every
    queue is empty; a worker that sees [algorithm_complete] returns too.
    Otherwise rank 0 keeps the token.  A red token at rank 0 starts no check:
    nothing is sent, the token is kept and made white, and whatever the
    threads of rank 0 do afterwards, no red token leaves rank 0. *)
Theorem white_token_starts_termination_check (ps : list process) :
  cluster_numbered ps -> Z.of_nat (length ps) <= INT_MAX ->
  (forall (i : nat) (p : process),
      ps !! i = Some p ->
      exists (ctl : loop_ctl) (q' : process),
        termination_round ps !! i = Some (Some ((ctl, NO_LOCAL_ID), q'))
        /\ (ctl = ThreadReturn <-> all_queues_empty ps)
        /\ (algorithm_complete p = false ->
            algorithm_complete q' = true <-> all_queues_empty ps)
        /\ newly_sent p q' =
           match i with
           | O => (fun r => mk_sent r CHECK_TERMINATION NoPayload)
                    <$> seqZ 1 (Z.of_nat (length ps) - 1)
           | S _ => []
           end
        /\ (i = 0%nat -> ctl = LoopAgain ->
            have_token q' = true /\ token_color q' = TOKEN_WHITE)
        /\ labels q' = labels p /\ vertices q' = vertices p)
  /\ (forall (q : process) (tid : Z) (bt : local_id) (entry : edge_entry),
         algorithm_complete q = true ->
         exists (e : edge_entry) (q' : process),
           worker_step tid bt entry q = Some ((WorkerReturn, bt, e), q'))
  /\ (forall (q : process) (tid : Z) (bt : local_id) (stat_source : Z)
        (msg : message_data) (peers : list Z),
         mpi_rank q = 0 -> my_color q = TOKEN_WHITE -> ranks_nonneg q ->
         exists q' : process,
           router_step tid bt stat_source (int_of_tag TOKEN_RED) msg peers q
           = Some ((LoopAgain, bt), q')
           /\ newly_sent q q' = []
           /\ algorithm_complete q' = algorithm_complete q
           /\ have_token q' = true /\ token_color q' = TOKEN_WHITE
           /\ (forall (actions : list step_2_action) (q'' : process),
                  do_actions actions q' = Some (tt, q'') ->
                  Forall (fun s => sent_tag s <> TOKEN_RED)
                    (newly_sent q' q''))
           /\ (have_token q' = true -> working_threads q' = 0 ->
               sink_found q' = false ->
               exists q'' : process,
                 worker_idle q' = Some (tt, q'')
                 /\ newly_sent q' q'' =
                    [mk_sent (Z.rem (mpi_rank q' + 1) (mpi_size q'))
                       TOKEN_WHITE NoPayload])).
Proof.
  intros Hnum Hmax. split; [|split].
  - intros i p Hp. destruct (Hnum i p Hp) as [Hrank Hsize].
    unfold termination_round. rewrite list_lookup_imap, Hp. cbn [fmap option_fmap option_map].
    pose proof (allreduce_zero_iff ps i p Hmax Hp) as Hzero.
    set (result := MPI_Allreduce_sum (empty_flag p)
                     (empty_flag <$> others ps i)) in *.
    destruct i as [|i].
    + rewrite (router_step_white_token_rank_0 p _ _ _ _ _ Hrank). cbv zeta.
      fold result. destruct (Z.eqb_spec result 0) as [E|E].
      * eexists. eexists. split; [reflexivity|].
        split; [by rewrite <- Hzero|]. split; [intros _; by rewrite <- Hzero|].
        split.
        { erewrite newly_sent_one_more; [|reflexivity].
          unfold check_termination_messages. by rewrite Hsize. }
        split; [discriminate|]. by split.
      * eexists. eexists. split; [reflexivity|].
        split; [rewrite <- Hzero; by split|].
        split.
        { intros Hac. cbn. rewrite Hac, <- Hzero. by split. }
        split.
        { erewrite newly_sent_one_more; [|reflexivity].
          unfold check_termination_messages. by rewrite Hsize. }
        split; [by split|]. by split.
    + rewrite (router_step_check_termination p). cbv zeta. fold result.
      destruct (Z.eqb_spec result 0) as [E|E].
      * eexists. eexists. split; [reflexivity|].
        split; [by rewrite <- Hzero|]. split; [intros _; by rewrite <- Hzero|].
        split; [by apply newly_sent_none|]. split; [discriminate|]. by split.
      * eexists. eexists. split; [reflexivity|].
        split; [rewrite <- Hzero; by split|].
        split.
        { intros Hac. cbn. rewrite Hac, <- Hzero. by split. }
        split; [by apply newly_sent_none|]. split; [discriminate|]. by split.
  - intros q tid bt entry Hac.
    destruct (worker_step_when_complete q tid bt entry Hac)
      as (e & q' & H & _).
    by exists e, q'.
  - intros q tid bt stat_source msg peers Hrank Hcol Hn.
    eexists. split; [by apply router_step_red_token_rank_0|].
    set (q' := router_idle _).
    assert (Hw : rank_0_white q') by (by repeat split).
    split; [by apply newly_sent_none|]. split; [reflexivity|].
    split; [reflexivity|]. split; [reflexivity|]. split.
    + intros actions q'' Hrun.
      destruct (do_actions_keep_rank_0_white actions q' tt q'' Hrun)
        as [_ Hkeep].
      by destruct (Hkeep Hw) as (_ & _ & Hsent).
    + intros Ht Hwt Hs.
      destruct (worker_idle_forwards q' Ht Hwt Hs) as (q'' & H1 & H2 & _).
      exists q''. split; [exact H1|]. rewrite H2.
      destruct Hw as (_ & -> & -> & _). reflexivity.
Qed.

(** Two ranks, the second still has work: rank 0 probes it and keeps going. *)
Lemma white_token_starts_termination_check_witness :
  exists (ctl : loop_ctl) (q' : process),
    termination_round [sample_step_3_receiver; sample_last_rank] !! 0%nat =
    Some (Some ((ctl, NO_LOCAL_ID), q'))
    /\ ctl <> ThreadReturn
    /\ newly_sent sample_step_3_receiver q' =
       [mk_sent 1 CHECK_TERMINATION NoPayload].
Proof.
  destruct (white_token_starts_termination_check
              [sample_step_3_receiver; sample_last_rank]) as [Hround _].
  { intros i p H. destruct i as [|[|i]]; cbn in H; simplify_eq; by split. }
  { unfold INT_MAX. cbn. lia. }
  destruct (Hround 0%nat sample_step_3_receiver eq_refl)
    as (ctl & q' & H1 & H2 & _ & H3 & _).
  exists ctl, q'. split; [exact H1|]. split; [|exact H3].
  intros Hctl. apply H2 in Hctl. unfold all_queues_empty in Hctl.
  apply Forall_cons in Hctl as [_ Hctl]. apply Forall_cons in Hctl as [Hq _].
  discriminate.
Defined.

(** ** The end of the program *)

Lemma sum_flows_exact (es : list out_edge) :
  Forall (fun e => 0 <= flow e) es ->
  foldr Z.add 0 (flow <$> es) <= INT_MAX ->
  sum_flows es = foldr Z.add 0 (flow <$> es)
  /\ 0 <= foldr Z.add 0 (flow <$> es).
Proof.
  unfold sum_flows. intros Hpos Hmax.
  assert (Hgen : forall acc,
             0 <= acc -> acc + foldr Z.add 0 (flow <$> es) <= INT_MAX ->
             foldl (fun total e => int_add total (flow e)) acc es =
             acc + foldr Z.add 0 (flow <$> es)
             /\ 0 <= foldr Z.add 0 (flow <$> es)).
  { clear Hmax. induction Hpos as [|e es He Hes IH]; intros acc Hacc Hmax; cbn.
    - lia.
    - cbn in Hmax.
      assert (Hrest : 0 <= foldr Z.add 0 (flow <$> es)).
      { clear -Hes. induction Hes as [|x l Hx _ IH]; cbn; lia. }
      assert (Hadd : int_add acc (flow e) = acc + flow e).
      { apply wrap_int_id. unfold in_int_range, INT_MIN, INT_MAX in *. lia. }
      rewrite Hadd. destruct (IH (acc + flow e)) as [-> _]; lia. }
  destruct (Hgen 0) as [-> H]; [lia|lia|]. split; [lia|exact H].
Qed.

Lemma main_report_rank_0 (total : Z) (runtime : string) (p : process) :
  mpi_rank p = 0 ->
  main_report total runtime p =
  Some (tt, with_stdout
              (fun o => o ++ [max_flow_line total; runtime_line runtime]) p).
Proof. intros Hr. unfold main_report. by rewrite bind_gets, Hr. Qed.

Lemma main_report_other_rank (total : Z) (runtime : string) (p : process) :
  mpi_rank p <> 0 -> main_report total runtime p = Some (tt, p).
Proof.
  intros Hr. unfold main_report. rewrite bind_gets.
  apply Z.eqb_neq in Hr. by rewrite Hr.
Qed.

(** [calc_max_flow] on the rank that owns the source. *)
Lemma calc_max_flow_tail_owner (p : process) (idx : local_id) (v : vertex)
  (incoming : list Z) :
  global_to_local p !! source_id p = Some idx -> idx <> NO_LOCAL_ID ->
  vec_at (vertices p) idx = Some v ->
  sum_flows (out_edges v) <> -1 ->
  calc_max_flow_tail incoming p =
  Some (if mpi_rank p =? 0 then Some (sum_flows (out_edges v)) else Some (-1),
        (if mpi_rank p =? 0 then fun x => x
         else with_outbox
                (fun o => o ++ [mk_sent 0 TOTAL_FLOW
                                  (IntPayload (sum_flows (out_edges v)))]))
          (with_stdout (fun o => o ++ [calculation_complete_line]) p)).
Proof.
  intros Hg Hidx Hv Hsum. unfold calc_max_flow_tail.
  rewrite bind_modify, bind_gets.
  set (p1 := with_stdout _ p).
  rewrite (bind_eq _ _ _ _ _ (lookup_global_id_eq _ _)).
  change (global_to_local p1) with (global_to_local p).
  change (source_id p1) with (source_id p). rewrite Hg.
  apply Z.eqb_neq in Hidx. rewrite Hidx. cbn [negb].
  rewrite bind_assoc.
  assert (Hv1 : vec_at (vertices p1) idx = Some v) by exact Hv.
  rewrite (bind_eq _ _ _ _ _ (vertex_at_eq _ _ _ Hv1)).
  rewrite bind_ret, bind_gets. change (mpi_rank p1) with (mpi_rank p).
  apply Z.eqb_neq in Hsum. rewrite Hsum. cbn [negb].
  destruct (mpi_rank p =? 0); [reflexivity|].
  unfold MPI_Ssend. by rewrite bind_modify.
Qed.

(** [calc_max_flow] on a rank that does not own the source. *)
Lemma calc_max_flow_tail_other (p : process) (incoming : list Z) :
  global_to_local p !! source_id p = None ->
  calc_max_flow_tail incoming p =
  Some (if mpi_rank p =? 0 then head incoming else Some (-1),
        with_stdout (fun o => o ++ [calculation_complete_line]) p).
Proof.
  intros Hg. unfold calc_max_flow_tail.
  rewrite bind_modify, bind_gets.
  set (p1 := with_stdout _ p).
  rewrite (bind_eq _ _ _ _ _ (lookup_global_id_eq _ _)).
  change (global_to_local p1) with (global_to_local p).
  change (source_id p1) with (source_id p). rewrite Hg.
  rewrite Z.eqb_refl. cbn [negb]. rewrite bind_ret, bind_gets.
  change (mpi_rank p1) with (mpi_rank p). cbn [Z.eqb negb].
  by destruct (mpi_rank p =? 0).
Qed.

Lemma finish_owner_rank_0 (p : process) (idx : local_id) (v : vertex)
  (incoming : list Z) (runtime : string) :
  global_to_local p !! source_id p = Some idx -> idx <> NO_LOCAL_ID ->
  vec_at (vertices p) idx = Some v ->
  sum_flows (out_edges v) <> -1 -> mpi_rank p = 0 ->
  finish incoming runtime p =
  Some (Some (sum_flows (out_edges v)),
        with_stdout
          (fun o => o ++ [max_flow_line (sum_flows (out_edges v));
                          runtime_line runtime])
          (with_stdout (fun o => o ++ [calculation_complete_line]) p)).
Proof.
  intros Hg Hidx Hv Hsum Hr. unfold finish.
  rewrite (bind_eq _ _ _ _ _
             (calc_max_flow_tail_owner p idx v incoming Hg Hidx Hv Hsum)).
  rewrite Hr. cbn [Z.eqb]. cbv beta iota.
  by rewrite (bind_eq _ _ _ _ _ (main_report_rank_0 _ _ (with_stdout _ p) Hr)).
Qed.

Lemma finish_owner_other_rank (p : process) (idx : local_id) (v : vertex)
  (incoming : list Z) (runtime : string) :
  global_to_local p !! source_id p = Some idx -> idx <> NO_LOCAL_ID ->
  vec_at (vertices p) idx = Some v ->
  sum_flows (out_edges v) <> -1 -> mpi_rank p <> 0 ->
  finish incoming runtime p =
  Some (Some (-1),
        with_outbox
          (fun o => o ++ [mk_sent 0 TOTAL_FLOW
                            (IntPayload (sum_flows (out_edges v)))])
          (with_stdout (fun o => o ++ [calculation_complete_line]) p)).
Proof.
  intros Hg Hidx Hv Hsum Hr. unfold finish.
  rewrite (bind_eq _ _ _ _ _
             (calc_max_flow_tail_owner p idx v incoming Hg Hidx Hv Hsum)).
  pose proof Hr as Hr'. apply Z.eqb_neq in Hr'. rewrite Hr'. cbv beta iota.
  by rewrite (bind_eq _ _ _ _ _
                (main_report_other_rank _ _ (with_outbox _ (with_stdout _ p))
                   Hr)).
Qed.

Lemma finish_other_rank_0 (p : process) (incoming : list Z)
  (runtime : string) (total : Z) :
  global_to_local p !! source_id p = None -> mpi_rank p = 0 ->
  head incoming = Some total ->
  finish incoming runtime p =
  Some (Some total,
        with_stdout
          (fun o => o ++ [max_flow_line total; runtime_line runtime])
          (with_stdout (fun o => o ++ [calculation_complete_line]) p)).
Proof.
  intros Hg Hr Hin. unfold finish.
  rewrite (bind_eq _ _ _ _ _ (calc_max_flow_tail_other p incoming Hg)).
  rewrite Hr, Hin. cbn [Z.eqb]. cbv beta iota.
  by rewrite (bind_eq _ _ _ _ _ (main_report_rank_0 _ _ (with_stdout _ p) Hr)).
Qed.

Lemma finish_other_rank (p : process) (incoming : list Z)
  (runtime : string) :
  global_to_local p !! source_id p = None -> mpi_rank p <> 0 ->
  finish incoming runtime p =
  Some (Some (-1),
        with_stdout (fun o => o ++ [calculation_complete_line]) p).
Proof.
  intros Hg Hr. unfold finish.
  rewrite (bind_eq _ _ _ _ _ (calc_max_flow_tail_other p incoming Hg)).
  pose proof Hr as Hr'. apply Z.eqb_neq in Hr'. rewrite Hr'. cbv beta iota.
  by rewrite (bind_eq _ _ _ _ _ (main_report_other_rank _ _ (with_stdout _ p) Hr)).
Qed.

Lemma foldr_add_snoc (l : list Z) (x : Z) :
  foldr Z.add 0 (l ++ [x]) = foldr Z.add 0 l + x.
Proof. induction l as [|y l IH]; cbn; lia. Qed.

Lemma sum_fits_int_prefix (es : list out_edge) (k : nat) :
  sum_fits_int es -> (k <= length es)%nat ->
  in_int_range (foldr Z.add 0 (flow <$> take k es)).
Proof.
  unfold sum_fits_int, running_sums. intros H Hk.
  rewrite Forall_forall in H. apply H.
  apply list_elem_of_fmap. exists k. split; [done|].
  apply elem_of_seq. lia.
Qed.

(** As long as no addition overflows, the loop computes the sum. *)
Lemma sum_flows_fits (es : list out_edge) :
  sum_fits_int es -> sum_flows es = foldr Z.add 0 (flow <$> es).
Proof.
  induction es as [|e es IH] using rev_ind; [done|]. intros H.
  unfold sum_flows. rewrite foldl_app. cbn [foldl]. fold (sum_flows es).
  rewrite IH.
  - rewrite fmap_app. cbn [fmap list_fmap]. rewrite foldr_add_snoc.
    apply wrap_int_id.
    pose proof (sum_fits_int_prefix (es ++ [e]) (length (es ++ [e])) H
                  ltac:(lia)) as Hr.
    rewrite firstn_all, fmap_app in Hr. cbn [fmap list_fmap] in Hr.
    by rewrite foldr_add_snoc in Hr.
  - unfold sum_fits_int, running_sums. apply Forall_forall.
    intros x Hx. apply list_elem_of_fmap in Hx as (k & -> & Hk).
    apply elem_of_seq in Hk.
    pose proof (sum_fits_int_prefix (es ++ [e]) k H) as Hr.
    rewrite length_app in Hr. cbn in Hr.
    rewrite take_app_le in Hr by lia. apply Hr. lia.
Qed.

Lemma foldr_add_take_bounds (l : list Z) (k : nat) :
  Forall (fun x => 0 <= x) l ->
  0 <= foldr Z.add 0 (take k l) <= foldr Z.add 0 l.
Proof.
  intros H. revert k. induction H as [|x l Hx _ IH]; intros k.
  - rewrite take_nil. cbn. lia.
  - destruct k as [|k]; cbn.
    + specialize (IH 0%nat). rewrite take_0 in IH. cbn in IH. lia.
    + specialize (IH k). lia.
Qed.

(** Flows that are not negative and add up to no more than [INT_MAX] cause
    no overflow, and their sum is not -1. *)
Lemma nonneg_flows_fit_int (es : list out_edge) :
  Forall (fun e => 0 <= flow e) es ->
  foldr Z.add 0 (flow <$> es) <= INT_MAX ->
  sum_fits_int es /\ foldr Z.add 0 (flow <$> es) <> -1.
Proof.
  intros Hpos Hmax.
  assert (Hpos' : Forall (fun x => 0 <= x) (flow <$> es)).
  { apply Forall_fmap. eapply Forall_impl; [exact Hpos|]. done. }
  split.
  - unfold sum_fits_int, running_sums. apply Forall_forall.
    intros x Hx. apply list_elem_of_fmap in Hx as (k & -> & _).
    rewrite fmap_take.
    pose proof (foldr_add_take_bounds _ k Hpos') as Hb.
    unfold in_int_range, INT_MIN. lia.
  - pose proof (foldr_add_take_bounds _ 0 Hpos') as Hb. lia.
Qed.




(** ** The capacity invariant *)

Lemma capacity_respected_edge (p : process) (vi : local_id) (ei : nat)
  (e : out_edge) :
  capacity_respected p -> edge_at p vi ei = Some e ->
  0 <= flow e <= capacity e.
Proof.
  unfold capacity_respected, edge_at, edge_in. intros Hc He.
  destruct (vec_at (vertices p) vi) as [v|] eqn:Hv; [|discriminate].
  rewrite Forall_forall in Hc. specialize (Hc v (vec_at_elem _ _ _ Hv)).
  rewrite Forall_forall in Hc. apply Hc. by eapply list_elem_of_lookup_2.
Qed.

(** C2 fails on the code: all flows start at 0 within their capacities, and
    after the first pass the self-loop at the source carries 3 units against
    a capacity of 1.  The backtrack visits the source, whose label names the
    source itself as predecessor, and adds the increment to the source's edge
    to itself. *)
Lemma pass_over_self_loop_breaks_capacity :
  capacity_respected self_loop_input
  /\ exists p' : process,
       single_pass 100 self_loop_input = Some (Some PassAugmented, p')
       /\ edge_at p' 0 0 = Some (mk_out_edge 0 0 0 1 3)
       /\ edge_at p' 0 1 = Some (mk_out_edge 1 0 1 3 3)
       /\ ~ capacity_respected p'.
Proof.
  split.
  - repeat constructor; cbn; lia.
  - eexists. split; [vm_compute; reflexivity|].
    split; [reflexivity|]. split; [reflexivity|].
    intros Hc.
    pose proof (capacity_respected_edge _ 0 0%nat _ Hc eq_refl) as H.
    cbn in H. lia.
Qed.

(** The whole run on that input ends with the violation in place and reports
    6, the flow of the self-loop added to the 3 units that reach the sink. *)
Lemma run_over_self_loop_reports_6 :
  main_single 10 100 2 [[(0, 1); (1, 3)]; []] =
  Some [calculation_complete_line; max_flow_line 6; runtime_line ""].
Proof. vm_compute. reflexivity. Qed.

(** * Further properties of the code *)

(** ** Loading *)

Lemma vec_at_seqZ (k n i : Z) :
  0 <= i < n -> vec_at (seqZ k n) i = Some (k + i).
Proof.
  intros Hi. apply vec_at_Some. split; [lia|].
  rewrite lookup_seqZ. split; lia.
Qed.

(** What the two insertions of [read_file] do to the vertex at [j]. *)
Lemma add_out_edge_at (src dest : global_id) (cap : Z) (vs : list vertex)
  (j : Z) (v : vertex) :
  is_Some (vec_at vs src) -> vec_at vs j = Some v ->
  vec_at (add_out_edge src dest cap vs) j =
  Some (if decide (j = src)
        then mk_vertex (id v)
               (out_edges v ++ [mk_out_edge dest 0 NO_LOCAL_ID cap 0])
               (in_edges v)
        else v).
Proof.
  intros [s Hs] Hj. unfold add_out_edge. rewrite Hs.
  destruct (decide (j = src)) as [->|Hne].
  - rewrite Hs in Hj. injection Hj as ->. eapply vec_at_set_eq, Hs.
  - rewrite vec_at_set_ne; [done| |congruence].
    apply vec_at_Some in Hs. tauto.
Qed.

Lemma add_in_edge_at (src dest : global_id) (vs : list vertex) (j : Z)
  (v : vertex) :
  is_Some (vec_at vs dest) -> vec_at vs j = Some v ->
  vec_at (add_in_edge src dest vs) j =
  Some (if decide (j = dest)
        then mk_vertex (id v) (out_edges v)
               (in_edges v ++ [mk_in_edge src 0 NO_LOCAL_ID])
        else v).
Proof.
  intros [s Hs] Hj. unfold add_in_edge. rewrite Hs.
  destruct (decide (j = dest)) as [->|Hne].
  - rewrite Hs in Hj. injection Hj as ->. eapply vec_at_set_eq, Hs.
  - rewrite vec_at_set_ne; [done| |congruence].
    apply vec_at_Some in Hs. tauto.
Qed.

Lemma add_out_edge_length (src dest : global_id) (cap : Z)
  (vs : list vertex) :
  length (add_out_edge src dest cap vs) = length vs.
Proof.
  unfold add_out_edge. destruct (vec_at vs src); [apply vec_set_length|done].
Qed.

Lemma add_in_edge_length (src dest : global_id) (vs : list vertex) :
  length (add_in_edge src dest vs) = length vs.
Proof.
  unfold add_in_edge. destruct (vec_at vs dest); [apply vec_set_length|done].
Qed.

Lemma read_line_length (k : global_id) (pairs : list (Z * Z)) :
  forall vs, length (read_line k pairs vs) = length vs.
Proof.
  induction pairs as [|[d c] pairs IH]; intros vs; cbn; [done|].
  by rewrite IH, add_in_edge_length, add_out_edge_length.
Qed.

(** One line: its pairs become the new outgoing edges of vertex [k], in order,
    and each pair adds an incoming edge from [k] at its destination. *)
Lemma read_line_at (k : global_id) (pairs : list (Z * Z)) :
  forall (vs : list vertex) (j : Z) (v : vertex),
    0 <= k < Z.of_nat (length vs) ->
    Forall (fun dc => 0 <= fst dc < Z.of_nat (length vs)) pairs ->
    vec_at vs j = Some v ->
    vec_at (read_line k pairs vs) j =
    Some (mk_vertex (id v)
            (out_edges v ++ if decide (j = k) then out_edges_of_line pairs
                            else [])
            (in_edges v ++ in_edges_of_line k j pairs)).
Proof.
  induction pairs as [|[d c] pairs IH]; intros vs j v Hk Hpairs Hj.
  - cbn. rewrite Hj. f_equal. destruct v. cbn.
    destruct (decide (j = k)); by rewrite !app_nil_r.
  - apply Forall_cons in Hpairs as [Hd Hpairs]. cbn [fst] in Hd.
    cbn [read_line].
    assert (Hsrc : is_Some (vec_at vs k)) by (by apply vec_at_is_Some).
    pose proof (add_out_edge_at k d c vs j v Hsrc Hj) as H1.
    assert (Hdst : is_Some (vec_at (add_out_edge k d c vs) d)).
    { apply vec_at_is_Some. by rewrite add_out_edge_length. }
    pose proof (add_in_edge_at k d _ j _ Hdst H1) as H2.
    assert (Hlen : length (add_in_edge k d (add_out_edge k d c vs))
                   = length vs)
      by (by rewrite add_in_edge_length, add_out_edge_length).
    rewrite <- Hlen in Hk, Hpairs.
    rewrite (IH _ j _ Hk Hpairs H2).
    f_equal. unfold in_edges_of_line. cbn [List.filter fst].
    destruct (decide (j = k)) as [Hjk|Hjk], (decide (j = d)) as [Hjd|Hjd];
      cbn [id out_edges in_edges out_edges_of_line map fst snd].
    + replace (d =? j) with true by (symmetry; apply Z.eqb_eq; congruence).
      cbn. by rewrite <- !app_assoc.
    + replace (d =? j) with false by (symmetry; apply Z.eqb_neq; congruence).
      cbn. by rewrite <- !app_assoc.
    + replace (d =? j) with true by (symmetry; apply Z.eqb_eq; congruence).
      cbn. by rewrite <- !app_assoc.
    + replace (d =? j) with false by (symmetry; apply Z.eqb_neq; congruence).
      done.
Qed.

Lemma read_lines_length (lines : list (list (Z * Z))) :
  forall k vs, length (read_lines k lines vs) = length vs.
Proof.
  induction lines as [|line lines IH]; intros k vs; cbn; [done|].
  by rewrite IH, read_line_length.
Qed.

Lemma line_of_cons (k j : global_id) (line : list (Z * Z))
  (lines : list (list (Z * Z))) :
  line_of k j (line :: lines) =
  if decide (j = k) then line else line_of (k + 1) j lines.
Proof.
  unfold line_of.
  destruct (decide (j = k)) as [->|Hne].
  - rewrite decide_True by lia. by rewrite Z.sub_diag.
  - destruct (decide (k <= j)) as [Hle|Hgt].
    + rewrite decide_True by lia.
      replace (Z.to_nat (j - k)) with (S (Z.to_nat (j - (k + 1)))) by lia.
      done.
    + by rewrite decide_False by lia.
Qed.

Lemma out_edges_of_line_nil : out_edges_of_line [] = [].
Proof. done. Qed.

(** All the lines: vertex [j] gains the edges of its own line, and one
    incoming edge for every pair that names it, in reading order. *)
Lemma read_lines_at (lines : list (list (Z * Z))) :
  forall (k : global_id) (vs : list vertex) (j : Z) (v : vertex),
    0 <= k ->
    k + Z.of_nat (length lines) <= Z.of_nat (length vs) ->
    Forall (Forall (fun dc => 0 <= fst dc < Z.of_nat (length vs))) lines ->
    vec_at vs j = Some v ->
    vec_at (read_lines k lines vs) j =
    Some (mk_vertex (id v)
            (out_edges v ++ out_edges_of_line (line_of k j lines))
            (in_edges v ++ in_edges_of_lines k j lines)).
Proof.
  induction lines as [|line lines IH]; intros k vs j v Hk Hlen Hall Hj.
  - cbn. rewrite Hj. f_equal. destruct v. cbn.
    unfold line_of. destruct (decide (k <= j)); cbn; by rewrite !app_nil_r.
  - apply Forall_cons in Hall as [Hline Hall].
    cbn [read_lines in_edges_of_lines]. cbn [length] in Hlen.
    assert (Hk' : 0 <= k < Z.of_nat (length vs)) by lia.
    pose proof (read_line_at k line vs j v Hk' Hline Hj) as H1.
    pose proof (read_line_length k line vs) as Hl.
    rewrite <- Hl in Hall.
    assert (Hlen' : k + 1 + Z.of_nat (length lines)
                    <= Z.of_nat (length (read_line k line vs)))
      by (rewrite Hl; lia).
    rewrite (IH (k + 1) _ j _ ltac:(lia) Hlen' Hall H1).
    cbn [id out_edges in_edges]. rewrite line_of_cons.
    f_equal. f_equal.
    + rewrite <- app_assoc. f_equal.
      destruct (decide (j = k)) as [->|Hne]; [|done].
      unfold line_of at 1. rewrite decide_False by lia.
      by rewrite out_edges_of_line_nil, app_nil_r.
    + by rewrite <- app_assoc.
Qed.

(** The vertex [read_file] leaves at index [j]. *)
Lemma read_file_at (num_vertices : Z) (lines : list (list (Z * Z)))
  (j : Z) :
  input_in_range num_vertices lines ->
  0 <= j < num_vertices ->
  vec_at (read_file num_vertices lines) j =
  Some (mk_vertex j (out_edges_of_line (line_of 0 j lines))
          (in_edges_of_lines 0 j lines)).
Proof.
  intros [Hlen Hall] Hj. unfold read_file.
  set (vs := map _ _).
  assert (Hvs : length vs = Z.to_nat num_vertices).
  { unfold vs. by rewrite length_map, length_seqZ. }
  assert (Hat : vec_at vs j = Some (mk_vertex j [] [])).
  { unfold vs. rewrite vec_at_map, vec_at_seqZ by done. done. }
  assert (Hn : Z.of_nat (length vs) = num_vertices) by lia.
  rewrite <- Hn in Hall.
  rewrite (read_lines_at lines 0 vs j _ ltac:(lia) ltac:(lia) Hall Hat).
  done.
Qed.

(** X1.  [read_file] on an input that fits its header and whose capacities
    fit an [int]: the vertices get the ids [0 .. num_vertices-1]; vertex [j]
    has exactly the pairs of its line as outgoing edges, in the order of the
    line, each with flow [0], rank [0] and index [(local_id)-1]; and its
    incoming edges are one per pair that names [j], in reading order. *)
Theorem read_file_vertex (num_vertices : Z) (lines : list (list (Z * Z)))
  (j : Z) :
  input_in_range num_vertices lines ->
  capacities_fit_int lines ->
  0 <= j < num_vertices ->
  vec_at (read_file num_vertices lines) j =
  Some (mk_vertex j (out_edges_of_line (line_of 0 j lines))
          (in_edges_of_lines 0 j lines)).
Proof. intros Hin _. by apply read_file_at. Qed.

Lemma read_file_vertex_witness :
  vec_at (read_file 3 [[(1, 4); (2, 5)]; [(2, 6)]]) 2 =
  Some (mk_vertex 2 []
          [mk_in_edge 0 0 NO_LOCAL_ID; mk_in_edge 1 0 NO_LOCAL_ID]).
Proof.
  apply (read_file_vertex 3 [[(1, 4); (2, 5)]; [(2, 6)]] 2).
  - split; [cbn; lia|]. repeat constructor; cbn; lia.
  - unfold capacities_fit_int, in_int_range.
    apply (bool_decide_unpack _). vm_compute. reflexivity.
  - lia.
Defined.

Lemma read_file_length (num_vertices : Z) (lines : list (list (Z * Z))) :
  length (read_file num_vertices lines) = Z.to_nat num_vertices.
Proof.
  unfold read_file. by rewrite read_lines_length, length_map, length_seqZ.
Qed.

Lemma filter_out_edges_of_line (d : global_id) (pairs : list (Z * Z)) :
  length (List.filter (fun e => dest_node_id e =? d) (out_edges_of_line pairs))
  = length (List.filter (fun dc => fst dc =? d) pairs).
Proof.
  unfold out_edges_of_line.
  induction pairs as [|[d' c] pairs IH]; [done|].
  cbn [map List.filter dest_node_id fst snd].
  destruct (d' =? d); cbn [length]; by rewrite IH.
Qed.

Lemma filter_in_edges_of_line (k u d : global_id) (pairs : list (Z * Z)) :
  length (List.filter (fun e => in_dest_node_id e =? u)
            (in_edges_of_line k d pairs))
  = if decide (k = u)
    then length (List.filter (fun dc => fst dc =? d) pairs) else 0%nat.
Proof.
  unfold in_edges_of_line.
  induction (List.filter (fun dc => fst dc =? d) pairs) as [|x l IH].
  - by destruct (decide (k = u)).
  - cbn. destruct (decide (k = u)) as [->|Hne].
    + rewrite Z.eqb_refl. cbn. by rewrite IH.
    + replace (k =? u) with false by (symmetry; by apply Z.eqb_neq). done.
Qed.

Lemma filter_in_edges_of_lines (u d : global_id)
  (lines : list (list (Z * Z))) :
  forall k,
    length (List.filter (fun e => in_dest_node_id e =? u)
              (in_edges_of_lines k d lines))
    = length (List.filter (fun dc => fst dc =? d) (line_of k u lines)).
Proof.
  induction lines as [|line lines IH]; intros k.
  - cbn. unfold line_of. by destruct (decide (k <= u)).
  - cbn [in_edges_of_lines]. rewrite List.filter_app, length_app.
    rewrite filter_in_edges_of_line, IH, line_of_cons.
    destruct (decide (k = u)) as [->|Hne].
    + rewrite decide_True by done. unfold line_of.
      rewrite decide_False by lia. cbn. lia.
    + rewrite decide_False by congruence. done.
Qed.

(** X2.  [read_file] builds the two directions together: in the graph it
    returns, vertex [u] has as many outgoing edges towards [d] as vertex [d]
    has incoming edges from [u]. *)
Theorem read_file_edges_paired (num_vertices : Z)
  (lines : list (list (Z * Z))) (u d : global_id) :
  input_in_range num_vertices lines ->
  0 <= u < num_vertices -> 0 <= d < num_vertices ->
  exists vu vd : vertex,
    vec_at (read_file num_vertices lines) u = Some vu
    /\ vec_at (read_file num_vertices lines) d = Some vd
    /\ length (out_edges_towards d vu) = length (in_edges_from u vd).
Proof.
  intros Hin Hu Hd.
  eexists _, _. split; [by apply read_file_at|].
  split; [by apply read_file_at|].
  unfold out_edges_towards, in_edges_from. cbn [out_edges in_edges].
  by rewrite filter_out_edges_of_line, filter_in_edges_of_lines.
Qed.

Lemma read_file_edges_paired_witness :
  exists vu vd : vertex,
    vec_at (read_file 3 [[(1, 4); (2, 5)]; [(2, 6)]]) 0 = Some vu
    /\ vec_at (read_file 3 [[(1, 4); (2, 5)]; [(2, 6)]]) 2 = Some vd
    /\ length (out_edges_towards 2 vu) = length (in_edges_from 0 vd).
Proof.
  apply (read_file_edges_paired 3 [[(1, 4); (2, 5)]; [(2, 6)]] 0 2).
  - split; [cbn; lia|]. repeat constructor; cbn; lia.
  - lia.
  - lia.
Defined.

(** ** The map from global to local ids *)

Lemma build_global_to_local_snoc (vs : list vertex) (v : vertex) :
  build_global_to_local (vs ++ [v]) =
  <[id v := Z.of_nat (length vs)]> (build_global_to_local vs).
Proof.
  unfold build_global_to_local.
  rewrite length_app. cbn [length].
  replace (length vs + 1)%nat with (S (length vs)) by lia.
  rewrite seqZ_S, zip_with_app by (by rewrite length_seqZ, Nat2Z.id).
  rewrite foldl_app. cbn. by rewrite Z.add_0_l.
Qed.

(** An entry of the map points at a vertex with that id. *)
Lemma build_global_to_local_sound (vs : list vertex) (gid : global_id)
  (i : local_id) :
  build_global_to_local vs !! gid = Some i ->
  exists v, vec_at vs i = Some v /\ id v = gid.
Proof.
  revert i. induction vs as [|v vs IH] using rev_ind; intros i.
  - done.
  - rewrite build_global_to_local_snoc.
    destruct (decide (id v = gid)) as [Heq|Hne].
    + rewrite Heq, lookup_insert_eq. intros [= <-]. exists v. split; [|done].
      rewrite vec_at_of_nat. by rewrite list_lookup_middle.
    + rewrite lookup_insert_ne by done. intros Hl.
      destruct (IH _ Hl) as (w & Hw & Hid). exists w. split; [|done].
      apply vec_at_Some in Hw as [H0 Hw]. apply vec_at_Some. split; [done|].
      by apply lookup_app_l_Some.
Qed.

Lemma build_global_to_local_none (vs : list vertex) (gid : global_id) :
  gid ∉ id <$> vs -> build_global_to_local vs !! gid = None.
Proof.
  intros Hnot. destruct (build_global_to_local vs !! gid) as [i|] eqn:E;
    [|done].
  destruct (build_global_to_local_sound _ _ _ E) as (v & Hv & Hid).
  exfalso. apply Hnot. subst gid. apply list_elem_of_fmap_2.
  by eapply vec_at_elem.
Qed.

Lemma build_global_to_local_complete (vs : list vertex) (i : nat)
  (v : vertex) :
  NoDup (id <$> vs) -> vs !! i = Some v ->
  build_global_to_local vs !! id v = Some (Z.of_nat i).
Proof.
  revert i. induction vs as [|w vs IH] using rev_ind; intros i Hnd Hi.
  - done.
  - rewrite build_global_to_local_snoc.
    rewrite fmap_app in Hnd. apply NoDup_app in Hnd as (Hnd & Hdisj & _).
    apply lookup_app_Some in Hi as [Hi|[Hge Hi]].
    + rewrite lookup_insert_ne.
      * by apply IH.
      * intros Heq. apply (Hdisj (id v)).
        -- apply list_elem_of_fmap_2. by eapply list_elem_of_lookup_2.
        -- rewrite <- Heq. cbn. apply list_elem_of_here.
    + destruct (i - length vs)%nat as [|n] eqn:En; [|done].
      cbn in Hi. injection Hi as ->.
      rewrite lookup_insert_eq. f_equal. lia.
Qed.

(** X3.  [lookup_global_id] after the loop of [main] that fills
    [global_to_local]: when the local vertices have distinct ids, the id of
    the vertex at index [i] is looked up as [i], and an id that no local
    vertex has is looked up as [(local_id)-1]; the call changes nothing. *)
Theorem lookup_global_id_round_trip (p : process) (gid : global_id) :
  NoDup (id <$> vertices p) ->
  global_to_local p = build_global_to_local (vertices p) ->
  exists i : local_id,
    lookup_global_id gid p = Some (i, p)
    /\ ((exists v, vec_at (vertices p) i = Some v /\ id v = gid)
        \/ (i = NO_LOCAL_ID /\ gid ∉ id <$> vertices p))
    /\ (forall (j : nat) (v : vertex),
          vertices p !! j = Some v -> id v = gid -> i = Z.of_nat j).
Proof.
  intros Hnd Hg. rewrite lookup_global_id_eq, Hg.
  destruct (build_global_to_local (vertices p) !! gid) as [i|] eqn:E.
  - exists i. split; [done|]. split.
    + left. by apply build_global_to_local_sound.
    + intros j v Hj Hid. subst gid.
      rewrite (build_global_to_local_complete _ _ _ Hnd Hj) in E. congruence.
  - exists NO_LOCAL_ID. split; [done|].
    assert (Hnot : gid ∉ id <$> vertices p).
    { intros Hel. apply list_elem_of_fmap in Hel as (v & -> & Hv).
      apply list_elem_of_lookup in Hv as [j Hj].
      rewrite (build_global_to_local_complete _ _ _ Hnd Hj) in E. congruence. }
    split; [by right|].
    intros j v Hj Hid. exfalso. apply Hnot. subst gid.
    apply list_elem_of_fmap_2. by eapply list_elem_of_lookup_2.
Qed.

Lemma lookup_global_id_round_trip_witness :
  exists i : local_id,
    lookup_global_id 2 sample_two_ranks = Some (i, sample_two_ranks)
    /\ ((exists v, vec_at (vertices sample_two_ranks) i = Some v /\ id v = 2)
        \/ (i = NO_LOCAL_ID /\ 2 ∉ id <$> vertices sample_two_ranks))
    /\ (forall (j : nat) (v : vertex),
          vertices sample_two_ranks !! j = Some v -> id v = 2 ->
          i = Z.of_nat j).
Proof.
  apply (lookup_global_id_round_trip sample_two_ranks 2).
  - apply (bool_decide_unpack _). vm_compute. reflexivity.
  - vm_compute. reflexivity.
Defined.

(** ** The far ends of the edges after partitioning *)

Lemma read_file_elem (num_vertices : Z) (lines : list (list (Z * Z)))
  (v : vertex) :
  input_in_range num_vertices lines ->
  v ∈ read_file num_vertices lines ->
  0 <= id v < num_vertices
  /\ v = mk_vertex (id v) (out_edges_of_line (line_of 0 (id v) lines))
           (in_edges_of_lines 0 (id v) lines).
Proof.
  intros Hin Hv. apply list_elem_of_lookup in Hv as [i Hi].
  pose proof (lookup_lt_Some _ _ _ Hi) as Hlt.
  rewrite read_file_length in Hlt.
  assert (Hr : 0 <= Z.of_nat i < num_vertices) by lia.
  pose proof (read_file_at _ _ _ Hin Hr) as Hat.
  rewrite vec_at_of_nat, Hi in Hat. injection Hat as ->. cbn. done.
Qed.

Lemma read_file_ids_NoDup (num_vertices : Z) (lines : list (list (Z * Z))) :
  input_in_range num_vertices lines ->
  forall x y, x ∈ read_file num_vertices lines ->
              y ∈ read_file num_vertices lines -> id x = id y -> x = y.
Proof.
  intros Hin x y Hx Hy Hid.
  apply (read_file_elem _ _ _ Hin) in Hx as [_ Hx].
  apply (read_file_elem _ _ _ Hin) in Hy as [_ Hy].
  rewrite Hx, Hy, Hid. done.
Qed.

Lemma read_file_NoDup (num_vertices : Z) (lines : list (list (Z * Z))) :
  input_in_range num_vertices lines ->
  NoDup (read_file num_vertices lines).
Proof.
  intros Hin. apply NoDup_alt. intros i j x Hi Hj.
  pose proof (lookup_lt_Some _ _ _ Hi) as Hlti.
  pose proof (lookup_lt_Some _ _ _ Hj) as Hltj.
  rewrite read_file_length in Hlti, Hltj.
  pose proof (read_file_at _ _ (Z.of_nat i) Hin ltac:(lia)) as Hati.
  pose proof (read_file_at _ _ (Z.of_nat j) Hin ltac:(lia)) as Hatj.
  rewrite vec_at_of_nat in Hati, Hatj. rewrite Hi in Hati. rewrite Hj in Hatj.
  injection Hati as Hx. rewrite Hx in Hatj. injection Hatj as Hij _ _. lia.
Qed.

Lemma line_of_elem (k j : global_id) (lines : list (list (Z * Z)))
  (dc : Z * Z) :
  dc ∈ line_of k j lines -> exists line, line ∈ lines /\ dc ∈ line.
Proof.
  unfold line_of. destruct (decide (k <= j)); [|by intros ?%elem_of_nil].
  destruct (lines !! Z.to_nat (j - k)) as [line|] eqn:E;
    [|by intros ?%elem_of_nil].
  cbn. intros Hdc. exists line. split; [|done].
  by eapply list_elem_of_lookup_2.
Qed.

Lemma in_edges_of_lines_elem (lines : list (list (Z * Z))) (j : global_id)
  (e : in_edge) :
  forall k, e ∈ in_edges_of_lines k j lines ->
            k <= in_dest_node_id e < k + Z.of_nat (length lines)
            /\ in_rank_location e = 0 /\ in_vert_index e = NO_LOCAL_ID.
Proof.
  induction lines as [|line lines IH]; intros k.
  - by intros ?%elem_of_nil.
  - cbn [in_edges_of_lines length]. intros [He|He]%elem_of_app.
    + unfold in_edges_of_line in He.
      apply list_elem_of_fmap in He as (x & -> & _). cbn. lia.
    + apply IH in He. lia.
Qed.

Lemma kept_vertices_ids_NoDup (rank : Z) (global_id_to_rank : list Z)
  (num_vertices : Z) (lines : list (list (Z * Z))) :
  input_in_range num_vertices lines ->
  NoDup (id <$> kept_vertices rank global_id_to_rank num_vertices lines).
Proof.
  intros Hin. apply NoDup_fmap_2_strong.
  - intros x y [_ Hx]%list_elem_of_filter [_ Hy]%list_elem_of_filter.
    by apply (read_file_ids_NoDup num_vertices lines Hin).
  - apply NoDup_filter. by apply read_file_NoDup.
Qed.

(** A vertex id the table assigns to this rank is found, at the index the
    map gives, among the vertices the rank keeps. *)
Lemma local_far_end (rank size : Z) (debug : bool)
  (global_id_to_rank : list Z) (num_vertices : Z)
  (lines : list (list (Z * Z))) (d : global_id) :
  input_in_range num_vertices lines ->
  0 <= d < num_vertices ->
  rank_of global_id_to_rank d = rank ->
  exists w,
    vec_at
      (vertices (initial_process rank size debug global_id_to_rank
                   num_vertices lines))
      (default 0
         (build_global_to_local
            (kept_vertices rank global_id_to_rank num_vertices lines) !! d))
    = Some w
    /\ id w = d.
Proof.
  intros Hin Hd Hrank.
  pose proof (read_file_at _ _ _ Hin Hd) as Hat.
  apply vec_at_elem in Hat.
  assert (Hmine : mk_vertex d (out_edges_of_line (line_of 0 d lines))
                    (in_edges_of_lines 0 d lines)
                  ∈ kept_vertices rank global_id_to_rank num_vertices lines).
  { apply list_elem_of_filter. split; [exact Hrank|exact Hat]. }
  apply list_elem_of_lookup in Hmine as [i Hi].
  pose proof (build_global_to_local_complete _ _ _
                (kept_vertices_ids_NoDup rank global_id_to_rank _ _ Hin) Hi)
    as Hg.
  cbn [id] in Hg. rewrite Hg. cbn [default from_option Datatypes.id].
  eexists. split.
  - unfold initial_process. cbn [vertices].
    fold (kept_vertices rank global_id_to_rank num_vertices lines).
    rewrite vec_at_of_nat, lookup_map, Hi. reflexivity.
  - reflexivity.
Qed.

(** X4.  After the loops of [main] that follow the partitioning, every edge
    of every vertex a rank keeps carries the rank of its far vertex as the
    table has it, and when that is this rank, the index of the local vertex
    with the far vertex's id. *)
Theorem initial_process_edges_resolved (rank size : Z) (debug : bool)
  (global_id_to_rank : list Z) (num_vertices : Z)
  (lines : list (list (Z * Z))) (v : vertex) :
  input_in_range num_vertices lines ->
  v ∈ vertices (initial_process rank size debug global_id_to_rank
                  num_vertices lines) ->
  edges_resolved global_id_to_rank
    (initial_process rank size debug global_id_to_rank num_vertices lines) v.
Proof.
  intros Hin Hv. unfold initial_process in Hv. cbn [vertices] in Hv.
  apply list_elem_of_fmap in Hv as (v0 & -> & Hv0).
  apply list_elem_of_filter in Hv0 as [_ Hv0].
  apply (read_file_elem _ _ _ Hin) in Hv0 as [Hid Hv0].
  split; cbn [out_edges in_edges]; apply Forall_forall; intros e He;
    apply list_elem_of_fmap in He as (e0 & -> & He0);
    rewrite Hv0 in He0; cbn [out_edges in_edges] in He0.
  - unfold out_edges_of_line in He0.
    apply list_elem_of_fmap in He0 as (dc & -> & Hdc).
    apply line_of_elem in Hdc as (line & Hline & Hdc).
    destruct Hin as [Hlen Hall].
    pose proof Hall as Hall'.
    rewrite Forall_forall in Hall'. specialize (Hall' _ Hline).
    rewrite Forall_forall in Hall'. specialize (Hall' _ Hdc).
    split; cbn; [done|]. intros Hloc.
    rewrite Hloc, Z.eqb_refl.
    by apply (local_far_end rank size debug global_id_to_rank num_vertices
                lines).
  - apply in_edges_of_lines_elem in He0 as (Hk & _ & _).
    pose proof Hin as [Hlen _].
    split; cbn; [done|]. intros Hloc.
    rewrite Hloc, Z.eqb_refl.
    apply (local_far_end rank size debug global_id_to_rank num_vertices
             lines); [done|lia|done].
Qed.

Lemma initial_process_edges_resolved_witness :
  edges_resolved [0; 1; 0] sample_two_ranks
    (mk_vertex 0 [mk_out_edge 1 1 NO_LOCAL_ID 4 0; mk_out_edge 2 0 1 5 0] []).
Proof.
  apply (initial_process_edges_resolved 0 2 false [0; 1; 0] 3
           [[(1, 4); (2, 5)]; [(2, 6)]; []]).
  - split; [cbn; lia|]. repeat constructor; cbn; lia.
  - vm_compute. apply list_elem_of_here.
Defined.

(** ** Step 2 leaves the graph alone *)

(** X5.  Whatever the threads of a process do during the labelling search,
    worker steps and router steps in any order and for any messages, the edge
    tables with their capacities and flows, the id map, the pass number and
    the configuration stay what they were; the label table keeps its size and
    the outbox only grows. *)
Theorem step_2_keeps_the_graph (actions : list step_2_action)
  (p p' : process) :
  do_actions actions p = Some (tt, p') -> same_graph p p'.
Proof.
  revert p. induction actions as [|a actions IH]; intros p H.
  - unfold do_actions, ret in H. simplify_eq. reflexivity.
  - cbn [do_actions] in H. apply bind_Some in H as ([] & p1 & H1 & H2).
    etrans; [|by apply IH].
    destruct a as [tid bt entry|tid bt ss st msg peers]; cbn [do_action] in H1;
      apply bind_Some in H1 as (r & p0 & Hr & Hret);
      unfold ret in Hret; simplify_eq.
    + by eapply same_graph_worker_step.
    + by eapply same_graph_router_step.
Qed.

Lemma step_2_keeps_the_graph_witness :
  let p := state_after (step_1 0) sample_two_ranks in
  let actions :=
    [WorkerStep 1 NO_LOCAL_ID (mk_edge_entry 0 true 0);
     RouterStep 0 NO_LOCAL_ID 1 (int_of_tag TOKEN_RED)
       (mk_message_data 0 0 0 0) [];
     WorkerStep 1 NO_LOCAL_ID (mk_edge_entry 0 true 0)] in
  same_graph p (state_after (do_actions actions) p).
Proof.
  intros p actions.
  apply (step_2_keeps_the_graph actions p).
  vm_compute. reflexivity.
Defined.

(** ** Step 3 changes flows only *)

Lemma same_edges_but_flow_refl (es : list out_edge) :
  same_edges_but_flow es es.
Proof. apply Forall2_same_length_lookup. split; [done|]. intros; by simplify_eq. Qed.

Lemma same_vertex_but_flow_refl (v : vertex) : same_vertex_but_flow v v.
Proof. split; [done|]. split; [done|]. apply same_edges_but_flow_refl. Qed.

Lemma same_edges_but_flow_trans (es1 es2 es3 : list out_edge) :
  same_edges_but_flow es1 es2 -> same_edges_but_flow es2 es3 ->
  same_edges_but_flow es1 es3.
Proof.
  unfold same_edges_but_flow. intros H1 H2.
  eapply Forall2_trans; [|exact H1|exact H2].
  cbn. intros x y z (?&?&?&?) (?&?&?&?). repeat split; congruence.
Qed.

Lemma same_vertex_but_flow_trans (v1 v2 v3 : vertex) :
  same_vertex_but_flow v1 v2 -> same_vertex_but_flow v2 v3 ->
  same_vertex_but_flow v1 v3.
Proof.
  intros (?&?&?) (?&?&?). split; [congruence|]. split; [congruence|].
  by eapply same_edges_but_flow_trans.
Qed.

#[local] Instance only_flows_changed_refl : Reflexive only_flows_changed.
Proof.
  intros p. split; try reflexivity.
  - apply Forall2_same_length_lookup. split; [done|].
    intros i x y Hx Hy. simplify_eq. apply same_vertex_but_flow_refl.
  - exists []. by rewrite app_nil_r.
Qed.

#[local] Instance only_flows_changed_trans : Transitive only_flows_changed.
Proof.
  intros p1 p2 p3 H1 H2. destruct H1, H2. split; try congruence.
  - eapply Forall2_trans; [|eassumption|eassumption].
    apply same_vertex_but_flow_trans.
  - destruct of_outbox0 as [m1 E1], of_outbox1 as [m2 E2].
    exists (m1 ++ m2). by rewrite E2, E1, app_assoc.
Qed.

Lemma add_flow_towards_same_edges (dest : global_id) (delta : Z)
  (es : list out_edge) :
  same_edges_but_flow es (add_flow_towards dest delta es).
Proof.
  unfold same_edges_but_flow, add_flow_towards.
  induction es as [|e es IH]; cbn [map]; constructor; [|exact IH].
  by destruct (dest_node_id e =? dest).
Qed.

Lemma sub_flow_towards_same_edges (dest : global_id) (delta : Z)
  (es : list out_edge) :
  same_edges_but_flow es (sub_flow_towards dest delta es).
Proof.
  unfold same_edges_but_flow, sub_flow_towards.
  induction es as [|e es IH]; cbn [map]; constructor; [|exact IH].
  by destruct (dest_node_id e =? dest).
Qed.

Lemma only_flows_changed_update_vertex (i : local_id)
  (f : list out_edge -> list out_edge) :
  (forall es, same_edges_but_flow es (f es)) ->
  preserves only_flows_changed (update_vertex i (with_out_edges f)).
Proof.
  intros Hf p a p' H. unfold update_vertex in H.
  apply bind_Some in H as (v & p1 & Hv & Hm).
  unfold vertex_at in Hv. apply bind_Some in Hv as (vs & p0 & Hvs & Hl).
  unfold gets, ret in Hvs. simplify_eq.
  destruct (vec_at (vertices p0) i) as [w|] eqn:Hw; [|discriminate].
  unfold lift_option, ret in Hl. unfold modify in Hm. simplify_eq.
  split; cbn; try reflexivity.
  - apply vec_at_Some in Hw as [H0 Hw]. unfold vec_set.
    apply Forall2_same_length_lookup. split; [by rewrite length_insert|].
    intros j x y Hx Hy.
    destruct (decide (j = Z.to_nat i)) as [->|Hne].
    + rewrite list_lookup_insert_eq in Hy by (by eapply lookup_lt_Some).
      simplify_eq. split; [done|]. split; [done|]. apply Hf.
    + rewrite list_lookup_insert_ne in Hy by done. simplify_eq.
      apply same_vertex_but_flow_refl.
  - exists []. by rewrite app_nil_r.
Qed.

Lemma only_flows_changed_MPI_Ssend (pl : payload) (dest : Z)
  (tag : message_tags) :
  preserves only_flows_changed (MPI_Ssend pl dest tag).
Proof.
  apply preserves_modify. intros p. split; cbn; try reflexivity.
  - apply (of_vertices p p). reflexivity.
  - by eexists.
Qed.

Lemma only_flows_changed_ERROR (text : string) :
  preserves only_flows_changed (ERROR text).
Proof.
  apply preserves_modify. intros p. destruct (debug_mode p); [|reflexivity].
  split; cbn; try reflexivity.
  - apply (of_vertices p p). reflexivity.
  - exists []. by rewrite app_nil_r.
Qed.

Ltac flows_tac :=
  repeat first
    [ apply only_flows_changed_MPI_Ssend | apply only_flows_changed_ERROR
    | apply only_flows_changed_update_vertex;
      first [ apply add_flow_towards_same_edges
            | apply sub_flow_towards_same_edges ]
    | frame_step ].

Lemma only_flows_changed_step_3_local (loc : step_3_locals) :
  preserves only_flows_changed (step_3_local loc).
Proof. unfold step_3_local, label_at, vertex_at. cbv zeta. flows_tac. Qed.

(** X6.  A backtracking move of step 3 at a local vertex changes nothing but
    flows: the labels, the queue, the id map and the pass stay, every vertex
    keeps its id, its incoming edges and, edge by edge, the destination, rank,
    index and capacity of its outgoing edges; the outbox only grows. *)
Theorem step_3_local_changes_flows_only (loc loc' : step_3_locals)
  (p p' : process) :
  step_3_local loc p = Some (loc', p') -> only_flows_changed p p'.
Proof. apply only_flows_changed_step_3_local. Qed.

Lemma step_3_local_changes_flows_only_witness :
  only_flows_changed sample_at_sink
    (state_after (step_3_local (mk_step_3_locals 1 5 false false))
       sample_at_sink).
Proof.
  apply (step_3_local_changes_flows_only (mk_step_3_locals 1 5 false false)
           (mk_step_3_locals 0 5 false false)).
  vm_compute. reflexivity.
Defined.

(** X7.  A message received during step 3, whatever its tag and content,
    changes nothing but flows either. *)
Theorem step_3_recv_changes_flows_only (loc loc' : step_3_locals)
  (stat_tag : Z) (msg : message_data) (p p' : process) :
  step_3_recv loc stat_tag msg p = Some (loc', p') -> only_flows_changed p p'.
Proof.
  revert p loc' p'.
  change (preserves only_flows_changed (step_3_recv loc stat_tag msg)).
  unfold step_3_recv, lookup_global_id. cbv zeta. flows_tac.
Qed.

Lemma step_3_recv_changes_flows_only_witness :
  only_flows_changed sample_step_3_receiver
    (state_after
       (step_3_recv (mk_step_3_locals NO_LOCAL_ID 0 false false)
          (int_of_tag UPDATE_FLOW) (mk_message_data 2 0 4 3))
       sample_step_3_receiver).
Proof.
  apply (step_3_recv_changes_flows_only
           (mk_step_3_locals NO_LOCAL_ID 0 false false)
           (mk_step_3_locals 0 4 false false)
           (int_of_tag UPDATE_FLOW) (mk_message_data 2 0 4 3)).
  vm_compute. reflexivity.
Defined.

(** ** Every call of [set_label] *)

Lemma insert_out_edges_entries (vert_idx : local_id) (es : list out_edge) :
  forall (i : Z) (fragment r : EdgeQueue) (p p' : process),
    insert_out_edges vert_idx i es fragment p = Some (r, p') ->
    Forall (fun e => vertex_index e = vert_idx) fragment ->
    Forall (fun e => vertex_index e = vert_idx) r.
Proof.
  induction es as [|e es IH]; intros i fragment r p p' H Hf; cbn in H.
  - injection H as <- _. exact Hf.
  - apply bind_Some in H as (s1 & p1 & H1 & H).
    destruct s1; [by eapply IH|].
    apply bind_Some in H as (s2 & p2 & H2 & H).
    destruct s2; [by eapply IH|].
    eapply IH; [exact H|]. unfold EdgeQueue_push.
    apply Forall_app. split; [exact Hf|]. by constructor.
Qed.

Lemma insert_in_edges_entries (vert_idx : local_id) (es : list in_edge) :
  forall (i : Z) (fragment r : EdgeQueue) (p p' : process),
    insert_in_edges vert_idx i es fragment p = Some (r, p') ->
    Forall (fun e => vertex_index e = vert_idx) fragment ->
    Forall (fun e => vertex_index e = vert_idx) r.
Proof.
  induction es as [|e es IH]; intros i fragment r p p' H Hf; cbn in H.
  - injection H as <- _. exact Hf.
  - apply bind_Some in H as (s1 & p1 & H1 & H).
    destruct s1; [by eapply IH|].
    apply bind_Some in H as (s2 & p2 & H2 & H).
    destruct s2; [by eapply IH|].
    eapply IH; [exact H|]. unfold EdgeQueue_push.
    apply Forall_app. split; [exact Hf|]. by constructor.
Qed.

(** [insert_edges] appends entries of the vertex it was called for, and
    nothing else. *)
Lemma insert_edges_entries (vert_idx tid : Z) (p p' : process) (u : unit) :
  insert_edges vert_idx tid p = Some (u, p') ->
  exists fragment : EdgeQueue,
    p' = with_edge_queue (fun q => q ++ fragment) p
    /\ Forall (fun e => vertex_index e = vert_idx) fragment.
Proof.
  unfold insert_edges. intros H.
  apply bind_Some in H as (v & p1 & H1 & H).
  assert (p1 = p) as -> by (by run_reads).
  apply bind_Some in H as (f1 & p2 & H2 & H).
  pose proof (insert_out_edges_entries _ _ _ _ _ _ _ H2 (Forall_nil_2 _)) as F1.
  apply insert_out_edges_frame in H2 as ->.
  apply bind_Some in H as (f2 & p3 & H3 & H).
  pose proof (insert_in_edges_entries _ _ _ _ _ _ _ H3 F1) as F2.
  apply insert_in_edges_frame in H3 as ->.
  exists f2. unfold modify in H. split; [by injection H|exact F2].
Qed.

Lemma with_edge_queue_nil (p : process) :
  with_edge_queue (fun q => q ++ []) p = p.
Proof. destruct p. unfold with_edge_queue. cbn. by rewrite app_nil_r. Qed.

(** Every successful call of [set_label]: either the slot was taken and
    nothing changed, or it was empty, now holds the proposed label, and the
    queue has grown by entries of that vertex. *)
Lemma set_label_inv (p p' : process) (prev : global_id) (prev_rank : Z)
  (prev_idx curr_idx : local_id) (new_value tid : Z) (b : bool) :
  set_label prev prev_rank prev_idx curr_idx new_value tid p = Some (b, p') ->
  exists l : label,
    vec_at (labels p) curr_idx = Some l
    /\ ((value l <> 0 /\ b = false /\ p' = p)
        \/ (value l = 0
            /\ exists fragment : EdgeQueue,
                 p' = with_edge_queue (fun q => q ++ fragment)
                        (labelled_with curr_idx
                           (mk_label new_value prev prev_rank prev_idx) p)
                 /\ Forall (fun e => vertex_index e = curr_idx) fragment)).
Proof.
  intros H.
  destruct (vec_at (labels p) curr_idx) as [l|] eqn:Hl.
  2:{ unfold set_label, cas_label_value, label_at, bind, gets in H.
      cbn in H. rewrite Hl in H. discriminate. }
  exists l. split; [done|].
  destruct (decide (value l = 0)) as [Hz|Hnz].
  2:{ rewrite (set_label_lost _ _ _ _ _ _ _ _ Hl Hnz) in H.
      injection H as <- <-. by left. }
  right. split; [done|].
  destruct (vec_at (vertices p) curr_idx) as [v|] eqn:Hv.
  - rewrite (set_label_won _ _ _ _ _ _ _ _ _ Hl Hz Hv) in H. cbv zeta in H.
    destruct (id v =? sink_id p) eqn:E.
    + injection H as <- <-. exists []. split; [|constructor].
      by rewrite with_edge_queue_nil.
    + destruct (insert_edges _ _ _) as [[[] p2]|] eqn:Hi; [|discriminate].
      injection H as <- <-. by apply insert_edges_entries in Hi.
  - exfalso. unfold set_label in H.
    apply bind_Some in H as (won & p1 & H1 & H).
    apply cas_label_value_inv in H1 as (l' & Hl' & Hw).
    destruct won; [|destruct Hw as [Hw _]; congruence].
    destruct Hw as [_ ->].
    apply bind_Some in H as ([] & p2 & H2 & H).
    apply update_label_inv in H2 as (l2 & _ & ->).
    apply bind_Some in H as ([] & p3 & H3 & H).
    apply update_label_inv in H3 as (l3 & _ & ->).
    apply bind_Some in H as ([] & p4 & H4 & H).
    apply update_label_inv in H4 as (l4 & _ & ->).
    apply bind_Some in H as (v & p5 & H5 & H).
    unfold vertex_at, bind, gets in H5. cbn in H5. rewrite Hv in H5.
    discriminate.
Qed.

#[local] Instance labels_only_filled_refl : Reflexive labels_only_filled.
Proof. intros p. split; [done|]. auto. Qed.

#[local] Instance labels_only_filled_trans : Transitive labels_only_filled.
Proof.
  intros p1 p2 p3 [L1 H1] [L2 H2]. split; [congruence|].
  intros i l Hl Hv. apply H2; [by apply H1|done].
Qed.

Lemma labels_only_filled_same (p p' : process) :
  labels p' = labels p -> labels_only_filled p p'.
Proof. intros E. split; rewrite E; auto. Qed.

Lemma labels_only_filled_set_label (prev : global_id) (prev_rank : Z)
  (prev_idx curr_idx : local_id) (new_value tid : Z) :
  preserves labels_only_filled
    (set_label prev prev_rank prev_idx curr_idx new_value tid).
Proof.
  intros p b p' H. apply set_label_inv in H as (l & Hl & H).
  destruct H as [(_ & _ & ->)|(Hz & frag & -> & _)]; [reflexivity|].
  split; cbn; [apply vec_set_length|].
  intros i l' Hl' Hv'.
  destruct (decide (i = curr_idx)) as [->|Hne]; [congruence|].
  rewrite vec_at_set_ne; [done| |done].
  apply vec_at_Some in Hl. tauto.
Qed.

(** ** Step 2 never relabels *)

Ltac filled_setter :=
  apply preserves_modify; intros ?; apply labels_only_filled_same;
  reflexivity.

Lemma labels_only_filled_ERROR (text : string) :
  preserves labels_only_filled (ERROR text).
Proof.
  unfold ERROR. apply preserves_modify. intros p.
  apply labels_only_filled_same. by destruct (debug_mode p).
Qed.

Lemma labels_only_filled_send_check_termination (ranks : list Z) :
  preserves labels_only_filled (send_check_termination ranks).
Proof.
  induction ranks as [|i ranks IH]; cbn;
    repeat first [ exact IH | frame_step | filled_setter ].
Qed.

Ltac filled_tac :=
  unfold check_termination, claim_step_3, cas_step_3_tid, lookup_global_id,
    working_threads_add, working_threads_sub, label_at, vertex_at, MPI_Ssend;
  repeat first
    [ apply labels_only_filled_set_label | apply labels_only_filled_ERROR
    | apply labels_only_filled_send_check_termination
    | frame_step
    | filled_setter ].

Lemma labels_only_filled_handle_out_edge (entry : edge_entry) (tid : Z) :
  preserves labels_only_filled (handle_out_edge entry tid).
Proof. unfold handle_out_edge. filled_tac. Qed.

Lemma labels_only_filled_handle_in_edge (entry : edge_entry) (tid : Z) :
  preserves labels_only_filled (handle_in_edge entry tid).
Proof. unfold handle_in_edge. filled_tac. Qed.

Lemma labels_only_filled_worker_idle :
  preserves labels_only_filled worker_idle.
Proof. unfold worker_idle. filled_tac. Qed.

Lemma labels_only_filled_worker_process (tid : Z) (bt : local_id)
  (entry : edge_entry) :
  preserves labels_only_filled (worker_process tid bt entry).
Proof.
  unfold worker_process.
  repeat first
    [ apply labels_only_filled_handle_out_edge
    | apply labels_only_filled_handle_in_edge
    | progress filled_tac ].
Qed.

Lemma labels_only_filled_worker_step (tid : Z) (bt : local_id)
  (entry : edge_entry) :
  preserves labels_only_filled (worker_step tid bt entry).
Proof.
  unfold worker_step.
  repeat first
    [ apply labels_only_filled_worker_idle
    | apply labels_only_filled_worker_process
    | progress filled_tac ].
Qed.

Lemma labels_only_filled_router_step (tid : Z) (bt : local_id)
  (stat_source stat_tag : Z) (msg : message_data) (peers : list Z) :
  preserves labels_only_filled
    (router_step tid bt stat_source stat_tag msg peers).
Proof. unfold router_step. filled_tac. Qed.

(** X8.  The labelling search never relabels: whatever the workers and the
    router of a process do in step 2, a slot that holds a non-zero label keeps
    that label, value and back pointer, until step 1 of the next pass; and the
    label table keeps its size. *)
Theorem step_2_never_relabels (actions : list step_2_action)
  (p p' : process) (i : local_id) (l : label) :
  do_actions actions p = Some (tt, p') ->
  vec_at (labels p) i = Some l -> value l <> 0 ->
  vec_at (labels p') i = Some l
  /\ length (labels p') = length (labels p).
Proof.
  intros H Hl Hv.
  assert (Hf : labels_only_filled p p').
  { clear Hl Hv. revert p H.
    induction actions as [|a actions IH]; intros p H.
    - unfold do_actions, ret in H. simplify_eq. reflexivity.
    - cbn [do_actions] in H. apply bind_Some in H as ([] & p1 & H1 & H2).
      etrans; [|by apply IH].
      destruct a as [tid bt entry|tid bt ss st msg peers];
        cbn [do_action] in H1;
        apply bind_Some in H1 as (r & p0 & Hr & Hret);
        unfold ret in Hret; simplify_eq.
      + by eapply labels_only_filled_worker_step.
      + by eapply labels_only_filled_router_step. }
  destruct Hf as [Hlen Hf]. split; [by apply Hf|exact Hlen].
Qed.

Lemma step_2_never_relabels_witness :
  let p := state_after (step_1 0) sample_two_ranks in
  let actions :=
    [WorkerStep 1 NO_LOCAL_ID (mk_edge_entry 0 true 0);
     RouterStep 0 NO_LOCAL_ID 1 (int_of_tag SET_TO_LABEL)
       (mk_message_data 1 0 3 1) []] in
  vec_at (labels (state_after (do_actions actions) p)) 0
  = Some (mk_label INT_MAX 0 0 0)
  /\ length (labels (state_after (do_actions actions) p)) = length (labels p).
Proof.
  intros p actions.
  apply (step_2_never_relabels actions p).
  - vm_compute. reflexivity.
  - vm_compute. reflexivity.
  - vm_compute. discriminate.
Defined.

(** ** Step 1 *)

(** X9.  Step 1 on thread 0, whenever it returns: the counters and flags of
    the pass are reset, the token is with rank 0 and white, the label table
    keeps its size and is empty except for the source, which on the rank that
    owns it carries [INT_MAX] with itself as predecessor, and the queue holds
    entries of the source vertex only. *)
Theorem step_1_postcondition (p p' : process) :
  step_1 0 p = Some (tt, p') ->
  (working_threads p' = 0 /\ my_color p' = TOKEN_WHITE
   /\ token_color p' = TOKEN_WHITE /\ have_token p' = (mpi_rank p =? 0)
   /\ queue_is_empty p' = false /\ sink_found p' = false
   /\ step_3_tid p' = -1)
  /\ length (labels p') = length (labels p)
  /\ (forall (j : local_id) (l : label),
        vec_at (labels p') j = Some l ->
        l = EMPTY_LABEL
        \/ (global_to_local p !! source_id p = Some j
            /\ l = mk_label INT_MAX (source_id p) (mpi_rank p) j))
  /\ (forall i : local_id,
        global_to_local p !! source_id p = Some i -> i <> NO_LOCAL_ID ->
        vec_at (labels p') i
        = Some (mk_label INT_MAX (source_id p) (mpi_rank p) i))
  /\ Forall (fun e => global_to_local p !! source_id p
                      = Some (vertex_index e)) (edge_queue p').
Proof.
  intros H. rewrite step_1_eq in H.
  assert (Hempty : forall j l, vec_at (labels (step_1_reset p)) j = Some l ->
                               l = EMPTY_LABEL).
  { intros j l Hj. cbn in Hj. rewrite vec_at_map in Hj.
    destruct (vec_at (labels p) j); by simplify_eq /=. }
  assert (Hlen : length (labels (step_1_reset p)) = length (labels p)).
  { cbn. by rewrite length_map. }
  apply bind_Some in H as (i & p1 & Hi & H).
  rewrite lookup_global_id_eq in Hi. injection Hi as Hi <-.
  change (global_to_local (step_1_reset p)) with (global_to_local p) in Hi.
  destruct (i =? NO_LOCAL_ID) eqn:E; cbn [negb] in H.
  - unfold ret in H. injection H as <-.
    apply Z.eqb_eq in E.
    split; [done|]. split; [done|]. split; [by left; eapply Hempty|].
    split; [|by constructor].
    intros i' Hg Hne. rewrite Hg in Hi. congruence.
  - apply Z.eqb_neq in E.
    destruct (global_to_local p !! source_id p) as [i0|] eqn:Hg; [|done].
    subst i0.
    apply bind_Some in H as (b & p2 & Hs & H).
    unfold ret in H. injection H as <-.
    apply set_label_inv in Hs as (l & Hl & Hs).
    pose proof (Hempty _ _ Hl) as ->.
    destruct Hs as [(Hnz & _)|(_ & frag & -> & Hfrag)]; [done|].
    split; [done|]. split; [cbn; by rewrite vec_set_length, length_map|].
    split; [|split].
    + intros j l Hj. cbn [labels with_edge_queue labelled_with with_labels]
        in Hj.
      destruct (decide (j = i)) as [->|Hne].
      * erewrite vec_at_set_eq in Hj by exact Hl. right. by simplify_eq.
      * rewrite vec_at_set_ne in Hj; [left; by eapply Hempty| |done].
        apply vec_at_Some in Hl. tauto.
    + intros i' [= <-] _.
      cbn [labels with_edge_queue labelled_with with_labels].
      eapply vec_at_set_eq, Hl.
    + cbn. eapply Forall_impl; [exact Hfrag|]. cbn. by intros e ->.
Qed.

Lemma step_1_postcondition_witness :
  let p' := state_after (step_1 0) sample_two_ranks in
  (working_threads p' = 0 /\ my_color p' = TOKEN_WHITE
   /\ token_color p' = TOKEN_WHITE
   /\ have_token p' = (mpi_rank sample_two_ranks =? 0)
   /\ queue_is_empty p' = false /\ sink_found p' = false
   /\ step_3_tid p' = -1)
  /\ length (labels p') = length (labels sample_two_ranks)
  /\ (forall (j : local_id) (l : label),
        vec_at (labels p') j = Some l ->
        l = EMPTY_LABEL
        \/ (global_to_local sample_two_ranks !! source_id sample_two_ranks
            = Some j
            /\ l = mk_label INT_MAX (source_id sample_two_ranks)
                     (mpi_rank sample_two_ranks) j))
  /\ (forall i : local_id,
        global_to_local sample_two_ranks !! source_id sample_two_ranks
        = Some i -> i <> NO_LOCAL_ID ->
        vec_at (labels p') i
        = Some (mk_label INT_MAX (source_id sample_two_ranks)
                  (mpi_rank sample_two_ranks) i))
  /\ Forall (fun e => global_to_local sample_two_ranks
                      !! source_id sample_two_ranks
                      = Some (vertex_index e)) (edge_queue p').
Proof.
  intros p'. apply (step_1_postcondition sample_two_ranks p').
  vm_compute. reflexivity.
Defined.

(** ** The counter of working threads is balanced *)

Lemma wrap_int_range (z : Z) : in_int_range (wrap_int z).
Proof.
  unfold in_int_range, INT_MIN, INT_MAX, wrap_int.
  pose proof (Z.mod_pos_bound (z + 2 ^ 31) (2 ^ 32) ltac:(lia)). lia.
Qed.

Lemma wrap_int_wrap_add (x b : Z) :
  wrap_int (wrap_int x + b) = wrap_int (x + b).
Proof.
  unfold wrap_int.
  replace ((x + 2 ^ 31) mod 2 ^ 32 - 2 ^ 31 + b + 2 ^ 31)
    with ((x + 2 ^ 31) mod 2 ^ 32 + b) by lia.
  rewrite Zplus_mod_idemp_l. f_equal. f_equal. lia.
Qed.

Lemma wt_shift_compose (a b : Z) (p p1 p' : process) :
  wt_shift a p p1 -> wt_shift b p1 p' -> wt_shift (a + b) p p'.
Proof.
  unfold wt_shift. intros H1 H2 Hr. specialize (H1 Hr).
  rewrite H2 by (rewrite H1; apply wrap_int_range).
  rewrite H1, wrap_int_wrap_add. f_equal. lia.
Qed.

Lemma wt_shift_same (p p' : process) :
  working_threads p' = working_threads p -> wt_shift 0 p p'.
Proof.
  intros E Hr. rewrite E, Z.add_0_r. symmetry. by apply wrap_int_id.
Qed.

#[local] Instance wt_shift_refl : Reflexive (wt_shift 0).
Proof. intros p. by apply wt_shift_same. Qed.

#[local] Instance wt_shift_trans : Transitive (wt_shift 0).
Proof. intros p1 p2 p3 H1 H2. apply (wt_shift_compose 0 0 _ _ _ H1 H2). Qed.

Lemma shifts_bind {A B} (g : A -> Z) (h : B -> Z) (m : M A) (k : A -> M B) :
  shifts g m -> (forall a, shifts (fun b => h b - g a) (k a)) ->
  shifts h (bind m k).
Proof.
  intros Hm Hk p b p' H. apply bind_Some in H as (a & p1 & H1 & H2).
  replace (h b) with (g a + (h b - g a)) by lia.
  eapply wt_shift_compose; [by eapply Hm | by eapply (Hk a)].
Qed.

Lemma shifts_quiet {A} (d : Z) (m : M A) :
  d = 0 -> preserves (wt_shift 0) m -> shifts (fun _ => d) m.
Proof. intros -> H p a p' Hm. by eapply H. Qed.

Lemma shifts_ret {A} (g : A -> Z) (a : A) : g a = 0 -> shifts g (ret a).
Proof.
  intros E p a' p' H. unfold ret in H. simplify_eq. rewrite E. reflexivity.
Qed.

Lemma shifts_add (n : Z) : shifts (fun _ => n) (working_threads_add n).
Proof.
  intros p a p' H. unfold working_threads_add, modify in H. simplify_eq.
  intros _. reflexivity.
Qed.

Lemma shifts_sub (n : Z) : shifts (fun _ => - n) (working_threads_sub n).
Proof.
  intros p a p' H. unfold working_threads_sub, modify in H. simplify_eq.
  intros _. cbn. unfold int_sub. f_equal; lia.
Qed.

Ltac quiet_setter :=
  apply preserves_modify; intros ?; apply wt_shift_same; reflexivity.

Lemma quiet_ERROR (text : string) : preserves (wt_shift 0) (ERROR text).
Proof.
  unfold ERROR. apply preserves_modify. intros p.
  apply wt_shift_same. by destruct (debug_mode p).
Qed.

Lemma quiet_set_label (prev : global_id) (prev_rank : Z)
  (prev_idx curr_idx : local_id) (new_value tid : Z) :
  preserves (wt_shift 0)
    (set_label prev prev_rank prev_idx curr_idx new_value tid).
Proof.
  intros p b p' H. apply set_label_frame in H as (ls & q & ->).
  by apply wt_shift_same.
Qed.

Lemma quiet_send_check_termination (ranks : list Z) :
  preserves (wt_shift 0) (send_check_termination ranks).
Proof.
  induction ranks as [|i ranks IH]; cbn; unfold MPI_Ssend;
    repeat first [ exact IH | frame_step | quiet_setter ].
Qed.

Ltac quiet_tac :=
  unfold claim_step_3, cas_step_3_tid, lookup_global_id, label_at, vertex_at,
    MPI_Ssend;
  repeat first
    [ apply quiet_set_label | apply quiet_ERROR
    | apply quiet_send_check_termination
    | frame_step
    | quiet_setter ].

Lemma quiet_handle_out_edge (entry : edge_entry) (tid : Z) :
  preserves (wt_shift 0) (handle_out_edge entry tid).
Proof. unfold handle_out_edge. quiet_tac. Qed.

Lemma quiet_handle_in_edge (entry : edge_entry) (tid : Z) :
  preserves (wt_shift 0) (handle_in_edge entry tid).
Proof. unfold handle_in_edge. quiet_tac. Qed.

Lemma quiet_worker_idle : preserves (wt_shift 0) worker_idle.
Proof. unfold worker_idle. quiet_tac. Qed.

Lemma shifts_check_termination (peers : list Z) :
  shifts exit_shift (check_termination peers).
Proof.
  intros p ctl p' H. rewrite check_termination_eq in H.
  destruct (MPI_Allreduce_sum _ peers =? 0); simplify_eq; cbn [exit_shift].
  - intros _. reflexivity.
  - reflexivity.
Qed.

Lemma shifts_ext {A} (g g' : A -> Z) (m : M A) :
  (forall a, g a = g' a) -> shifts g' m -> shifts g m.
Proof. intros E H p a p' Hm. rewrite E. by eapply H. Qed.

Ltac shift_step :=
  match goal with
  | |- shifts _ (bind (working_threads_add ?n) _) =>
      eapply (shifts_bind (fun _ => n)); [apply shifts_add | intros ?]
  | |- shifts _ (bind (working_threads_sub ?n) _) =>
      eapply (shifts_bind (fun _ => - n)); [apply shifts_sub | intros ?]
  | |- shifts _ (bind (check_termination _) _) =>
      eapply (shifts_bind exit_shift);
      [apply shifts_check_termination | intros ?]
  | |- shifts _ (check_termination _) =>
      eapply shifts_ext; [|apply shifts_check_termination];
      intros []; reflexivity
  | |- shifts _ (bind _ _) =>
      eapply (shifts_bind (fun _ => 0));
      [apply shifts_quiet; [reflexivity | solve [quiet_tac]] | intros ?]
  | |- shifts _ (ret _) => apply shifts_ret; reflexivity
  | |- shifts _ (if ?c then _ else _) => destruct c
  | |- shifts _ (match ?x with _ => _ end) => destruct x
  end.

Lemma shifts_worker_process (tid : Z) (bt : local_id) (entry : edge_entry) :
  shifts (fun _ => 0) (worker_process tid bt entry).
Proof.
  unfold worker_process.
  repeat first
    [ shift_step
    | eapply (shifts_bind (fun _ => 0));
      [apply shifts_quiet;
       [reflexivity
       | destruct (is_outgoing entry);
         [apply quiet_handle_out_edge | apply quiet_handle_in_edge]]
      | intros ?] ].
Qed.

Lemma shifts_worker_step (tid : Z) (bt : local_id) (entry : edge_entry) :
  shifts (fun _ => 0) (worker_step tid bt entry).
Proof.
  unfold worker_step.
  repeat first
    [ eapply (shifts_bind (fun _ => 0));
      [first [ apply shifts_worker_process
             | apply shifts_quiet; [reflexivity | apply quiet_worker_idle] ]
      | intros ?]
    | shift_step ].
Qed.

(** The token cases of the router up to the decision to go on or to
    return. *)
Lemma shifts_token_check (peers : list Z) (r : Z) :
  shifts exit_shift
    (if r =? 0 then
       tc <- gets token_color;;
       match tc with
       | TOKEN_WHITE =>
           sz <- gets mpi_size;;
           send_check_termination (seqZ 1 (sz - 1));;;
           check_termination peers
       | _ => modify (with_token_color TOKEN_WHITE);;; ret LoopAgain
       end
     else ret LoopAgain).
Proof. repeat shift_step. Qed.

Lemma shifts_router_step (tid : Z) (bt : local_id)
  (stat_source stat_tag : Z) (msg : message_data) (peers : list Z) :
  shifts (fun _ => 0) (router_step tid bt stat_source stat_tag msg peers).
Proof.
  unfold router_step.
  repeat first
    [ eapply (shifts_bind exit_shift);
      [apply shifts_token_check | intros ?]
    | shift_step ].
Qed.

(** X10.  The counter [working_threads] is balanced: every pass of a worker
    through its loop body and every message serviced by the router, whatever
    branch is taken and also on the way out of the thread, leaves the counter
    where it found it. *)
Theorem working_threads_balanced (actions : list step_2_action)
  (p p' : process) :
  in_int_range (working_threads p) ->
  do_actions actions p = Some (tt, p') ->
  working_threads p' = working_threads p.
Proof.
  revert p. induction actions as [|a actions IH]; intros p Hr H.
  - unfold do_actions, ret in H. by simplify_eq.
  - cbn [do_actions] in H. apply bind_Some in H as ([] & p1 & H1 & H2).
    assert (Hs : wt_shift 0 p p1).
    { destruct a as [tid bt entry|tid bt ss st msg peers];
        cbn [do_action] in H1;
        apply bind_Some in H1 as (r & p0 & H1 & Hret);
        unfold ret in Hret; simplify_eq.
      - by eapply (shifts_worker_step tid bt entry).
      - by eapply (shifts_router_step tid bt ss st msg peers). }
    specialize (Hs Hr). rewrite Z.add_0_r, wrap_int_id in Hs by done.
    rewrite <- Hs. apply IH; [by rewrite Hs|exact H2].
Qed.

Lemma working_threads_balanced_witness :
  let p := state_after (step_1 0) sample_two_ranks in
  let actions :=
    [WorkerStep 1 NO_LOCAL_ID (mk_edge_entry 0 true 0);
     RouterStep 0 NO_LOCAL_ID 1 (int_of_tag TOKEN_WHITE)
       (mk_message_data 0 0 0 0) [0];
     WorkerStep 1 NO_LOCAL_ID (mk_edge_entry 0 true 0)] in
  working_threads (state_after (do_actions actions) p) = working_threads p.
Proof.
  intros p actions.
  apply (working_threads_balanced actions p).
  - vm_compute. split; discriminate.
  - vm_compute. reflexivity.
Defined.

(** ** A process without the token sends none *)

#[local] Instance token_kept_away_refl : Reflexive token_kept_away.
Proof.
  intros p. exists []. split; [by rewrite app_nil_r|].
  intros H. split; [exact H|constructor].
Qed.

#[local] Instance token_kept_away_trans : Transitive token_kept_away.
Proof.
  intros p1 p2 p3 (m1 & E1 & H1) (m2 & E2 & H2).
  exists (m1 ++ m2). split; [by rewrite E2, E1, app_assoc|].
  intros H. destruct (H1 H) as [H1' F1]. destruct (H2 H1') as [H2' F2].
  split; [exact H2'|]. by apply Forall_app.
Qed.

Lemma token_kept_away_quiet (p p' : process) :
  outbox p' = outbox p -> have_token p' = have_token p ->
  token_kept_away p p'.
Proof.
  intros Eo Eh. exists []. split; [by rewrite Eo, app_nil_r|].
  intros H. split; [congruence|constructor].
Qed.

Ltac away_setter :=
  apply preserves_modify; intros ?; apply token_kept_away_quiet; reflexivity.

Lemma token_kept_away_MPI_Ssend (pl : payload) (dest : Z)
  (tag : message_tags) :
  is_token tag = false -> preserves token_kept_away (MPI_Ssend pl dest tag).
Proof.
  intros Htag. unfold MPI_Ssend. apply preserves_modify. intros p.
  eexists. split; [reflexivity|]. intros H. split; [exact H|].
  by repeat constructor.
Qed.

Lemma token_kept_away_ERROR (text : string) :
  preserves token_kept_away (ERROR text).
Proof.
  unfold ERROR. apply preserves_modify. intros p.
  apply token_kept_away_quiet; by destruct (debug_mode p).
Qed.

Lemma token_kept_away_set_label (prev : global_id) (prev_rank : Z)
  (prev_idx curr_idx : local_id) (new_value tid : Z) :
  preserves token_kept_away
    (set_label prev prev_rank prev_idx curr_idx new_value tid).
Proof.
  intros p b p' H. apply set_label_frame in H as (ls & q & ->).
  by apply token_kept_away_quiet.
Qed.

Lemma token_kept_away_send_check_termination (ranks : list Z) :
  preserves token_kept_away (send_check_termination ranks).
Proof.
  induction ranks as [|i ranks IH]; cbn;
    repeat first
      [ exact IH | apply token_kept_away_MPI_Ssend; reflexivity
      | frame_step ].
Qed.

Ltac away_tac :=
  unfold check_termination, claim_step_3, cas_step_3_tid, lookup_global_id,
    working_threads_add, working_threads_sub, label_at, vertex_at;
  repeat first
    [ apply token_kept_away_set_label | apply token_kept_away_ERROR
    | apply token_kept_away_send_check_termination
    | apply token_kept_away_MPI_Ssend; reflexivity
    | frame_step
    | away_setter ].

Lemma token_kept_away_handle_out_edge (entry : edge_entry) (tid : Z) :
  preserves token_kept_away (handle_out_edge entry tid).
Proof. unfold handle_out_edge. away_tac. Qed.

Lemma token_kept_away_handle_in_edge (entry : edge_entry) (tid : Z) :
  preserves token_kept_away (handle_in_edge entry tid).
Proof. unfold handle_in_edge. away_tac. Qed.

Lemma token_kept_away_worker_idle : preserves token_kept_away worker_idle.
Proof.
  intros p [] p' H.
  destruct (same_graph_worker_idle p tt p' H) as [_ _ _ _ _ _ _ _ _ _ Hout].
  destruct Hout as [more Hout]. exists more. split; [exact Hout|].
  intros Hht. rewrite worker_idle_keeps in H by (by rewrite Hht).
  injection H as <-. cbn in Hout. split; [exact Hht|].
  assert (more = []) as ->; [|constructor].
  apply (app_inv_head (outbox p)). by rewrite app_nil_r.
Qed.

Lemma token_kept_away_worker_process (tid : Z) (bt : local_id)
  (entry : edge_entry) :
  preserves token_kept_away (worker_process tid bt entry).
Proof.
  unfold worker_process.
  repeat first
    [ apply token_kept_away_handle_out_edge
    | apply token_kept_away_handle_in_edge
    | progress away_tac ].
Qed.

Lemma token_kept_away_worker_step (tid : Z) (bt : local_id)
  (entry : edge_entry) :
  preserves token_kept_away (worker_step tid bt entry).
Proof.
  unfold worker_step.
  repeat first
    [ apply token_kept_away_worker_idle
    | apply token_kept_away_worker_process
    | progress away_tac ].
Qed.

Lemma token_kept_away_router_step (tid : Z) (bt : local_id)
  (stat_source stat_tag : Z) (msg : message_data) (peers : list Z) :
  receives_token (RouterStep tid bt stat_source stat_tag msg peers) = false ->
  preserves token_kept_away
    (router_step tid bt stat_source stat_tag msg peers).
Proof.
  cbn [receives_token]. intros Htag. unfold router_step.
  destruct (tag_of_int stat_tag) as [[]|]; try discriminate Htag; away_tac.
Qed.

(** X11.  A process that does not hold the token sends no token: as long as
    its router services no token message, whatever else its threads do, it
    still does not hold the token afterwards and none of the messages it has
    sent is a token. *)
Theorem no_token_sent_without_token (actions : list step_2_action)
  (p p' : process) :
  have_token p = false ->
  Forall (fun a => receives_token a = false) actions ->
  do_actions actions p = Some (tt, p') ->
  have_token p' = false
  /\ Forall (fun s => is_token (sent_tag s) = false) (newly_sent p p').
Proof.
  intros Hht Hact H.
  assert (Hk : token_kept_away p p').
  { clear Hht. revert p H.
    induction Hact as [|a actions Ha Hact IH]; intros p H.
    - unfold do_actions, ret in H. simplify_eq. reflexivity.
    - cbn [do_actions] in H. apply bind_Some in H as ([] & p1 & H1 & H2).
      etrans; [|by apply IH].
      destruct a as [tid bt entry|tid bt ss st msg peers];
        cbn [do_action] in H1;
        apply bind_Some in H1 as (r & p0 & Hr & Hret);
        unfold ret in Hret; simplify_eq.
      + by eapply token_kept_away_worker_step.
      + by eapply token_kept_away_router_step. }
  destruct Hk as (more & Hout & Hk). destruct (Hk Hht) as [H1 H2].
  split; [exact H1|]. by rewrite (newly_sent_one_more _ _ _ Hout).
Qed.

Lemma no_token_sent_without_token_witness :
  let p := with_have_token false (state_after (step_1 0) sample_two_ranks) in
  let actions :=
    [WorkerStep 1 NO_LOCAL_ID (mk_edge_entry 0 true 0);
     WorkerStep 1 NO_LOCAL_ID (mk_edge_entry 0 true 0);
     RouterStep 0 NO_LOCAL_ID 1 (int_of_tag CHECK_TERMINATION)
       (mk_message_data 0 0 0 0) [1];
     WorkerStep 1 NO_LOCAL_ID (mk_edge_entry 0 true 0)] in
  have_token (state_after (do_actions actions) p) = false
  /\ Forall (fun s => is_token (sent_tag s) = false)
       (newly_sent p (state_after (do_actions actions) p)).
Proof.
  intros p actions.
  apply (no_token_sent_without_token actions p).
  - reflexivity.
  - repeat constructor.
  - vm_compute. reflexivity.
Defined.

(** ** A label sent to another rank *)

(** The SET_TO_LABEL case of the router for a message that is neither
    misrouted nor stale. *)
Lemma router_step_set_to_label (q : process) (tid : Z) (bt : local_id)
  (stat_source : Z) (msg : message_data) (peers : list Z)
  (vert_idx : local_id) :
  global_to_local q !! receivers_node msg = Some vert_idx ->
  vert_idx <> NO_LOCAL_ID ->
  msg_pass msg = pass q ->
  router_step tid bt stat_source (int_of_tag SET_TO_LABEL) msg peers q =
  (found <- set_label (senders_node msg) stat_source NO_LOCAL_ID vert_idx
              (msg_value msg) tid;;
   if found : bool then
     claim_step_3 tid;;;
     working_threads_sub 1;;; ret (LoopAgain, vert_idx)
   else working_threads_sub 1;;; ret (LoopAgain, bt)) (router_busy q).
Proof.
  intros Hg Hne Hpass. unfold router_step.
  change (tag_of_int (int_of_tag SET_TO_LABEL)) with (Some SET_TO_LABEL).
  cbv iota.
  unfold working_threads_add. rewrite bind_modify. fold (router_busy q).
  rewrite (bind_eq _ _ _ _ _ (lookup_global_id_eq _ _)).
  change (global_to_local (router_busy q)) with (global_to_local q).
  rewrite Hg. apply Z.eqb_neq in Hne. rewrite Hne.
  rewrite bind_gets. change (pass (router_busy q)) with (pass q).
  rewrite Hpass, Z.eqb_refl. cbn [negb]. reflexivity.
Qed.

Lemma claim_step_3_labels (tid : Z) (p p' : process) (u : unit) :
  claim_step_3 tid p = Some (u, p') ->
  labels p' = labels p /\ sink_found p' = true
  /\ (step_3_tid p = -1 -> step_3_tid p' = tid).
Proof.
  destruct u.
  unfold claim_step_3. rewrite (bind_eq _ _ _ _ _ (cas_step_3_tid_eq tid p)).
  unfold ERROR. destruct (step_3_tid p =? -1) eqn:E.
  - rewrite bind_ret. unfold modify. intros [= <-].
    split; [reflexivity|split; [reflexivity|intros _; reflexivity]].
  - rewrite bind_modify. unfold modify. intros [= <-]. apply Z.eqb_neq in E.
    destruct (debug_mode p);
      (split; [reflexivity|split; [reflexivity|intros ?; contradiction]]).
Qed.

(** X12.  A label proposed across ranks arrives as proposed.  A worker that
    pops an outgoing edge (u -> v) with room left and v on another rank sends
    one SET_TO_LABEL message there; when the router of a process that has v,
    in the same pass, services that message and finds v unlabelled, v gets the
    label min(|label(u)|, capacity - flow) with u's id and the sender's rank
    as its back pointer and no local index; if v is the sink the router
    raises [sink_found] and keeps v's index for step 3. *)
Theorem remote_label_arrives (p q q' : process) (entry : edge_entry)
  (tid_w tid_r : Z) (v : vertex) (edge : out_edge) (l lv : label)
  (bt bt' : local_id) (ctl : loop_ctl) (peers : list Z) (vi : local_id)
  (w : vertex) :
  vec_at (vertices p) (vertex_index entry) = Some v ->
  vec_at (out_edges v) (edge_index entry) = Some edge ->
  0 < int_sub (capacity edge) (flow edge) ->
  vec_at (labels p) (vertex_index entry) = Some l ->
  rank_location edge <> mpi_rank p ->
  global_to_local q !! dest_node_id edge = Some vi ->
  vi <> NO_LOCAL_ID ->
  pass q = pass p ->
  vec_at (labels q) vi = Some lv -> value lv = 0 ->
  vec_at (vertices q) vi = Some w ->
  let proposed :=
    Z.min (int_abs (value l)) (int_sub (capacity edge) (flow edge)) in
  let m := mk_message_data (id v) (dest_node_id edge) proposed (pass p) in
  router_step tid_r bt (mpi_rank p) (int_of_tag SET_TO_LABEL) m peers q
  = Some ((ctl, bt'), q') ->
  newly_sent p (state_after (handle_out_edge entry tid_w) p)
  = [mk_sent (rank_location edge) SET_TO_LABEL (MsgPayload m)]
  /\ vec_at (labels q') vi
     = Some (mk_label proposed (id v) (mpi_rank p) NO_LOCAL_ID)
  /\ ctl = LoopAgain
  /\ (id w = sink_id q -> bt' = vi /\ sink_found q' = true)
  /\ (id w <> sink_id q -> bt' = bt /\ sink_found q' = sink_found q).
Proof.
  intros Hv He Hres Hl Hloc Hg Hvi Hpass Hlv Hz Hw proposed m H.
  split.
  { unfold state_after.
    rewrite (handle_out_edge_remote p entry tid_w v edge l Hv He Hres Hl Hloc).
    apply newly_sent_one. unfold coloured_for, set_to_label_message.
    fold proposed. by destruct (rank_location edge <? mpi_rank p). }
  rewrite (router_step_set_to_label q tid_r bt (mpi_rank p) _ peers vi) in H
    by (cbn; congruence).
  cbn [senders_node msg_value m] in H.
  apply bind_Some in H as (found & q1 & Hs & H).
  assert (Hlv' : vec_at (labels (router_busy q)) vi = Some lv) by exact Hlv.
  assert (Hw' : vec_at (vertices (router_busy q)) vi = Some w) by exact Hw.
  rewrite (set_label_won _ _ _ _ _ _ _ _ _ Hlv' Hz Hw') in Hs.
  cbv zeta in Hs.
  change (sink_id (router_busy q)) with (sink_id q) in Hs.
  destruct (id w =? sink_id q) eqn:E.
  - apply Z.eqb_eq in E. injection Hs as <- <-.
    apply bind_Some in H as ([] & q2 & Hc & H).
    apply claim_step_3_labels in Hc as (Hlab & Hsf & _).
    unfold working_threads_sub in H. rewrite bind_modify in H.
    unfold ret in H. injection H as <- <- <-.
    split; [|split; [done|split; [done|congruence]]].
    cbn [labels with_working_threads]. rewrite Hlab. cbn.
    eapply vec_at_set_eq, Hlv.
  - apply Z.eqb_neq in E.
    destruct (insert_edges _ _ _) as [[[] q2]|] eqn:Hi; [|discriminate].
    injection Hs as <- <-.
    apply insert_edges_frame in Hi as (frag & ->).
    unfold working_threads_sub in H. rewrite bind_modify in H.
    unfold ret in H. injection H as <- <- <-.
    split; [|split; [done|split; [congruence|done]]].
    cbn. eapply vec_at_set_eq, Hlv.
Qed.

Lemma remote_label_arrives_witness :
  let p := state_after (step_1 0) sample_two_ranks in
  let q := state_after (step_1 0) sample_rank_1 in
  let m := mk_message_data 0 1 4 1 in
  let q' :=
    state_after
      (router_step 0 NO_LOCAL_ID 0 (int_of_tag SET_TO_LABEL) m []) q in
  newly_sent p (state_after (handle_out_edge (mk_edge_entry 0 true 0) 1) p)
  = [mk_sent 1 SET_TO_LABEL (MsgPayload m)]
  /\ vec_at (labels q') 0 = Some (mk_label 4 0 0 NO_LOCAL_ID)
  /\ LoopAgain = LoopAgain
  /\ (1 = sink_id q -> NO_LOCAL_ID = 0 /\ sink_found q' = true)
  /\ (1 <> sink_id q ->
      NO_LOCAL_ID = NO_LOCAL_ID /\ sink_found q' = sink_found q).
Proof.
  intros p q m q'.
  apply (remote_label_arrives p q q' (mk_edge_entry 0 true 0) 1 0
           (mk_vertex 0 [mk_out_edge 1 1 NO_LOCAL_ID 4 0;
                         mk_out_edge 2 0 1 5 0] [])
           (mk_out_edge 1 1 NO_LOCAL_ID 4 0)
           (mk_label INT_MAX 0 0 0) EMPTY_LABEL NO_LOCAL_ID NO_LOCAL_ID
           LoopAgain [] 0
           (mk_vertex 1 [mk_out_edge 2 0 NO_LOCAL_ID 6 0]
              [mk_in_edge 0 0 NO_LOCAL_ID])).
  all: vm_compute; try reflexivity; try discriminate.
Defined.

(** ** Message tags *)

Lemma tag_of_int_valid (z : Z) :
  1 <= z <= 9 -> exists t, tag_of_int z = Some t /\ z = int_of_tag t.
Proof.
  intros Hz.
  assert (z = 1 \/ z = 2 \/ z = 3 \/ z = 4 \/ z = 5 \/ z = 6 \/ z = 7
          \/ z = 8 \/ z = 9) as H by lia.
  repeat (destruct H as [->|H]; [eexists; split; reflexivity|]).
  subst. eexists; split; reflexivity.
Qed.

Lemma tag_of_int_invalid (z : Z) : ~ 1 <= z <= 9 -> tag_of_int z = None.
Proof.
  intros Hz. destruct (tag_of_int z) as [t|] eqn:E; [|done].
  apply tag_of_int_Some in E. subst. destruct t; cbn in Hz; lia.
Qed.

(** X13.  [tag2str] names every tag of the enumeration with its own name and
    answers INVALID_TAG exactly for the integers that are no tag. *)
Theorem tag2str_names (z : Z) :
  (tag2str z = "INVALID_TAG" <-> ~ 1 <= z <= 9)
  /\ (forall z' : Z, 1 <= z <= 9 -> tag2str z' = tag2str z -> z' = z).
Proof.
  split; [split|].
  - intros H [H1 H2].
    destruct (tag_of_int_valid z (conj H1 H2)) as (t & Ht & _).
    unfold tag2str in H. rewrite Ht in H. by destruct t.
  - intros H. unfold tag2str. by rewrite tag_of_int_invalid.
  - intros z' Hz H.
    destruct (tag_of_int_valid z Hz) as (t & Ht & ->).
    unfold tag2str in H. rewrite Ht in H.
    destruct (tag_of_int z') as [t'|] eqn:E.
    + apply tag_of_int_Some in E as ->. by destruct t, t'.
    + by destruct t.
Qed.

(** ** The Zoltan callbacks *)

Lemma read_array_all {A} (buf : list A) :
  read_array (Z.of_nat (length buf)) buf = Some buf.
Proof.
  unfold read_array. rewrite bool_decide_eq_true_2 by lia.
  by rewrite Nat2Z.id, firstn_all.
Qed.

(** X14.  Migration is a round trip: what [user_pack_vertex] writes for a
    vertex, [user_unpack_vertex] on the receiving rank turns into that vertex
    again, appended to the receiver's vertices, with the id it is given, the
    same edges in the same order with their destinations, indices, capacities
    and flows, and the receiver's rank as the rank of every edge.  Packing
    changes nothing on the sender. *)
Theorem user_unpack_pack_vertex (p q : process) (local : local_id)
  (v : vertex) :
  vec_at (vertices p) local = Some v ->
  exists packed : packed_vert,
    user_pack_vertex local p = Some (packed, p)
    /\ user_unpack_vertex (id v) packed q =
       Some (tt, with_vertices
                   (fun vs => vs ++ [migrated (mpi_rank q) v]) q).
Proof.
  intros Hv. eexists. split.
  - unfold user_pack_vertex.
    rewrite (bind_eq _ _ _ _ _ (vertex_at_eq _ _ _ Hv)). reflexivity.
  - unfold user_unpack_vertex. cbn [out_count in_count data_out data_in].
    rewrite !read_array_all. cbn [lift_option]. rewrite !bind_ret, bind_gets.
    reflexivity.
Qed.

Lemma user_unpack_pack_vertex_witness :
  exists packed : packed_vert,
    user_pack_vertex 0 sample_two_ranks = Some (packed, sample_two_ranks)
    /\ user_unpack_vertex 0 packed sample_rank_1 =
       Some (tt, with_vertices
                   (fun vs =>
                      vs ++ [mk_vertex 0 [mk_out_edge 1 1 NO_LOCAL_ID 4 0;
                                          mk_out_edge 2 1 1 5 0] []])
                   sample_rank_1).
Proof.
  apply (user_unpack_pack_vertex sample_two_ranks sample_rank_1 0
           (mk_vertex 0 [mk_out_edge 1 1 NO_LOCAL_ID 4 0;
                         mk_out_edge 2 0 1 5 0] [])).
  vm_compute. reflexivity.
Defined.

(** X15.  Zoltan is told the truth about the neighbours: for a local vertex
    whose edges an [int] can count, [user_return_edge_list] writes exactly as
    many entries as [user_num_edges] announces, the far ends of the incoming
    edges first and then those of the outgoing edges, each with its rank. *)
Theorem user_return_edge_list_fits (p : process) (local : local_id)
  (v : vertex) :
  vec_at (vertices p) local = Some v ->
  Z.of_nat (length (in_edges v) + length (out_edges v)) <= INT_MAX ->
  exists (n : Z) (nbors : list (global_id * Z)),
    user_num_edges local p = Some (n, p)
    /\ user_return_edge_list local p = Some (nbors, p)
    /\ Z.of_nat (length nbors) = n
    /\ nbors.*1 = (in_dest_node_id <$> in_edges v)
                  ++ (dest_node_id <$> out_edges v).
Proof.
  intros Hv Hn. eexists. eexists. split; [|split; [|split]].
  - unfold user_num_edges.
    rewrite (bind_eq _ _ _ _ _ (vertex_at_eq _ _ _ Hv)). reflexivity.
  - unfold user_return_edge_list.
    rewrite (bind_eq _ _ _ _ _ (vertex_at_eq _ _ _ Hv)). reflexivity.
  - rewrite length_app, !length_map. symmetry.
    rewrite wrap_int_id; [lia|]. unfold in_int_range, INT_MIN. lia.
  - clear Hn Hv. rewrite fmap_app. f_equal.
    + induction (in_edges v) as [|e es IH]; [done|].
      cbn [map]. rewrite !fmap_cons. cbn [fst]. by rewrite IH.
    + induction (out_edges v) as [|e es IH]; [done|].
      cbn [map]. rewrite !fmap_cons. cbn [fst]. by rewrite IH.
Qed.

Lemma user_return_edge_list_fits_witness :
  exists (n : Z) (nbors : list (global_id * Z)),
    user_num_edges 1 sample_two_ranks = Some (n, sample_two_ranks)
    /\ user_return_edge_list 1 sample_two_ranks
       = Some (nbors, sample_two_ranks)
    /\ Z.of_nat (length nbors) = n
    /\ nbors.*1 = (in_dest_node_id <$> [mk_in_edge 0 0 0; mk_in_edge 1 1 NO_LOCAL_ID])
                  ++ (dest_node_id <$> []).
Proof.
  apply (user_return_edge_list_fits sample_two_ranks 1
           (mk_vertex 2 []
              [mk_in_edge 0 0 0; mk_in_edge 1 1 NO_LOCAL_ID])).
  - vm_compute. reflexivity.
  - vm_compute. discriminate.
Defined.

(** ** Flags that are only raised *)

#[local] Instance flags_only_raised_refl : Reflexive flags_only_raised.
Proof. intros p. by repeat split. Qed.

#[local] Instance flags_only_raised_trans : Transitive flags_only_raised.
Proof.
  intros p1 p2 p3 (A1 & B1 & C1) (A2 & B2 & C2). repeat split; auto.
  intros H. rewrite C2; [by apply C1|]. by rewrite C1.
Qed.

Lemma flags_only_raised_same (p p' : process) :
  sink_found p' = sink_found p ->
  algorithm_complete p' = algorithm_complete p ->
  step_3_tid p' = step_3_tid p -> flags_only_raised p p'.
Proof. intros E1 E2 E3. repeat split; congruence. Qed.

Ltac raised_setter :=
  apply preserves_modify; intros ?;
  first [ apply flags_only_raised_same; reflexivity
        | by repeat split ].

Lemma flags_only_raised_ERROR (text : string) :
  preserves flags_only_raised (ERROR text).
Proof.
  unfold ERROR. apply preserves_modify. intros p.
  apply flags_only_raised_same; by destruct (debug_mode p).
Qed.

Lemma flags_only_raised_set_label (prev : global_id) (prev_rank : Z)
  (prev_idx curr_idx : local_id) (new_value tid : Z) :
  preserves flags_only_raised
    (set_label prev prev_rank prev_idx curr_idx new_value tid).
Proof.
  intros p b p' H. apply set_label_frame in H as (ls & q & ->).
  by apply flags_only_raised_same.
Qed.

Lemma flags_only_raised_cas_step_3_tid (tid : Z) :
  preserves flags_only_raised (cas_step_3_tid tid).
Proof.
  intros p old p' H. rewrite cas_step_3_tid_eq in H. injection H as _ <-.
  destruct (step_3_tid p =? -1) eqn:E; [|reflexivity].
  apply Z.eqb_eq in E. by repeat split.
Qed.

Lemma flags_only_raised_send_check_termination (ranks : list Z) :
  preserves flags_only_raised (send_check_termination ranks).
Proof.
  induction ranks as [|i ranks IH]; cbn; unfold MPI_Ssend;
    repeat first [ exact IH | frame_step | raised_setter ].
Qed.

Ltac raised_tac :=
  unfold check_termination, claim_step_3, lookup_global_id,
    working_threads_add, working_threads_sub, label_at, vertex_at, MPI_Ssend;
  repeat first
    [ apply flags_only_raised_set_label | apply flags_only_raised_ERROR
    | apply flags_only_raised_cas_step_3_tid
    | apply flags_only_raised_send_check_termination
    | frame_step
    | raised_setter ].

Lemma flags_only_raised_handle_out_edge (entry : edge_entry) (tid : Z) :
  preserves flags_only_raised (handle_out_edge entry tid).
Proof. unfold handle_out_edge. raised_tac. Qed.

Lemma flags_only_raised_handle_in_edge (entry : edge_entry) (tid : Z) :
  preserves flags_only_raised (handle_in_edge entry tid).
Proof. unfold handle_in_edge. raised_tac. Qed.

Lemma flags_only_raised_worker_idle :
  preserves flags_only_raised worker_idle.
Proof. unfold worker_idle. raised_tac. Qed.

Lemma flags_only_raised_worker_process (tid : Z) (bt : local_id)
  (entry : edge_entry) :
  preserves flags_only_raised (worker_process tid bt entry).
Proof.
  unfold worker_process.
  repeat first
    [ apply flags_only_raised_handle_out_edge
    | apply flags_only_raised_handle_in_edge
    | progress raised_tac ].
Qed.

Lemma flags_only_raised_worker_step (tid : Z) (bt : local_id)
  (entry : edge_entry) :
  preserves flags_only_raised (worker_step tid bt entry).
Proof.
  unfold worker_step.
  repeat first
    [ apply flags_only_raised_worker_idle
    | apply flags_only_raised_worker_process
    | progress raised_tac ].
Qed.

Lemma flags_only_raised_router_step (tid : Z) (bt : local_id)
  (stat_source stat_tag : Z) (msg : message_data) (peers : list Z) :
  preserves flags_only_raised
    (router_step tid bt stat_source stat_tag msg peers).
Proof. unfold router_step. raised_tac. Qed.

(** X16.  Within the labelling search of a pass the flags only go up:
    whatever the threads of a process do, [sink_found] and
    [algorithm_complete] are never lowered once raised, and once a thread
    has claimed step 3 no other claim replaces it. *)
Theorem step_2_only_raises_flags (actions : list step_2_action)
  (p p' : process) :
  do_actions actions p = Some (tt, p') ->
  (sink_found p = true -> sink_found p' = true)
  /\ (algorithm_complete p = true -> algorithm_complete p' = true)
  /\ (step_3_tid p <> -1 -> step_3_tid p' = step_3_tid p).
Proof.
  change (do_actions actions p = Some (tt, p') -> flags_only_raised p p').
  revert p. induction actions as [|a actions IH]; intros p H.
  - unfold do_actions, ret in H. simplify_eq. reflexivity.
  - cbn [do_actions] in H. apply bind_Some in H as ([] & p1 & H1 & H2).
    etrans; [|by apply IH].
    destruct a as [tid bt entry|tid bt ss st msg peers]; cbn [do_action] in H1;
      apply bind_Some in H1 as (r & p0 & Hr & Hret);
      unfold ret in Hret; simplify_eq.
    + by eapply flags_only_raised_worker_step.
    + by eapply flags_only_raised_router_step.
Qed.

Lemma step_2_only_raises_flags_witness :
  let p :=
    state_after
      (do_actions [WorkerStep 1 NO_LOCAL_ID (mk_edge_entry 0 true 0);
                   WorkerStep 1 NO_LOCAL_ID (mk_edge_entry 0 true 0)])
      (state_after (step_1 0) sample_two_ranks) in
  let actions :=
    [RouterStep 0 NO_LOCAL_ID 0 (int_of_tag SINK_FOUND)
       (mk_message_data 0 0 0 0) [];
     WorkerStep 2 NO_LOCAL_ID (mk_edge_entry 0 true 0)] in
  sink_found (state_after (do_actions actions) p) = true
  /\ step_3_tid (state_after (do_actions actions) p) = 1.
Proof.
  intros p actions.
  destruct (step_2_only_raises_flags actions p
              (state_after (do_actions actions) p)) as (A & _ & C).
  - vm_compute. reflexivity.
  - split.
    + apply A. vm_compute. reflexivity.
    + rewrite C; [vm_compute; reflexivity|]. vm_compute. discriminate.
Defined.

(** ** The whole run on one rank *)

#[local] Instance same_shape_refl : Reflexive same_shape.
Proof.
  intros p. repeat split.
  apply Forall2_same_length_lookup. split; [done|].
  intros i x y Hx Hy. simplify_eq. apply same_vertex_but_flow_refl.
Qed.

#[local] Instance same_shape_trans : Transitive same_shape.
Proof.
  intros p1 p2 p3 (A1 & B1 & C1 & D1 & E1 & F1) (A2 & B2 & C2 & D2 & E2 & F2).
  repeat split; try congruence.
  eapply Forall2_trans; [|eassumption|eassumption].
  apply same_vertex_but_flow_trans.
Qed.

Lemma same_graph_same_shape (p p' : process) :
  same_graph p p' -> same_shape p p'.
Proof.
  intros H. destruct H. repeat split; try done.
  rewrite sg_vertices0. apply (same_shape_refl p).
Qed.

Lemma only_flows_changed_same_shape (p p' : process) :
  only_flows_changed p p' -> same_shape p p'.
Proof. intros H. destruct H. by repeat split. Qed.

Lemma same_graph_route_to_self (ms : list sent) :
  preserves same_graph (route_to_self ms).
Proof.
  induction ms as [|m ms IH]; cbn [route_to_self];
    repeat first
      [ exact IH | apply same_graph_router_step | frame_step ].
Qed.

Lemma same_graph_step_2_single (fuel : nat) :
  forall (tid : Z) (bt : local_id) (entry : edge_entry),
    preserves same_graph (step_2_single fuel tid bt entry).
Proof.
  induction fuel as [|fuel IH]; intros tid bt entry; cbn [step_2_single].
  - apply preserves_ret, _.
  - unfold self_messages.
    repeat first
      [ apply IH | apply same_graph_worker_step
      | apply same_graph_route_to_self | frame_step ].
Qed.

Lemma only_flows_changed_step_3_single (fuel : nat) :
  forall loc : step_3_locals,
    preserves only_flows_changed (step_3_single fuel loc).
Proof.
  induction fuel as [|fuel IH]; intros loc; cbn [step_3_single].
  - apply preserves_ret, _.
  - repeat first
      [ apply IH
      | apply only_flows_changed_step_3_local
      | frame_step ].
Qed.

(** What a pass on one rank has done when it returns. *)
Lemma single_pass_inv (fuel : nat) (p p' : process)
  (r : option pass_result) :
  single_pass fuel p = Some (r, p') ->
  same_shape p p'
  /\ (r = Some PassComplete ->
      vertices p' = vertices p /\ pass p' = pass p)
  /\ (r = Some PassAugmented -> pass p' = int_add (pass p) 1).
Proof.
  unfold single_pass. intros H.
  apply bind_Some in H as ([] & p1 & H1 & H).
  apply same_graph_step_1 in H1.
  apply bind_Some in H as (res & p2 & H2 & H).
  apply same_graph_step_2_single in H2.
  assert (H12 : same_graph p p2) by (by etrans).
  assert (Hdone : forall x, ret x p2 = Some (r, p') ->
            x <> Some PassAugmented ->
            same_shape p p'
            /\ (r = Some PassComplete ->
                vertices p' = vertices p /\ pass p' = pass p)
            /\ (r = Some PassAugmented -> pass p' = int_add (pass p) 1)).
  { intros x Hx Hne. unfold ret in Hx. injection Hx as <- <-.
    split; [by apply same_graph_same_shape|].
    split; [intros _; by destruct H12|]. by intros. }
  assert (Haug : forall bt,
            (l <- label_at bt;;
             done <- step_3_single fuel
                       (mk_step_3_locals bt (value l) false false);;
             match done with
             | None => ret None
             | Some _ =>
                 modify (with_pass (fun n => int_add n 1));;;
                 ret (Some PassAugmented)
             end) p2 = Some (r, p') ->
            same_shape p p'
            /\ (r = Some PassComplete ->
                vertices p' = vertices p /\ pass p' = pass p)
            /\ (r = Some PassAugmented -> pass p' = int_add (pass p) 1)).
  { intros bt Hb.
    apply bind_Some in Hb as (l & p3 & H3 & Hb).
    assert (p3 = p2) as -> by (by run_reads).
    apply bind_Some in Hb as (done & p4 & H4 & Hb).
    apply only_flows_changed_step_3_single in H4.
    assert (Hs : same_shape p p4).
    { etrans; [by apply same_graph_same_shape|].
      by apply only_flows_changed_same_shape. }
    destruct done as [loc|].
    - rewrite bind_modify in Hb. unfold ret in Hb. injection Hb as <- <-.
      split; [|split; [discriminate|]].
      + destruct Hs as (?&?&?&?&?&?). by repeat split.
      + intros _. cbn. destruct H12, H4. congruence.
    - unfold ret in Hb. injection Hb as <- <-.
      split; [exact Hs|]. split; discriminate. }
  destruct res as [[[] bt]|]; eauto; eapply Hdone; eauto; discriminate.
Qed.

(** X17.  One pass on a single rank.  A pass that ends in the termination
    check has changed no edge table, so no flow, and not the pass number; a
    pass that augments has changed flows only and has counted the pass.  In
    both cases the graph keeps the shape it was loaded with. *)
Theorem single_pass_outcomes (fuel : nat) (p p' : process)
  (r : option pass_result) :
  single_pass fuel p = Some (r, p') ->
  same_shape p p'
  /\ (r = Some PassComplete ->
      vertices p' = vertices p /\ pass p' = pass p)
  /\ (r = Some PassAugmented -> pass p' = int_add (pass p) 1).
Proof. apply single_pass_inv. Qed.

Lemma single_pass_outcomes_witness :
  let p := initial_process 0 1 false [0; 0] 2 [[(1, 5)]; []] in
  let p' := state_after (single_pass 10) p in
  same_shape p p'
  /\ (Some PassAugmented = Some PassComplete ->
      vertices p' = vertices p /\ pass p' = pass p)
  /\ (Some PassAugmented = Some PassAugmented ->
      pass p' = int_add (pass p) 1).
Proof.
  intros p p'.
  apply (single_pass_outcomes 10 p p' (Some PassAugmented)).
  vm_compute. reflexivity.
Defined.

Lemma run_algorithm_single_S (passes fuel : nat) :
  run_algorithm_single (S passes) fuel =
  (res <- single_pass fuel;;
   match res with
   | None => ret None
   | Some PassComplete => ret (Some tt)
   | Some PassAugmented => run_algorithm_single passes fuel
   end).
Proof. reflexivity. Qed.

(** X18.  The whole run on a single rank, however many passes it takes:
    when [run_algorithm] comes back, the rank, the size, the source, the sink
    and the id map are those it started with, and every vertex has its id,
    its incoming edges and, edge by edge, the destination, rank, index and
    capacity of its outgoing edges; only flows have changed. *)
Theorem run_algorithm_keeps_shape (passes fuel : nat) (p p' : process)
  (r : option unit) :
  run_algorithm_single passes fuel p = Some (r, p') -> same_shape p p'.
Proof.
  revert p. induction passes as [|passes IH]; intros p H.
  - injection H as _ <-. apply same_shape_refl.
  - rewrite run_algorithm_single_S in H.
    apply bind_Some in H as (res & p1 & H1 & H).
    pose proof (single_pass_inv _ _ _ _ H1) as (Hs & _).
    destruct res as [[]|].
    + apply (same_shape_trans _ _ _ Hs). apply IH. exact H.
    + injection H as _ <-. exact Hs.
    + injection H as _ <-. exact Hs.
Qed.

Lemma run_algorithm_keeps_shape_witness :
  let p :=
    initial_process 0 1 false [0; 0; 0; 0] 4
      [[(1, 3); (2, 2)]; [(2, 1); (3, 2)]; [(3, 3)]; []] in
  same_shape p (state_after (run_algorithm_single 10 40) p).
Proof.
  intros p.
  apply (run_algorithm_keeps_shape 10 40 p _ (Some tt)).
  vm_compute. reflexivity.
Defined.

(** ** The value -1 of [calc_max_flow] *)

(** X19.  [calc_max_flow] tells the rank that owns the source from the others
    by the value of [total_flow] alone: an owner whose flows out of the source
    add up to -1 behaves as a rank without the source.  If it is rank 0 it
    waits for a TOTAL_FLOW message, otherwise it sends none. *)
Theorem calc_max_flow_sentinel (p : process) (idx : local_id) (v : vertex)
  (incoming : list Z) :
  global_to_local p !! source_id p = Some idx -> idx <> NO_LOCAL_ID ->
  vec_at (vertices p) idx = Some v ->
  sum_flows (out_edges v) = -1 ->
  calc_max_flow_tail incoming p =
  Some (if mpi_rank p =? 0 then head incoming else Some (-1),
        with_stdout (fun o => o ++ [calculation_complete_line]) p).
Proof.
  intros Hg Hidx Hv Hsum. unfold calc_max_flow_tail.
  rewrite bind_modify, bind_gets.
  set (p1 := with_stdout _ p).
  rewrite (bind_eq _ _ _ _ _ (lookup_global_id_eq _ _)).
  change (global_to_local p1) with (global_to_local p).
  change (source_id p1) with (source_id p). rewrite Hg.
  apply Z.eqb_neq in Hidx. rewrite Hidx. cbn [negb].
  rewrite bind_assoc.
  assert (Hv1 : vec_at (vertices p1) idx = Some v) by exact Hv.
  rewrite (bind_eq _ _ _ _ _ (vertex_at_eq _ _ _ Hv1)).
  rewrite bind_ret, bind_gets. change (mpi_rank p1) with (mpi_rank p).
  rewrite Hsum. cbn [Z.eqb negb Pos.eqb].
  by destruct (mpi_rank p =? 0).
Qed.

Lemma calc_max_flow_sentinel_witness :
  calc_max_flow_tail [] sample_negative_flow =
  Some (Some (-1),
        with_stdout (fun o => o ++ [calculation_complete_line])
          sample_negative_flow).
Proof.
  apply (calc_max_flow_sentinel sample_negative_flow 0
           (mk_vertex 0 [mk_out_edge 1 0 NO_LOCAL_ID 4 (-1)] []) []).
  - vm_compute. reflexivity.
  - vm_compute. discriminate.
  - vm_compute. reflexivity.
  - vm_compute. reflexivity.
Defined.

(** ** The ring of step 3 *)

Lemma default_sender_next_rank (p q : process) :
  0 <= mpi_rank p < mpi_size p ->
  mpi_size q = mpi_size p -> mpi_rank q = next_rank p ->
  default_sender q = mpi_rank p.
Proof.
  unfold default_sender, next_rank. intros Hr -> ->.
  rewrite (Z.rem_mod_nonneg (mpi_rank p + 1)) by lia.
  destruct (decide (mpi_rank p + 1 < mpi_size p)) as [Hlt|Hge].
  - rewrite (Z.mod_small (mpi_rank p + 1)) by lia.
    rewrite Z.rem_mod_nonneg by lia.
    replace (mpi_rank p + 1 - 1 + mpi_size p)
      with (mpi_rank p + 1 * mpi_size p) by lia.
    rewrite Z_mod_plus_full. apply Z.mod_small. lia.
  - replace (mpi_rank p + 1) with (mpi_size p) by lia.
    rewrite Z_mod_same_full.
    rewrite Z.rem_mod_nonneg by lia. rewrite Z.mod_small by lia. lia.
Qed.

Lemma wait_and_flush_skips (tag sender : Z) (pre rest : list (Z * Z)) :
  Forall (fun m => m <> (sender, tag)) pre ->
  wait_and_flush tag sender (pre ++ (sender, tag) :: rest) = Some rest.
Proof.
  induction 1 as [|[s t] pre Hne _ IH]; cbn.
  - by rewrite !Z.eqb_refl.
  - destruct (t =? tag) eqn:Et, (s =? sender) eqn:Es; cbn; try exact IH.
    apply Z.eqb_eq in Et, Es. congruence.
Qed.

(** X20.  The ring closes: the message a rank sends to
    [(mpi_rank + 1) % mpi_size] in step 3 is the one [wait_and_flush] on that
    rank waits for from its default sender.  Everything received before it,
    whatever its tag and sender, is discarded unread, and what follows it is
    left in place. *)
Theorem wait_and_flush_accepts_ring_message (p q : process) (tag : Z)
  (pre rest : list (Z * Z)) :
  0 <= mpi_rank p < mpi_size p ->
  mpi_size q = mpi_size p -> mpi_rank q = next_rank p ->
  Forall (fun m => m <> (mpi_rank p, tag)) pre ->
  wait_and_flush tag (default_sender q) (pre ++ (mpi_rank p, tag) :: rest)
  = Some rest.
Proof.
  intros Hr Hs Hq Hpre. rewrite (default_sender_next_rank p q Hr Hs Hq).
  by apply wait_and_flush_skips.
Qed.

Lemma wait_and_flush_accepts_ring_message_witness :
  wait_and_flush (int_of_tag SINK_FOUND) (default_sender sample_two_ranks)
    ([(1, int_of_tag TOKEN_WHITE); (0, int_of_tag SINK_FOUND);
      (1, int_of_tag UPDATE_FLOW)]
     ++ (mpi_rank sample_rank_1, int_of_tag SINK_FOUND)
        :: [(1, int_of_tag SOURCE_FOUND)])
  = Some [(1, int_of_tag SOURCE_FOUND)].
Proof.
  apply (wait_and_flush_accepts_ring_message sample_rank_1 sample_two_ranks
           (int_of_tag SINK_FOUND)).
  - vm_compute. split; [discriminate|reflexivity].
  - reflexivity.
  - vm_compute. reflexivity.
  - repeat constructor; vm_compute; discriminate.
Defined.

(** [wait_and_flush] returns exactly when the message arrives. *)
Lemma wait_and_flush_inv (tag sender : Z) (inbox rest : list (Z * Z)) :
  wait_and_flush tag sender inbox = Some rest ->
  exists pre, inbox = pre ++ (sender, tag) :: rest
              /\ Forall (fun m => m <> (sender, tag)) pre.
Proof.
  induction inbox as [|[s t] inbox IH]; cbn; [discriminate|].
  destruct (t =? tag) eqn:Et, (s =? sender) eqn:Es; cbn.
  - intros [= <-]. apply Z.eqb_eq in Et, Es. subst. exists []. by split.
  - intros H. destruct (IH H) as (pre & -> & Hpre).
    exists ((s, t) :: pre). split; [done|]. constructor; [|done].
    apply Z.eqb_neq in Es. congruence.
  - intros H. destruct (IH H) as (pre & -> & Hpre).
    exists ((s, t) :: pre). split; [done|]. constructor; [|done].
    apply Z.eqb_neq in Et. congruence.
  - intros H. destruct (IH H) as (pre & -> & Hpre).
    exists ((s, t) :: pre). split; [done|]. constructor; [|done].
    apply Z.eqb_neq in Et. congruence.
Qed.

(** X21.  Zoltan is told the truth about the objects: [user_return_obj_list]
    writes one entry per local vertex, as many as [user_return_num_obj]
    announces (when the count fits an [int]), and entry [i] holds the id of
    the vertex at index [i] together with [i] as its local id. *)
Theorem user_return_obj_list_fits (p : process) :
  Z.of_nat (length (vertices p)) <= INT_MAX ->
  exists (n : Z) (objs : list (global_id * local_id)),
    user_return_num_obj p = Some (n, p)
    /\ user_return_obj_list p = Some (objs, p)
    /\ Z.of_nat (length objs) = n
    /\ forall (i : nat) (v : vertex),
         vertices p !! i = Some v -> objs !! i = Some (id v, Z.of_nat i).
Proof.
  intros Hn. eexists. eexists. split; [reflexivity|]. split; [reflexivity|].
  split.
  - rewrite length_zip_with, length_map, length_seqZ.
    rewrite wrap_int_id; [lia|]. unfold in_int_range, INT_MIN. lia.
  - intros i v Hi. apply lookup_zip_with_Some.
    exists (id v), (Z.of_nat i). split; [done|]. split.
    + by rewrite lookup_map, Hi.
    + apply lookup_seqZ. split; [lia|].
      apply lookup_lt_Some in Hi. lia.
Qed.

Lemma user_return_obj_list_fits_witness :
  exists (n : Z) (objs : list (global_id * local_id)),
    user_return_num_obj sample_two_ranks = Some (n, sample_two_ranks)
    /\ user_return_obj_list sample_two_ranks = Some (objs, sample_two_ranks)
    /\ Z.of_nat (length objs) = n
    /\ forall (i : nat) (v : vertex),
         vertices sample_two_ranks !! i = Some v ->
         objs !! i = Some (id v, Z.of_nat i).
Proof.
  apply (user_return_obj_list_fits sample_two_ranks).
  vm_compute. discriminate.
Defined.

(** ** Once the sink is found *)

(** What a worker does with the flag up once it is past the test of its
    loop. *)
Lemma worker_step_sink_found (p : process) (tid : Z) (bt : local_id)
  (entry : edge_entry) :
  sink_found p = true -> algorithm_complete p = false ->
  in_int_range (working_threads p) ->
  exists (e : edge_entry) (p' : process),
    worker_step tid bt entry p = Some ((WorkerBreak, bt, e), p')
    /\ labels p' = labels p /\ vertices p' = vertices p
    /\ outbox p' = outbox p
    /\ working_threads p' = working_threads p
    /\ edge_queue p' = tail (edge_queue p)
    /\ e = default entry (head (edge_queue p)).
Proof.
  intros Hsf Hac Hw. unfold worker_step. rewrite bind_gets.
  assert (Hproc : forall (e : edge_entry) (q : process),
            sink_found q = true -> algorithm_complete q = false ->
            worker_process tid bt e q =
            Some ((WorkerBreak, bt),
                  with_working_threads (fun w => int_sub w 1)
                    (with_queue_is_empty false
                       (with_working_threads (fun w => int_add w 1) q)))).
  { intros e q Hq1 Hq2. unfold worker_process.
    rewrite bind_gets, Hq2. unfold working_threads_add, working_threads_sub.
    rewrite !bind_modify, bind_gets.
    cbn [sink_found with_queue_is_empty with_working_threads].
    rewrite Hq1. by rewrite bind_modify. }
  destruct (edge_queue p) as [|e q'] eqn:Eq; cbn [EdgeQueue_pop].
  - rewrite !bind_gets, Hsf. cbn [negb andb].
    rewrite (bind_eq _ _ _ _ _ (Hproc entry p Hsf Hac)).
    eexists. eexists. split; [reflexivity|].
    cbn. rewrite Eq. repeat split; try done. by apply wrap_int_add_sub.
  - rewrite bind_modify.
    rewrite (bind_eq _ _ _ _ _
               (Hproc e (with_edge_queue (fun _ => q') p) Hsf Hac)).
    eexists. eexists. split; [reflexivity|].
    cbn. repeat split; try done. by apply wrap_int_add_sub.
Qed.



(** ** The increment of a backtrack *)

Lemma returns_bind {A B} (Qm : A -> Prop) (Q : B -> Prop) (m : M A)
  (k : A -> M B) :
  returns Qm m -> (forall a, Qm a -> returns Q (k a)) ->
  returns Q (bind m k).
Proof.
  intros Hm Hk p b p' H. apply bind_Some in H as (a & p1 & H1 & H2).
  eapply Hk; [|exact H2]. by eapply Hm.
Qed.

Lemma returns_any {A} (m : M A) : returns (fun _ => True) m.
Proof. by intros p a p' _. Qed.

Lemma returns_ret {A} (Q : A -> Prop) (a : A) : Q a -> returns Q (ret a).
Proof. intros HQ p a' p' H. by injection H as <- _. Qed.

Ltac returns_tac :=
  repeat first
    [ apply returns_ret; reflexivity
    | eapply returns_bind; [apply returns_any | intros ? _]
    | match goal with
      | |- returns _ (if ?c then _ else _) => destruct c
      end ].

(** A visit hands the increment on as it got it. *)
Lemma step_3_local_keeps_increment (loc : step_3_locals) :
  returns (fun loc' => sink_value loc' = sink_value loc) (step_3_local loc).
Proof. unfold step_3_local. cbv zeta. returns_tac. Qed.

Lemma backtrack_visits_keep_increment (n : nat) :
  forall loc : step_3_locals,
    returns (fun loc' => sink_value loc' = sink_value loc)
      (backtrack_visits n loc).
Proof.
  induction n as [|n IH]; intros loc; cbn [backtrack_visits].
  - by apply returns_ret.
  - destruct (step_3_done loc || (bt_idx loc =? NO_LOCAL_ID));
      [by apply returns_ret|].
    eapply returns_bind; [apply step_3_local_keeps_increment|].
    intros loc1 E p a p' H. rewrite <- E. by eapply IH.
Qed.

Lemma only_flows_changed_step_3_recv (loc : step_3_locals) (stat_tag : Z)
  (msg : message_data) :
  preserves only_flows_changed (step_3_recv loc stat_tag msg).
Proof. unfold step_3_recv, lookup_global_id. cbv zeta. flows_tac. Qed.

Lemma only_flows_changed_backtrack_visits (n : nat) :
  forall loc : step_3_locals,
    preserves only_flows_changed (backtrack_visits n loc).
Proof.
  induction n as [|n IH]; intros loc; cbn [backtrack_visits].
  - apply preserves_ret, _.
  - repeat first
      [ apply IH | apply only_flows_changed_step_3_local | frame_step ].
Qed.

(** A backtrack enters a rank with the increment of its entry and leaves the
    labels alone. *)
Lemma enter_backtrack_increment (p0 p1 : process) (e : backtrack_entry)
  (d : Z) (loc0 : step_3_locals) :
  entry_increment p0 e = Some d ->
  enter_backtrack e p0 = Some (loc0, p1) ->
  sink_value loc0 = d /\ labels p1 = labels p0.
Proof.
  destruct e as [bt|loc msg]; cbn [entry_increment enter_backtrack].
  - unfold step_3_begin. destruct (bt =? NO_LOCAL_ID); [discriminate|].
    cbn [negb].
    destruct (vec_at (vertices p0) bt) as [v|]; [|discriminate].
    destruct (vec_at (labels p0) bt) as [l|] eqn:Hl; [|discriminate].
    destruct (id v =? sink_id p0); [|discriminate]. intros [= <-].
    rewrite (bind_eq _ _ _ _ _ (label_at_eq _ _ _ Hl)).
    intros H. by injection H as <- <-.
  - intros [= <-] H. split.
    + revert H. unfold step_3_recv.
      change (tag_of_int (int_of_tag UPDATE_FLOW)) with (Some UPDATE_FLOW).
      cbv iota zeta. intros H.
      apply bind_Some in H as (vi & q1 & _ & H).
      apply bind_Some in H as ([] & q2 & _ & H).
      by injection H as <- _.
    + by destruct (only_flows_changed_step_3_recv _ _ _ _ _ _ H).
Qed.

(** From the entry to any later visit on the rank the increment is that of
    the entry, and the labels are those the rank had. *)
Lemma backtrack_increment (p0 p : process) (e : backtrack_entry) (d : Z)
  (n : nat) (loc : step_3_locals) :
  entry_increment p0 e = Some d ->
  (loc0 <- enter_backtrack e;; backtrack_visits n loc0) p0 = Some (loc, p) ->
  sink_value loc = d /\ labels p = labels p0.
Proof.
  intros Hd H. apply bind_Some in H as (loc0 & p1 & H0 & H).
  destruct (enter_backtrack_increment _ _ _ _ _ Hd H0) as [<- <-].
  split.
  - by eapply (backtrack_visits_keep_increment n loc0).
  - by destruct (only_flows_changed_backtrack_visits n loc0 _ _ _ H).
Qed.

(** C3, amended: the increment of a backtrack is the value of the sink's
    label.  The thread that found the sink reads it from the sink's slot when
    step 3 starts, every visit hands it on unchanged, UPDATE_FLOW carries it
    to the next rank and the receiver takes it over, and no label changes on
    the way: it is the same for the entire backtrack.  Where no vertex has two
    outgoing edges to one destination, the visit of a node b with label L
    changes the flow of at most one edge: for L.value > 0 with a local
    predecessor other than b itself, the increment is added to the outgoing
    edge from L.prev_vert_index to b; for L.value < 0 it is subtracted from
    the outgoing edge from b to L.prev_node; no other flow changes.  No flow
    changes in the visit when L.value > 0 and the predecessor is on another
    rank (its owner gets UPDATE_FLOW instead), nor in the visit of the source,
    recorded as its own predecessor, when it has no edge to itself. *)
Theorem backtrack_visit_updates_path_edge (p : process)
  (loc : step_3_locals) (l : label) (vb : vertex) :
  vec_at (labels p) (bt_idx loc) = Some l ->
  vec_at (vertices p) (bt_idx loc) = Some vb ->
  (value l > 0 -> prev_rank_loc l = mpi_rank p ->
   is_Some (vec_at (vertices p) (prev_vert_index l))) ->
  let delta := sink_value loc in
  (forall (p0 : process) (e : backtrack_entry) (d : Z) (n : nat),
      entry_increment p0 e = Some d ->
      (loc0 <- enter_backtrack e;; backtrack_visits n loc0) p0
      = Some (loc, p) ->
      delta = d /\ labels p = labels p0)
  /\ (forall (q : process) (loc0 : step_3_locals),
        entry_increment q
          (GotUpdateFlow loc0
             (mk_message_data (id vb) (prev_node l) delta (pass p)))
        = Some delta)
  /\ (exists (loc' : step_3_locals) (p' : process),
      step_3_local loc p = Some (loc', p')
      /\ sink_value loc' = delta
      /\ (prev_rank_loc l = mpi_rank p -> newly_sent p p' = [])
      /\ (prev_rank_loc l <> mpi_rank p ->
          newly_sent p p' = [update_flow_message p vb l delta]
          /\ bt_idx loc' = NO_LOCAL_ID
          /\ forall (q : process) (loc0 : step_3_locals) (vert_idx : local_id)
               (w : vertex),
               global_to_local q !! prev_node l = Some vert_idx ->
               vec_at (vertices q) vert_idx = Some w ->
               exists (loc1 : step_3_locals) (q' : process),
                 step_3_recv loc0 (int_of_tag UPDATE_FLOW)
                   (mk_message_data (id vb) (prev_node l) delta (pass p)) q =
                 Some (loc1, q')
                 /\ sink_value loc1 = delta /\ bt_idx loc1 = vert_idx)
      /\ (value l > 0 -> prev_rank_loc l = mpi_rank p ->
          prev_vert_index l <> bt_idx loc ->
          forall y : vertex,
            vec_at (vertices p) (prev_vert_index l) = Some y ->
            NoDup (dest_node_id <$> out_edges y) ->
            (forall (vi : local_id) (ei : nat) (e : out_edge),
                edge_at p vi ei = Some e ->
                edge_at p' vi ei =
                Some (if decide (vi = prev_vert_index l
                                 /\ dest_node_id e = id vb)
                      then with_flow (int_add (flow e) delta) e else e))
            /\ (forall (ei ej : nat) (e e' : out_edge),
                   out_edges y !! ei = Some e -> out_edges y !! ej = Some e' ->
                   dest_node_id e = id vb -> dest_node_id e' = id vb ->
                   ei = ej))
      /\ (value l < 0 ->
          NoDup (dest_node_id <$> out_edges vb) ->
          (forall (vi : local_id) (ei : nat) (e : out_edge),
              edge_at p vi ei = Some e ->
              edge_at p' vi ei =
              Some (if decide (vi = bt_idx loc
                               /\ dest_node_id e = prev_node l)
                    then with_flow (int_sub (flow e) delta) e else e))
          /\ (forall (ei ej : nat) (e e' : out_edge),
                 out_edges vb !! ei = Some e -> out_edges vb !! ej = Some e' ->
                 dest_node_id e = prev_node l ->
                 dest_node_id e' = prev_node l -> ei = ej))
      /\ (0 <= value l -> prev_rank_loc l <> mpi_rank p ->
          vertices p' = vertices p)
      /\ (value l = 0 -> vertices p' = vertices p)
      /\ (value l > 0 -> prev_rank_loc l = mpi_rank p ->
          prev_vert_index l = bt_idx loc ->
          Forall (fun e => dest_node_id e <> id vb) (out_edges vb) ->
          vertices p' = vertices p)).
Proof.
  intros Hl Hb Hprev delta. split; [|split].
  - intros p0 e d n Hd H. by apply (backtrack_increment p0 p e d n loc).
  - reflexivity.
  - by apply step_3_local_visit.
Qed.

(** The backtrack of the single-edge graph starts at the sink, whose label
    is 5: the visit of the sink puts 5 units on the edge 0 -> 1. *)
Lemma backtrack_visit_updates_path_edge_witness :
  entry_increment sample_at_sink (FoundSink 1) = Some 5
  /\ exists (loc' : step_3_locals) (p' : process),
       step_3_local (mk_step_3_locals 1 5 false false) sample_at_sink =
       Some (loc', p')
       /\ edge_at p' 0 0 = Some (mk_out_edge 1 0 1 5 5).
Proof.
  destruct (backtrack_visit_updates_path_edge sample_at_sink
              (mk_step_3_locals 1 5 false false) (mk_label 5 0 0 0)
              (mk_vertex 1 [] [mk_in_edge 0 0 0]) eq_refl eq_refl)
    as (Hinc & _ & loc' & p' & Hstep & _ & _ & _ & Hfwd & _).
  { intros _ _. by eexists. }
  split.
  { destruct (Hinc sample_at_sink (FoundSink 1) 5 0%nat eq_refl eq_refl)
      as [_ _]. reflexivity. }
  exists loc', p'. split; [exact Hstep|].
  destruct (Hfwd ltac:(reflexivity) eq_refl ltac:(discriminate)
              (mk_vertex 0 [mk_out_edge 1 0 1 5 0] []) eq_refl
              (NoDup_singleton 1)) as [Hedge _].
  exact (Hedge 0 0%nat (mk_out_edge 1 0 1 5 0) eq_refl).
Defined.

(** ** What the winner of a slot leaves in it *)

Lemma cas_wins_two (idx : local_id) (tr : list (nat * label_event))
  (t1 t2 : nat) :
  In (t1, CasWon idx) tr -> In (t2, CasWon idx) tr -> t1 <> t2 ->
  (2 <= cas_wins idx tr)%nat.
Proof.
  intros H1 H2 Hne.
  induction tr as [|[t' ev'] tr IH]; [destruct H1|].
  assert (Hcons : forall t, In (t, CasWon idx) tr ->
            (t', ev') = (t, CasWon idx) \/ True) by auto.
  destruct H1 as [E1|H1], H2 as [E2|H2].
  - congruence.
  - injection E1 as -> ->. pose proof (cas_wins_In _ _ _ H2) as Hw.
    unfold cas_wins in *. cbn. rewrite Z.eqb_refl. cbn. lia.
  - injection E2 as -> ->. pose proof (cas_wins_In _ _ _ H1) as Hw.
    unfold cas_wins in *. cbn. rewrite Z.eqb_refl. cbn. lia.
  - specialize (IH H1 H2). unfold cas_wins in *. cbn.
    destruct ev' as [j|j|j|j|j]; try exact IH.
    destruct (j =? idx); cbn; lia.
Qed.

(** A statement of a caller that is past its compare-and-swap, seen from
    its own slot. *)
Lemma label_thread_step_fills (c : label_call) (pc pc' : label_pc)
  (ev : label_event) (p p' : process) (l : label) :
  label_thread_step c pc p = Some ((pc', ev), p') ->
  past_cas pc = true ->
  vec_at (labels p) (call_curr_idx c) = Some l ->
  slot_filled c pc l ->
  exists l' : label,
    vec_at (labels p') (call_curr_idx c) = Some l' /\ slot_filled c pc' l'.
Proof.
  intros H Hpast Hl [Hv Hf]. destruct pc; try discriminate Hpast; cbn in H.
  - apply bind_Some in H as ([] & p1 & H1 & H).
    apply update_label_inv in H1 as (l0 & Hl0 & ->).
    injection H as <- <- <-. rewrite Hl in Hl0. injection Hl0 as <-.
    eexists. split; [by eapply labelled_with_same|]. by split.
  - apply bind_Some in H as ([] & p1 & H1 & H).
    apply update_label_inv in H1 as (l0 & Hl0 & ->).
    injection H as <- <- <-. rewrite Hl in Hl0. injection Hl0 as <-.
    eexists. split; [by eapply labelled_with_same|]. by split.
  - apply bind_Some in H as ([] & p1 & H1 & H).
    apply update_label_inv in H1 as (l0 & Hl0 & ->).
    injection H as <- <- <-. rewrite Hl in Hl0. injection Hl0 as <-.
    eexists. split; [by eapply labelled_with_same|].
    split; [exact Hv|]. cbn. destruct Hf as [<- <-]. by rewrite <- Hv.
  - apply bind_Some in H as (v & p1 & H1 & H).
    assert (p1 = p) as -> by run_reads.
    unfold bind, gets in H.
    destruct (id v =? sink_id p); injection H as <- <- <-;
      (exists l; split; [exact Hl|by split]).
  - apply bind_Some in H as ([] & p1 & H1 & H).
    apply insert_edges_frame in H1 as (f & ->).
    injection H as <- <- <-. exists l. split; [exact Hl|by split].
Qed.

Lemma winners_hold_slots_step (calls : list label_call)
  (p0 p p' : process) (tr : list (nat * label_event)) (pool : label_pool)
  (t0 : nat) (c0 : label_call) (pc0 pc0' : label_pc) (ev : label_event) :
  Forall (fun c => call_value c <> 0) calls ->
  pool_invariant calls p0 tr p pool ->
  winners_hold_slots tr p pool ->
  pool !! t0 = Some (c0, pc0) ->
  label_thread_step c0 pc0 p = Some ((pc0', ev), p') ->
  winners_hold_slots (tr ++ [(t0, ev)]) p' (<[t0 := (c0, pc0')]> pool).
Proof.
  intros Hnz Inv J Ht0 Hs t c pc Ht Hin.
  destruct Inv as [Hcalls Hwins _ Hpast Hat _ _ _ _].
  pose proof (label_thread_step_effect _ _ _ _ _ _ Hs) as Heff.
  assert (Hlt : (t0 < length pool)%nat) by (by eapply lookup_lt_Some).
  destruct (decide (t = t0)) as [->|Hne].
  - rewrite list_lookup_insert_eq in Ht by done. injection Ht as <- <-.
    apply in_app_or in Hin as [Hin|[Hin|[]]].
    + (* the caller had won before this step *)
      destruct (J _ _ _ Ht0 Hin) as (l & Hl & Hf).
      destruct (past_cas pc0) eqn:Hp; [by eapply label_thread_step_fills|].
      destruct pc0; try discriminate Hp.
      * by destruct (Hat _ _ _ Ht0 Hin).
      * discriminate Hs.
    + (* this step is the winning compare-and-swap *)
      injection Hin as ->.
      destruct Heff as (_ & _ & -> & _ & Hv & _).
      unfold slot_value in Hv.
      destruct (vec_at (labels p') (call_curr_idx c0)) as [l|]; [|done].
      exists l. split; [done|]. split; [|done]. by injection Hv.
  - rewrite list_lookup_insert_ne in Ht by done.
    apply in_app_or in Hin as [Hin|[Hin|[]]]; [|congruence].
    destruct (J _ _ _ Ht Hin) as (l & Hl & Hf).
    exists l. split; [|exact Hf].
    assert (Hc : call_value c <> 0).
    { rewrite Forall_forall in Hnz. apply Hnz. rewrite <- Hcalls.
      apply list_elem_of_fmap. exists (c, pc). split; [done|].
      by eapply list_elem_of_lookup_2. }
    destruct ev as [j|j|j|j|j].
    + destruct Heff as (-> & _ & _ & H0 & _ & Hother & _).
      destruct (decide (call_curr_idx c = call_curr_idx c0)) as [E|E].
      * exfalso. rewrite <- E in H0. unfold slot_value in H0.
        rewrite Hl in H0. destruct Hf as [Hv _]. cbn in H0. congruence.
      * by rewrite Hother.
    + by destruct Heff as (_ & _ & _ & -> & _).
    + destruct Heff as (-> & Hp0 & _ & _ & Hother & _).
      destruct (decide (call_curr_idx c = call_curr_idx c0)) as [E|E].
      * exfalso. pose proof (Hpast _ _ _ Ht0 Hp0) as Hin0.
        rewrite <- E in Hin0.
        pose proof (cas_wins_two _ _ _ _ Hin Hin0 Hne) as H2.
        destruct (Hwins (call_curr_idx c)) as [H1 _]. lia.
      * by rewrite Hother.
    + by destruct Heff as (_ & _ & ->).
    + destruct Heff as (_ & _ & _ & ->). exact Hl.
Qed.

Lemma pool_run_winners (calls : list label_call) (p0 : process)
  (tr : list (nat * label_event)) (s : process * label_pool) :
  Forall (fun c => call_value c <> 0) calls ->
  pool_run (p0, start_pool calls) tr s ->
  winners_hold_slots tr (fst s) (snd s).
Proof.
  intros Hnz Hrun.
  remember (p0, start_pool calls) as s0 eqn:Es0.
  induction Hrun as [s|s s' s'' tr ev Hrun IH Hstep]; subst.
  - intros t c pc _ [].
  - specialize (IH eq_refl).
    pose proof (pool_run_invariant _ _ _ _ Hnz Hrun) as Inv.
    inversion Hstep as [p p' pool t c pc pc' e Ht Hs]; subst. cbn in *.
    by eapply winners_hold_slots_step.
Qed.



